(** * KhmerSyllableReorder: a shallow embedding of [KhmerSyllableReorder.py]

    A Python [str] is a sequence of Unicode code points; it is modelled as a
    [list Z].  The regular expressions of the class are terms of a small
    regex type with a backtracking matcher, [str.replace] is a left-to-right
    replacement function, and the in-place list updates of [reorderSyll] are
    folds over the index ranges the loops run through.  The second part gives
    closed forms of the matcher and of the loops, and the third part proves
    them and the properties of the three methods. *)

From Stdlib Require Import ZArith List Bool Lia Arith Permutation.
Import ListNotations.

Set Implicit Arguments.

(** ** Text *)

(** A text: the code points of a Python [str]. *)
Abbreviation str := (list Z).

Definition nonempty (A : Type) (s : list A) : bool :=
  match s with [] => false | _ :: _ => true end.

Fixpoint str_eqb (a b : str) : bool :=
  match a, b with
  | [], [] => true
  | x :: a', y :: b' => (x =? y)%Z && str_eqb a' b'
  | _, _ => false
  end.

(** ** Character classes (the class attributes of [KhmerSyllableReorder]) *)

Module CharClass.

Definition in_range (lo hi c : Z) : bool := ((lo <=? c) && (c <=? hi))%Z.

(** [CONS = '[\u1780-\u17A2]'] *)
Definition CONS (c : Z) : bool := in_range 0x1780 0x17A2 c.
(** [RO = '\u179A'] *)
Definition RO : Z := 0x179A.
(** [INDEPVOWEL = '[\u17A3-\u17B3]'] *)
Definition INDEPVOWEL (c : Z) : bool := in_range 0x17A3 0x17B3 c.
(** [DEPVOWEL = '[\u17B6-\u17C5]'] *)
Definition DEPVOWEL (c : Z) : bool := in_range 0x17B6 0x17C5 c.
(** [COENG = '\u17D2'] *)
Definition COENG : Z := 0x17D2.
(** [DIACRITIC = '[\u17C6-\u17D1\u17DD]'] *)
Definition DIACRITIC (c : Z) : bool := in_range 0x17C6 0x17D1 c || (c =? 0x17DD)%Z.
(** [REGSHIFTER = '[\u17C9\u17CA]'] *)
Definition REGSHIFTER (c : Z) : bool := (c =? 0x17C9)%Z || (c =? 0x17CA)%Z.
(** [ROBAT = '\u17CC'] *)
Definition ROBAT : Z := 0x17CC.
(** [ZEROWIDTH = '[\u200B-\u200D\u00AD\u2063]'] *)
Definition ZEROWIDTH (c : Z) : bool :=
  in_range 0x200B 0x200D c || (c =? 0x00AD)%Z || (c =? 0x2063)%Z.
(** [SPACING = '[\u17C7\u17C8]'] *)
Definition SPACING (c : Z) : bool := (c =? 0x17C7)%Z || (c =? 0x17C8)%Z.
(** [NONSPACING = '[\u17C6\u17CB\u17CD-\u17D1\u17DD]'] *)
Definition NONSPACING (c : Z) : bool :=
  (c =? 0x17C6)%Z || (c =? 0x17CB)%Z || in_range 0x17CD 0x17D1 c || (c =? 0x17DD)%Z.

(** [CONS_OR_INDEPVOWEL = CONS + '|' + INDEPVOWEL] *)
Definition CONS_OR_INDEPVOWEL (c : Z) : bool := CONS c || INDEPVOWEL c.

Definition is_COENG (c : Z) : bool := (c =? COENG)%Z.
Definition is_RO (c : Z) : bool := (c =? RO)%Z.
Definition is_ROBAT (c : Z) : bool := (c =? ROBAT)%Z.

(** The characters the second alternative of [SYLLPAT] repeats over:
    [(?:DEPVOWEL|DIACRITIC|ZEROWIDTH)]. *)
Definition SYLLMARK (c : Z) : bool := DEPVOWEL c || DIACRITIC c || ZEROWIDTH c.

(** [.] in a pattern compiled without [re.DOTALL]: any code point but a
    line feed. *)
Definition DOT (c : Z) : bool := negb (c =? 0x0A)%Z.

End CharClass.
Import CharClass.

(** ** [str.replace]

    [s.replace(old, new)] for a non-empty [old]: scan [s] from the left;
    where [old] occurs, emit [new] and skip the occurrence, otherwise copy
    one code point.  [skip] counts the code points of an occurrence that are
    still to be skipped.  Every call site below has a non-empty [old]. *)

Fixpoint starts_with (p s : str) : bool :=
  match p, s with
  | [], _ => true
  | a :: p', b :: s' => (a =? b)%Z && starts_with p' s'
  | _ :: _, [] => false
  end.

Fixpoint replace_from (old new : str) (skip : nat) (s : str) : str :=
  match s with
  | [] => []
  | c :: s' =>
      match skip with
      | S k => replace_from old new k s'
      | O => if starts_with old s
             then new ++ replace_from old new (length old - 1) s'
             else c :: replace_from old new 0 s'
      end
  end.

Definition str_replace (old new s : str) : str := replace_from old new 0 s.

(** ** [regularizeText] *)

Definition regularizeText (text : str) : str :=
  let text := str_replace [0x17A8%Z] [0x17A7%Z; 0x1780%Z] text in
  let text := str_replace [0x17A3%Z] [0x17A2%Z] text in
  let text := str_replace [0x17A4%Z] [0x17A2%Z; 0x17B6%Z] text in
  let text := str_replace [0x17B2%Z] [0x17B1%Z] text in
  let text := str_replace [0x17B4%Z] [] text in
  let text := str_replace [0x17B5%Z] [] text in
  let text := str_replace [0x17DD%Z] [0x17D1%Z] text in
  let text := str_replace [0x17D3%Z] [0x17C6%Z] text in
  let text := str_replace [0x17D8%Z] [0x17D4%Z; 0x179B%Z; 0x17D4%Z] text in
  text.

(** The nine code points [regularizeText] replaces or deletes. *)
Definition regularize_sources : list Z :=
  [0x17A8; 0x17A3; 0x17A4; 0x17B2; 0x17B4; 0x17B5; 0x17DD; 0x17D3; 0x17D8]%Z.

Definition is_source (c : Z) : bool := existsb (Z.eqb c) regularize_sources.

(** ** Regular-expression matching

    A matcher takes the text at the current position and returns the match
    found there together with the text after it, or [None] when the pattern
    does not match at this position. *)

Definition matcher := str -> option (str * str).

(** What [re.match(CLASS, c)] tests for a pattern that is one character
    class: the first code point of [c] is in the class. *)
Definition re_match_class (p : Z -> bool) (c : str) : bool :=
  match c with
  | x :: _ => p x
  | [] => false
  end.

(** ** Regular expressions

    The patterns of the source use character classes, concatenation,
    alternation and the greedy repetitions [*], [+] and [?].  [run] is the
    backtracking matcher of Python's [re] for them: it tries the first
    alternative before the second and the longer repetition before the
    shorter, and goes back to the last choice when what follows fails.  [k]
    is what follows, and [fuel] bounds the depth of the search.  No repeated
    sub-pattern of the source matches the empty string, so the rule of [re]
    for empty repetitions never applies and is not modelled. *)

Inductive regex : Type :=
| Chr (p : Z -> bool)
| Cat (r1 r2 : regex)
| Alt (r1 r2 : regex)
| Star (r : regex)
| Plus (r : regex)
| Opt (r : regex).

Inductive outcome : Type :=
| Matched (rest : str)
| NoMatch
| OutOfFuel.

Fixpoint run (fuel : nat) (r : regex) (s : str) (k : str -> outcome) : outcome :=
  match fuel with
  | O => OutOfFuel
  | S f =>
      match r with
      | Chr p =>
          match s with
          | c :: s' => if p c then k s' else NoMatch
          | [] => NoMatch
          end
      | Cat r1 r2 => run f r1 s (fun s1 => run f r2 s1 k)
      | Alt r1 r2 =>
          match run f r1 s k with
          | NoMatch => run f r2 s k
          | o => o
          end
      | Star r1 =>
          match run f r1 s (fun s1 => run f (Star r1) s1 k) with
          | NoMatch => k s
          | o => o
          end
      | Plus r1 => run f r1 s (fun s1 => run f (Star r1) s1 k)
      | Opt r1 =>
          match run f r1 s k with
          | NoMatch => k s
          | o => o
          end
      end
  end.

(** The depth the search for a pattern of the source in [s] stays within
    (see [run_SYLLPAT] and [run_CHUNKPAT]). *)
Definition re_fuel (s : str) : nat := 2 * length s + 16.

(** [re.match(r, s)], as the match and the text after it. *)
Definition re_match (r : regex) : matcher := fun s =>
  match run (re_fuel s) r s Matched with
  | Matched rest => Some (firstn (length s - length rest) s, rest)
  | _ => None
  end.

(** [re.match(r, s)] as a truth value. *)
Definition re_test (r : regex) (s : str) : bool :=
  match re_match r s with
  | Some _ => true
  | None => false
  end.

(** [re.sub(r, repl, s)] for a pattern that matches no empty string: from
    the left, a match becomes [repl] and the scan goes on behind it, and a
    code point at which [r] does not match is copied.  Every step consumes a
    code point, so [length s] steps are enough. *)
Fixpoint re_sub_from (m : matcher) (repl : str) (fuel : nat) (s : str) : str :=
  match fuel with
  | O => s
  | S f =>
      match s with
      | [] => []
      | c :: s' =>
          match m s with
          | Some (_, rest) => repl ++ re_sub_from m repl f rest
          | None => c :: re_sub_from m repl f s'
          end
      end
  end.

Definition re_sub (r : regex) (repl s : str) : str :=
  re_sub_from (re_match r) repl (length s) s.

(** The patterns of the class, built as the source builds them from the
    character classes. *)
Module Pattern.

Definition CONS : regex := Chr CharClass.CONS.
Definition RO : regex := Chr is_RO.
Definition INDEPVOWEL : regex := Chr CharClass.INDEPVOWEL.
Definition DEPVOWEL : regex := Chr CharClass.DEPVOWEL.
Definition COENG : regex := Chr is_COENG.
Definition DIACRITIC : regex := Chr CharClass.DIACRITIC.
Definition REGSHIFTER : regex := Chr CharClass.REGSHIFTER.
Definition ROBAT : regex := Chr is_ROBAT.
Definition ZEROWIDTH : regex := Chr CharClass.ZEROWIDTH.
Definition SPACING : regex := Chr CharClass.SPACING.
Definition NONSPACING : regex := Chr CharClass.NONSPACING.

(** [CONS_OR_INDEPVOWEL = CONS + '|' + INDEPVOWEL] *)
Definition CONS_OR_INDEPVOWEL : regex := Alt CONS INDEPVOWEL.

(** [COENG_RO = COENG + RO] *)
Definition COENG_RO : regex := Cat COENG RO.

(** [SYLLPAT = '(?:{0})(?:{1}+(?:{0})|(?:{2}|{3}|{4})+)*'.format(
    CONS_OR_INDEPVOWEL, COENG, DEPVOWEL, DIACRITIC, ZEROWIDTH)] *)
Definition SYLLPAT : regex :=
  Cat CONS_OR_INDEPVOWEL
      (Star (Alt (Cat (Plus COENG) CONS_OR_INDEPVOWEL)
                 (Plus (Alt DEPVOWEL (Alt DIACRITIC ZEROWIDTH))))).

(** [CHUNKPAT = '(?:{0}+(?:{1}){2}?)|.'.format(
    COENG, CONS_OR_INDEPVOWEL, REGSHIFTER)] *)
Definition CHUNKPAT : regex :=
  Alt (Cat (Plus COENG) (Cat CONS_OR_INDEPVOWEL (Opt REGSHIFTER)))
      (Chr DOT).

End Pattern.

(** [re] matching at the current position with the two patterns. *)
Definition match_SYLLPAT : matcher := re_match Pattern.SYLLPAT.
Definition match_CHUNKPAT : matcher := re_match Pattern.CHUNKPAT.

(** [re.split('(' + PAT + ')', text)] for a pattern that matches no empty
    string: the text before the first match, the match, the text between it
    and the next match, and so on up to the text after the last match; the
    texts between matches may be empty.  [gap] is the unmatched text since the
    last match.  Every step consumes a code point, and the last one emits the
    final gap, so [S (length s)] steps are enough. *)
Fixpoint re_split_from (m : matcher) (fuel : nat) (gap s : str) : list str :=
  match fuel with
  | O => [gap ++ s]
  | S f =>
      match s with
      | [] => [gap]
      | c :: s' =>
          match m s with
          | Some (mt, rest) => gap :: mt :: re_split_from m f [] rest
          | None => re_split_from m f (gap ++ [c]) s'
          end
      end
  end.

Definition re_split (m : matcher) (s : str) : list str :=
  re_split_from m (S (length s)) [] s.

(** ** [reorderSyll] *)

(** The six lists the chunks are sorted into. *)
Record buckets : Type := Buckets {
  dv : list str;
  coeng : list str;
  nonsp : list str;
  sp : list str;
  rs : list str;
  robat : list str
}.

Definition no_buckets : buckets := Buckets [] [] [] [] [] [].

(** One round of [for c in chunks: if ... elif ...]. *)
Definition classify_step (b : buckets) (c : str) : buckets :=
  if re_test Pattern.DEPVOWEL c then
    Buckets (dv b ++ [c]) (coeng b) (nonsp b) (sp b) (rs b) (robat b)
  else if re_test Pattern.COENG c then
    Buckets (dv b)
            (coeng b ++ [re_sub (Plus Pattern.COENG) [CharClass.COENG] c])
            (nonsp b) (sp b) (rs b) (robat b)
  else if re_test Pattern.NONSPACING c then
    Buckets (dv b) (coeng b) (nonsp b ++ [c]) (sp b) (rs b) (robat b)
  else if re_test Pattern.SPACING c then
    Buckets (dv b) (coeng b) (nonsp b) (sp b ++ [c]) (rs b) (robat b)
  else if re_test Pattern.REGSHIFTER c then
    Buckets (dv b) (coeng b) (nonsp b) (sp b) (rs b ++ [c]) (robat b)
  else if re_test Pattern.ROBAT c then
    Buckets (dv b) (coeng b) (nonsp b) (sp b) (rs b) (robat b ++ [c])
  else b.

Definition classify (chunks : list str) : buckets :=
  fold_left classify_step chunks no_buckets.

(** [l[i] = x] for an index inside the list. *)
Fixpoint list_set (A : Type) (i : nat) (x : A) (l : list A) : list A :=
  match l, i with
  | [], _ => []
  | _ :: l', O => x :: l'
  | y :: l', S j => y :: list_set j x l'
  end.

(** The body of [for i in range(numCoeng)]. *)
Definition ro_step (coeng : list str) (i : nat) : list str :=
  let ci := nth i coeng [] in
  if nonempty ci && re_test Pattern.COENG_RO ci
  then list_set i [] (coeng ++ [ci])
  else coeng.

(** [numCoeng = len(coeng) - 1; for i in range(numCoeng): ...]; an empty
    range when [coeng] is empty. *)
Definition ro_loop (coeng : list str) : list str :=
  fold_left ro_step (seq 0 (length coeng - 1)) coeng.

(** The body of [for i in range(1, len(chunks))]. *)
Definition dedup_step (chunks : list str) (i : nat) : list str :=
  if str_eqb (nth i chunks []) (nth (i - 1) chunks [])
  then list_set (i - 1) [] chunks
  else chunks.

Definition dedup_loop (chunks : list str) : list str :=
  fold_left dedup_step (seq 1 (length chunks - 1)) chunks.

(** [chunks = re.split('(' + CHUNKPAT + ')', syll[1:])] without its empty
    strings. *)
Definition chunks_of (tail : str) : list str :=
  filter (@nonempty Z) (re_split match_CHUNKPAT tail).

(** The list [chunks] after the joining of the buckets and the removal of
    adjacent duplicates and of empty strings. *)
Definition reassembled_chunks (syll : str) : list str :=
  let base := firstn 1 syll in
  let b := classify (chunks_of (skipn 1 syll)) in
  let coeng := ro_loop (coeng b) in
  let chunks := [base] ++ rs b ++ robat b ++ coeng ++ dv b ++ nonsp b ++ sp b in
  filter (@nonempty Z) (dedup_loop chunks).

(** [syll = ''.join(chunks)] before the three vowel replacements. *)
Definition reassemble (syll : str) : str := concat (reassembled_chunks syll).

Definition fuse_e_ii : str -> str := str_replace [0x17C1%Z; 0x17B8%Z] [0x17BE%Z].
Definition fuse_ii_e : str -> str := str_replace [0x17B8%Z; 0x17C1%Z] [0x17BE%Z].
Definition fuse_e_aa : str -> str := str_replace [0x17C1%Z; 0x17B6%Z] [0x17C4%Z].

(** The three replacements in the order the source applies them. *)
Definition fuse (syll : str) : str := fuse_e_aa (fuse_ii_e (fuse_e_ii syll)).

Definition is_real_syll (syll : str) : bool :=
  (1 <? length syll) && re_test Pattern.CONS_OR_INDEPVOWEL syll.

Definition reorderSyll (syll : str) : str :=
  if is_real_syll syll then fuse (reassemble syll) else syll.

(** ** [reorderText] *)

Definition syllables_of (text : str) : list str :=
  filter (@nonempty Z) (re_split match_SYLLPAT text).

Definition reorderText (text : str) : str :=
  let text := regularizeText text in
  let syll := map reorderSyll (syllables_of text) in
  concat syll.

(** [c] is none of the code points of [l]. *)
Definition avoids (l : list Z) (c : Z) : bool := negb (existsb (Z.eqb c) l).

(** ** Deterministic readings of the patterns

    The classes of the patterns exclude each other where the matcher has a
    choice, so a scan without backtracking finds the same matches; the
    scanners below are proved equal to the matcher on the two patterns. *)

(** The longest prefix of code points of a class: a greedy [CLASS*]. *)
Fixpoint span (p : Z -> bool) (s : str) : str * str :=
  match s with
  | c :: s' => if p c then let (a, b) := span p s' in (c :: a, b) else ([], s)
  | [] => ([], [])
  end.

(** [COENG+(?:CONS_OR_INDEPVOWEL)], the sub-pattern [SYLLPAT] and [CHUNKPAT]
    share.  [COENG+] takes the whole run of coengs; giving some of them back
    cannot help, since the code point after a shorter run is a coeng, which
    is neither a consonant nor an independent vowel. *)
Definition match_coeng_cluster : matcher := fun s =>
  let (ks, r) := span is_COENG s in
  match ks, r with
  | _ :: _, c :: r' => if CONS_OR_INDEPVOWEL c then Some (ks ++ [c], r') else None
  | _, _ => None
  end.

(** What the matcher finds with [CHUNKPAT]: a coeng cluster with the
    register shifter behind it, if there is one, or else one code point that
    is not a line feed. *)
Definition scan_CHUNKPAT : matcher := fun s =>
  match match_coeng_cluster s with
  | Some (m, r) =>
      match r with
      | c :: r' => if REGSHIFTER c then Some (m ++ [c], r') else Some (m, r)
      | [] => Some (m, r)
      end
  | None =>
      match s with
      | c :: s' => if DOT c then Some ([c], s') else None
      | [] => None
      end
  end.

(** The starred group of [SYLLPAT],
    [(?:COENG+(?:CONS_OR_INDEPVOWEL)|(?:DEPVOWEL|DIACRITIC|ZEROWIDTH)+)*]:
    each round takes a coeng cluster, or else a run of marks, and the loop
    stops at the first position where neither is found.  Every round consumes
    a code point, so [length s] rounds are enough. *)
Fixpoint match_syll_tail (fuel : nat) (s : str) : str * str :=
  match fuel with
  | O => ([], s)
  | S f =>
      match match_coeng_cluster s with
      | Some (m, r) => let (m', r') := match_syll_tail f r in (m ++ m', r')
      | None =>
          match span SYLLMARK s with
          | ((_ :: _) as m, r) => let (m', r') := match_syll_tail f r in (m ++ m', r')
          | ([], _) => ([], s)
          end
      end
  end.

(** What the matcher finds with [SYLLPAT]. *)
Definition scan_SYLLPAT : matcher := fun s =>
  match s with
  | c :: s' =>
      if CONS_OR_INDEPVOWEL c
      then let (m, r) := match_syll_tail (length s') s' in Some (c :: m, r)
      else None
  | [] => None
  end.


(** What [re.sub(COENG + '+', COENG, c)] returns: every run of coengs
    becomes one coeng (a coeng followed by a coeng is dropped). *)
Fixpoint collapse_coeng (c : str) : str :=
  match c with
  | x :: c' =>
      if is_COENG x then
        match c' with
        | y :: _ => if is_COENG y then collapse_coeng c' else COENG :: collapse_coeng c'
        | [] => [COENG]
        end
      else x :: collapse_coeng c'
  | [] => []
  end.

(** What [re.match(COENG_RO, c)] tests: [c] starts with coeng RO. *)
Definition re_match_COENG_RO (c : str) : bool :=
  match c with
  | k :: r :: _ => is_COENG k && is_RO r
  | _ => false
  end.

(** The result of a scanner as an outcome of the matcher. *)
Definition outcome_of (m : option (str * str)) : outcome :=
  match m with
  | Some (_, rest) => Matched rest
  | None => NoMatch
  end.

(** A pattern that takes one code point of the class [p], whatever follows:
    a class, or an alternation of such patterns.  [d] is the fuel it needs. *)
Definition class_like (d : nat) (r : regex) (p : Z -> bool) : Prop :=
  forall f s k, d <= f ->
    run f r s k =
    match s with
    | c :: s' => if p c then k s' else NoMatch
    | [] => NoMatch
    end.

(** What follows a run of the class [p] decides the repetition without
    backtracking: it succeeds behind the whole run, or it fails wherever a
    code point of the class comes next. *)
Definition settles (p : Z -> bool) (k : str -> outcome) (s : str) : Prop :=
  k (snd (span p s)) <> NoMatch \/
  (forall c s', p c = true -> k (c :: s') = NoMatch).

(** ** Functional readings of the loops

    The statements below speak about the loops of [reorderSyll] through
    these closed forms; each is proved equal to the loop it reads. *)

(** The bucket a chunk goes to, by the [if ... elif ...] chain. *)
Inductive chunk_class : Type :=
| DepVowel | CoengCluster | NonSpacing | Spacing | RegShifter | Robat.

Definition class_of (c : str) : option chunk_class :=
  if re_match_class DEPVOWEL c then Some DepVowel
  else if re_match_class is_COENG c then Some CoengCluster
  else if re_match_class NONSPACING c then Some NonSpacing
  else if re_match_class SPACING c then Some Spacing
  else if re_match_class REGSHIFTER c then Some RegShifter
  else if re_match_class is_ROBAT c then Some Robat
  else None.

Definition chunk_class_eqb (a b : chunk_class) : bool :=
  match a, b with
  | DepVowel, DepVowel | CoengCluster, CoengCluster | NonSpacing, NonSpacing
  | Spacing, Spacing | RegShifter, RegShifter | Robat, Robat => true
  | _, _ => false
  end.

Definition has_class (k : chunk_class) (c : str) : bool :=
  match class_of c with
  | Some k' => chunk_class_eqb k k'
  | None => false
  end.

(** The duplicate loop: an element equal to its successor becomes [''].  The
    loop compares original elements only, since round [i] writes index
    [i - 1], which no later round reads. *)
Fixpoint dedup_adjacent (l : list str) : list str :=
  match l with
  | x :: l' =>
      match l' with
      | y :: _ => (if str_eqb y x then [] else x) :: dedup_adjacent l'
      | [] => [x]
      end
  | [] => []
  end.

(** The RO loop: the clusters before the last one that start with coeng RO
    become [''] and are appended, in order, after the last cluster. *)
Definition ro_blank (c : str) : str := if re_match_COENG_RO c then [] else c.

Definition ro_moved (l : list str) : list str :=
  let init := firstn (length l - 1) l in
  map ro_blank init ++ skipn (length l - 1) l ++ filter re_match_COENG_RO init.

(** A match is a non-empty prefix of the text it is found in. *)
Definition sound_matcher (m : matcher) : Prop :=
  forall s a b, m s = Some (a, b) -> a <> [] /\ s = a ++ b.

(** [re_split_from] with the fuel of [re_split] and any gap. *)
Definition split_gap (m : matcher) (gap s : str) : list str :=
  re_split_from m (S (length s)) gap s.

(** The chunks [CHUNKPAT] cuts a text into: a run of coengs with a
    consonant or independent vowel and maybe a register shifter, one code
    point that is not a line feed, or the line feeds between two matches. *)
Inductive chunk_shape : str -> Prop :=
| shape_cluster ks c :
    ks <> [] -> forallb is_COENG ks = true -> CONS_OR_INDEPVOWEL c = true ->
    chunk_shape (ks ++ [c])
| shape_cluster_rs ks c r :
    ks <> [] -> forallb is_COENG ks = true -> CONS_OR_INDEPVOWEL c = true ->
    REGSHIFTER r = true ->
    chunk_shape (ks ++ [c; r])
| shape_char c : DOT c = true -> chunk_shape [c]
| shape_newlines g : g <> [] -> Forall (fun c => c = 0x0A%Z) g -> chunk_shape g.

(** The entries of the coeng bucket, after [collapse_coeng]. *)
Inductive coeng_shape : str -> Prop :=
| coeng_lone : coeng_shape [COENG]
| coeng_plain c : CONS_OR_INDEPVOWEL c = true -> coeng_shape [COENG; c]
| coeng_shifted c r :
    CONS_OR_INDEPVOWEL c = true -> REGSHIFTER r = true ->
    coeng_shape [COENG; c; r].

(** A chunk that is one code point of a class. *)
Definition single_of (p : Z -> bool) (c : str) : Prop :=
  exists x, c = [x] /\ p x = true.

(** The buckets of a syllable tail joined in the order of the source, after
    the RO loop: what follows [base] in [chunks]. *)
Definition joined_buckets (tail : str) : list str :=
  let b := classify (chunks_of tail) in
  rs b ++ robat b ++ ro_moved (coeng b) ++ dv b ++ nonsp b ++ sp b.

(** Adjacent duplicates blanked and the blanks removed. *)
Definition squash (l : list str) : list str :=
  filter (@nonempty Z) (dedup_adjacent l).

(** The coeng bucket of a syllable, as the RO loop receives it. *)
Definition coeng_bucket (syll : str) : list str :=
  coeng (classify (chunks_of (skipn 1 syll))).

Definition not_COENG_RO (c : str) : bool := negb (re_match_COENG_RO c).

(** A stable move of the RO clusters behind the others: the non-RO clusters
    in their order, then the RO clusters in theirs. *)
Definition ro_last_stable (l : list str) : list str :=
  filter not_COENG_RO l ++ filter re_match_COENG_RO l.

(** ** The vowel replacements as one pass

    A rule set maps a pair of adjacent code points to the code point that
    replaces it.  [scan] applies a rule set in one pass from the left, the
    way [str.replace] applies one rule. *)

Definition rules := Z -> Z -> option Z.

Definition no_rule : rules := fun _ _ => None.

(** The rule set [R] extended by the rule [a b -> o]. *)
Definition add_rule (R : rules) (a b o : Z) : rules := fun x y =>
  match R x y with
  | Some o' => Some o'
  | None => if ((a =? x) && (b =? y))%Z then Some o else None
  end.

Definition in_rules (R : rules) (x y : Z) : bool :=
  match R x y with Some _ => true | None => false end.

Fixpoint scan (R : rules) (skip : bool) (s : str) : str :=
  match s with
  | [] => []
  | x :: s' =>
      if skip then scan R false s'
      else match s' with
           | y :: _ =>
               match R x y with
               | Some o => o :: scan R true s'
               | None => x :: scan R false s'
               end
           | [] => [x]
           end
  end.

(** No code point is the second of one pair of [dom] and the first of
    another. *)
Fixpoint overlap_free_for (dom : Z -> Z -> bool) (s : str) : bool :=
  match s with
  | x :: s' =>
      match s' with
      | y :: z :: _ => negb (dom x y && dom y z) && overlap_free_for dom s'
      | _ => true
      end
  | [] => true
  end.

(** The three replacements of [reorderSyll] as a rule set. *)
Definition fusion_rules : rules :=
  add_rule (add_rule (add_rule no_rule 0x17C1 0x17B8 0x17BE)
                     0x17B8 0x17C1 0x17BE)
           0x17C1 0x17B6 0x17C4.

(** The pairs the replacements look for: U+17C1 U+17B8, U+17B8 U+17C1 and
    U+17C1 U+17B6. *)
Definition fusable (x y : Z) : bool :=
  ((x =? 0x17C1) && (y =? 0x17B8) || (x =? 0x17B8) && (y =? 0x17C1) ||
   (x =? 0x17C1) && (y =? 0x17B6))%Z.

(** No two occurrences of these pairs share a code point: the text has none
    of U+17C1 U+17B8 U+17C1, U+17B8 U+17C1 U+17B8 and U+17B8 U+17C1 U+17B6. *)
Definition overlap_free (s : str) : bool := overlap_free_for fusable s.

(** ** Readings of [reorderText] *)

(** [reorderText] after its first line: split, reorder, join. *)
Definition reorder_segments (text : str) : str :=
  concat (map reorderSyll (syllables_of text)).

(** A code point of the Khmer block as far as the classes of the source
    use it, U+1780 to U+17DD. *)
Definition in_khmer (c : Z) : bool := in_range 0x1780 0x17DD c.

(** The number of code points of a list of chunks. *)
Definition size (l : list str) : nat := length (concat l).

(** ** Readings of the syllable pattern *)

(** The starred group of [SYLLPAT] with the fuel [scan_SYLLPAT] gives it. *)
Definition syll_tail (s : str) : str * str := match_syll_tail (length s) s.

(** The text goes on with coengs and then a consonant or an independent
    vowel. *)
Fixpoint coeng_ahead (s : str) : bool :=
  match s with
  | x :: s' => if is_COENG x then coeng_ahead s' else CONS_OR_INDEPVOWEL x
  | [] => false
  end.

(** Neither alternative of the starred group matches at the start of the
    text. *)
Definition tail_stop (s : str) : Prop :=
  match_coeng_cluster s = None /\ re_match_class SYLLMARK s = false.

(** The texts the starred group matches entirely: marks and coeng
    clusters. *)
Inductive syll_items : str -> Prop :=
| items_nil : syll_items []
| items_mark x t : SYLLMARK x = true -> syll_items t -> syll_items (x :: t)
| items_cluster ks c t :
    ks <> [] -> forallb is_COENG ks = true -> CONS_OR_INDEPVOWEL c = true ->
    syll_items t -> syll_items (ks ++ c :: t).

(** The chunks of such a text: a coeng cluster, with a register shifter or
    without, or one mark. *)
Inductive item_chunk : str -> Prop :=
| item_cluster ks c :
    ks <> [] -> forallb is_COENG ks = true -> CONS_OR_INDEPVOWEL c = true ->
    item_chunk (ks ++ [c])
| item_cluster_rs ks c r :
    ks <> [] -> forallb is_COENG ks = true -> CONS_OR_INDEPVOWEL c = true ->
    REGSHIFTER r = true -> item_chunk (ks ++ [c; r])
| item_mark x : SYLLMARK x = true -> item_chunk [x].

(** The entries of the joined buckets of such a text. *)
Inductive item_entry : str -> Prop :=
| entry_cluster c : CONS_OR_INDEPVOWEL c = true -> item_entry [COENG; c]
| entry_cluster_rs c r :
    CONS_OR_INDEPVOWEL c = true -> REGSHIFTER r = true ->
    item_entry [COENG; c; r]
| entry_mark x : SYLLMARK x = true -> item_entry [x].

(** A list of chunks that [CHUNKPAT] cuts its concatenation back into: a
    cluster without register shifter is not followed by one. *)
Fixpoint rechunks (l : list str) : Prop :=
  match l with
  | [] => True
  | e :: l' =>
      item_entry e /\
      (length e = 2 -> re_match_class REGSHIFTER (concat l') = false) /\
      rechunks l'
  end.

(** No [a] is directly followed by [b]. *)
Fixpoint no_pair (a b : Z) (s : str) : bool :=
  match s with
  | x :: s' =>
      match s' with
      | y :: _ => negb ((x =? a) && (y =? b))%Z && no_pair a b s'
      | [] => true
      end
  | [] => true
  end.

(** The texts on which one pass of [reorderSyll] is final: the regularized
    text has no coeng directly before RO and no U+17C1, the vowel every
    replacement of [fuse] needs. *)
Definition settled (text : str) : bool :=
  no_pair COENG RO text && negb (existsb (Z.eqb 0x17C1) text).

(** The place of a bucket in the join
    [rs + robat + coeng + dv + nonsp + sp]. *)
Definition class_rank (k : chunk_class) : nat :=
  match k with
  | RegShifter => 0
  | Robat => 1
  | CoengCluster => 2
  | DepVowel => 3
  | NonSpacing => 4
  | Spacing => 5
  end.

Definition rank (c : str) : nat :=
  match class_of c with
  | Some k => class_rank k
  | None => 6
  end.

(** A list of chunks in the order of the join, from rank [lo] on. *)
Fixpoint ranked (lo : nat) (l : list str) : Prop :=
  match l with
  | [] => True
  | e :: l' => lo <= rank e /\ ranked (rank e) l'
  end.

(** ** Readings for further properties *)

(** The table of [regularizeText]: what becomes of one code point. *)
Definition regularize_char (c : Z) : str :=
  if (c =? 0x17A8)%Z then [0x17A7; 0x1780]%Z
  else if (c =? 0x17A3)%Z then [0x17A2%Z]
  else if (c =? 0x17A4)%Z then [0x17A2; 0x17B6]%Z
  else if (c =? 0x17B2)%Z then [0x17B1%Z]
  else if (c =? 0x17B4)%Z then []
  else if (c =? 0x17B5)%Z then []
  else if (c =? 0x17DD)%Z then [0x17D1%Z]
  else if (c =? 0x17D3)%Z then [0x17C6%Z]
  else if (c =? 0x17D8)%Z then [0x17D4; 0x179B; 0x17D4]%Z
  else [c].

(** The text has none of the three pairs the vowel replacements look for. *)
Definition fusion_free (s : str) : bool :=
  no_pair 0x17C1 0x17B8 s && no_pair 0x17B8 0x17C1 s &&
  no_pair 0x17C1 0x17B6 s.

(** A piece of a segmented text: a syllable, that is a consonant or an
    independent vowel with marks and coeng clusters behind it, or a gap
    without consonants and independent vowels. *)
Definition syllable_piece (p : str) : Prop :=
  exists c tl, p = c :: tl /\ CONS_OR_INDEPVOWEL c = true /\ syll_items tl.

Definition gap_piece (p : str) : Prop :=
  Forall (fun x => CONS_OR_INDEPVOWEL x = false) p.

(** ** Readings for the length and for a second pass *)

(** No entry that is not empty is equal to the next one: the duplicate loop
    finds nothing to blank. *)
Fixpoint no_repeat (l : list str) : bool :=
  match l with
  | x :: l' =>
      match l' with
      | y :: _ => negb (nonempty x && str_eqb y x) && no_repeat l'
      | [] => true
      end
  | [] => true
  end.

(** The chunk goes to one of the six buckets. *)
Definition classified (c : str) : bool :=
  match class_of c with Some _ => true | None => false end.

(** [chunks = [base] + rs + robat + coeng + dv + nonsp + sp], the list the
    duplicate loop receives. *)
Definition joined_chunks (syll : str) : list str :=
  let base := firstn 1 syll in
  let b := classify (chunks_of (skipn 1 syll)) in
  [base] ++ rs b ++ robat b ++ ro_loop (coeng b) ++ dv b ++ nonsp b ++ sp b.

(** None of the steps of [reorderSyll] that remove code points applies: every
    chunk has a class, no chunk has two coengs in a row, the duplicate loop
    blanks nothing, and the joined string has none of the three pairs. *)
Definition lossless (syll : str) : bool :=
  if is_real_syll syll then
    forallb classified (chunks_of (skipn 1 syll)) &&
    forallb (no_pair COENG COENG) (chunks_of (skipn 1 syll)) &&
    no_repeat (joined_chunks syll) &&
    fusion_free (reassemble syll)
  else true.

(** A syllable a further pass leaves alone: no chunk is equal to the next
    one, and of the coeng clusters only the last starts with coeng RO. *)
Definition tidy_syll (syll : str) : bool :=
  if is_real_syll syll then
    let chunks := chunks_of (skipn 1 syll) in
    no_repeat chunks &&
    forallb not_COENG_RO (removelast (filter (has_class CoengCluster) chunks))
  else true.

Definition tidy (text : str) : bool := forallb tidy_syll (syllables_of text).
(** * Properties *)

(** Facts about the classes are comparisons of integers. *)
Ltac class_unfold :=
  unfold SYLLMARK, CONS_OR_INDEPVOWEL, CONS, INDEPVOWEL, DEPVOWEL, DIACRITIC,
    REGSHIFTER, ZEROWIDTH, SPACING, NONSPACING, DOT, is_COENG,
    is_RO, is_ROBAT, in_range, COENG, RO, ROBAT in *.

Ltac class_prop :=
  repeat rewrite ?andb_true_iff, ?orb_true_iff, ?andb_false_iff,
    ?orb_false_iff, ?negb_true_iff, ?negb_false_iff, ?Z.eqb_eq, ?Z.eqb_neq,
    ?Z.leb_le, ?Z.leb_gt in *.

Ltac class_lia := class_unfold; class_prop; lia.


Unset Implicit Arguments.

(** ** The backtracking matcher *)

Lemma run_S (f : nat) (r : regex) (s : str) (k : str -> outcome) :
  run (S f) r s k =
  match r with
  | Chr p =>
      match s with
      | c :: s' => if p c then k s' else NoMatch
      | [] => NoMatch
      end
  | Cat r1 r2 => run f r1 s (fun s1 => run f r2 s1 k)
  | Alt r1 r2 =>
      match run f r1 s k with
      | NoMatch => run f r2 s k
      | o => o
      end
  | Star r1 =>
      match run f r1 s (fun s1 => run f (Star r1) s1 k) with
      | NoMatch => k s
      | o => o
      end
  | Plus r1 => run f r1 s (fun s1 => run f (Star r1) s1 k)
  | Opt r1 =>
      match run f r1 s k with
      | NoMatch => k s
      | o => o
      end
  end.
Proof. reflexivity. Qed.

Lemma class_like_Chr (p : Z -> bool) : class_like 1 (Chr p) p.
Proof. intros [|f] s k H; [lia | reflexivity]. Qed.

Lemma class_like_Alt (d1 d2 : nat) (r1 r2 : regex) (p1 p2 : Z -> bool) :
  class_like d1 r1 p1 -> class_like d2 r2 p2 ->
  class_like (S (Nat.max d1 d2)) (Alt r1 r2) (fun c => p1 c || p2 c).
Proof.
  intros H1 H2 [|f] s k H; [lia|]. rewrite run_S.
  rewrite H1, H2 by lia. destruct s as [|c s']; [reflexivity|].
  destruct (p1 c), (p2 c); cbn; try reflexivity; now destruct (k s').
Qed.

Lemma class_like_mono (d d' : nat) (r : regex) (p : Z -> bool) :
  d <= d' -> class_like d r p -> class_like d' r p.
Proof. intros Hd H f s k Hf. apply H. lia. Qed.

Lemma class_like_ext (d : nat) (r : regex) (p p' : Z -> bool) :
  (forall c, p c = p' c) -> class_like d r p -> class_like d r p'.
Proof.
  intros He H f s k Hf. rewrite (H f s k Hf).
  destruct s as [|c s']; [reflexivity|]. now rewrite He.
Qed.

Lemma class_like_CONS_OR_INDEPVOWEL :
  class_like 2 Pattern.CONS_OR_INDEPVOWEL CONS_OR_INDEPVOWEL.
Proof. apply (class_like_Alt 1 1); apply class_like_Chr. Qed.

(** The tests of the source on a chunk or a syllable look at its first
    code points. *)
Lemma re_test_class_like (d : nat) (r : regex) (p : Z -> bool) (c : str) :
  class_like d r p -> d <= 16 -> re_test r c = re_match_class p c.
Proof.
  intros H Hd. unfold re_test, re_match. rewrite H by (unfold re_fuel; lia).
  destruct c as [|x c']; [reflexivity|]. cbn [re_match_class].
  now destruct (p x).
Qed.

Lemma re_test_class (p : Z -> bool) (c : str) :
  re_test (Chr p) c = re_match_class p c.
Proof. apply (re_test_class_like 1); [apply class_like_Chr | lia]. Qed.

Lemma re_test_CONS_OR_INDEPVOWEL (c : str) :
  re_test Pattern.CONS_OR_INDEPVOWEL c = re_match_class CONS_OR_INDEPVOWEL c.
Proof.
  apply (re_test_class_like 2); [apply class_like_CONS_OR_INDEPVOWEL | lia].
Qed.

Lemma re_test_COENG_RO (c : str) :
  re_test Pattern.COENG_RO c = re_match_COENG_RO c.
Proof.
  unfold re_test, re_match, re_fuel, Pattern.COENG_RO.
  replace (2 * length c + 16) with (S (S (2 * length c + 14))) by lia.
  rewrite run_S. unfold Pattern.COENG, Pattern.RO. rewrite run_S.
  destruct c as [|k [|r c']]; cbn [re_match_COENG_RO].
  - reflexivity.
  - destruct (is_COENG k); [|reflexivity]. now rewrite run_S.
  - destruct (is_COENG k); [|reflexivity]. rewrite run_S.
    now destruct (is_RO r).
Qed.

Lemma is_real_syll_class (syll : str) :
  is_real_syll syll =
  (1 <? length syll) && re_match_class CONS_OR_INDEPVOWEL syll.
Proof. unfold is_real_syll. now rewrite re_test_CONS_OR_INDEPVOWEL. Qed.

Set Implicit Arguments.

(** ** [str.replace] *)

Section Replace.

Variables (old new : str).

Lemma starts_with_1 (a : Z) (c : Z) (s : str) :
  starts_with [a] (c :: s) = (a =? c)%Z.
Proof. simpl. apply andb_true_r. Qed.

Lemma starts_with_2 (a b x y : Z) (s : str) :
  starts_with [a; b] (x :: y :: s) = ((a =? x) && (b =? y))%Z.
Proof. simpl. now rewrite andb_true_r. Qed.

End Replace.

(** Replacing a single code point is a [flat_map]. *)
Lemma str_replace_1 (a : Z) (new s : str) :
  str_replace [a] new s =
  flat_map (fun c => if (a =? c)%Z then new else [c]) s.
Proof.
  unfold str_replace.
  induction s as [|c s IH]; [reflexivity|].
  cbn [replace_from flat_map]. rewrite starts_with_1.
  destruct (a =? c)%Z; cbn [length Nat.sub app]; now rewrite IH.
Qed.

(** The equations of the replacement of a pair of code points. *)
Lemma str_replace_2_nil (a b : Z) (new : str) : str_replace [a; b] new [] = [].
Proof. reflexivity. Qed.

Lemma str_replace_2_one (a b : Z) (new : str) (x : Z) :
  str_replace [a; b] new [x] = [x].
Proof. unfold str_replace. cbn. now rewrite andb_false_r. Qed.

Lemma str_replace_2_cons (a b : Z) (new : str) (x y : Z) (s : str) :
  str_replace [a; b] new (x :: y :: s) =
  if ((a =? x) && (b =? y))%Z then new ++ str_replace [a; b] new s
  else x :: str_replace [a; b] new (y :: s).
Proof.
  unfold str_replace. cbn [replace_from]. rewrite starts_with_2.
  destruct ((a =? x) && (b =? y))%Z; reflexivity.
Qed.

(** ** [regularizeText] *)

Lemma avoids_snoc (l : list Z) (a c : Z) :
  avoids (l ++ [a]) c = avoids l c && negb (c =? a)%Z.
Proof.
  unfold avoids. rewrite existsb_app. cbn. rewrite orb_false_r.
  now rewrite negb_orb.
Qed.

(** One replacement step: if the text avoids the sources handled so far and
    the replacement avoids these and the new source, so does the result. *)
Lemma str_replace_1_avoids (l : list Z) (a : Z) (new s : str) :
  forallb (avoids (l ++ [a])) new = true ->
  forallb (avoids l) s = true ->
  forallb (avoids (l ++ [a])) (str_replace [a] new s) = true.
Proof.
  intros Hnew Hs. rewrite str_replace_1.
  induction s as [|c s IH]; [reflexivity|].
  cbn [forallb] in Hs. apply andb_prop in Hs as [Hc Hs].
  specialize (IH Hs).
  change (forallb (avoids (l ++ [a]))
            ((if (a =? c)%Z then new else [c]) ++
             flat_map (fun c => if (a =? c)%Z then new else [c]) s) = true).
  rewrite forallb_app, IH, andb_true_r.
  destruct (a =? c)%Z eqn:E; [exact Hnew|].
  cbn [forallb]. rewrite andb_true_r, avoids_snoc, Hc. cbn.
  now rewrite Z.eqb_sym, E.
Qed.

(** C3, as the source has it: the replacement of U+17D8 is U+17D4 U+179B
    U+17D4 (the middle code point is the letter LO, U+179B). *)
Theorem regularize_17D8 :
  regularizeText [0x17D8%Z] = [0x17D4%Z; 0x179B%Z; 0x17D4%Z].
Proof. reflexivity. Qed.

(** C3, as the claim states it, fails: the result is not U+17D4 U+17BB
    U+17D4. *)
Lemma regularize_17D8_not_17BB :
  regularizeText [0x17D8%Z] <> [0x17D4%Z; 0x17BB%Z; 0x17D4%Z].
Proof. vm_compute. discriminate. Qed.

Lemma regularizeText_avoids (text : str) :
  forallb (avoids regularize_sources) (regularizeText text) = true.
Proof.
  unfold regularizeText, regularize_sources.
  repeat match goal with
  | |- forallb (avoids [?a]) (str_replace [?a] ?n ?s) = true =>
      apply (@str_replace_1_avoids [] a n s); [reflexivity|]
  | |- forallb (avoids ?l) (str_replace [?a] ?n ?s) = true =>
      let l' := constr:(removelast l) in
      let l'' := eval cbv [removelast] in l' in
      apply (@str_replace_1_avoids l'' a n s); [reflexivity|]
  end.
  apply forallb_forall. reflexivity.
Qed.

Lemma regularizeText_not_source (text : str) (c : Z) :
  In c (regularizeText text) -> is_source c = false.
Proof.
  intros Hin. pose proof (regularizeText_avoids text) as H.
  rewrite forallb_forall in H. specialize (H c Hin).
  unfold avoids in H. apply negb_true_iff in H. exact H.
Qed.

(** C10: the output of [regularizeText] contains none of the nine code
    points it replaces or deletes. *)
Theorem regularize_no_source (text : str) :
  forallb (fun c => negb (is_source c)) (regularizeText text) = true.
Proof. exact (regularizeText_avoids text). Qed.

(** ** Lists updated in place *)

Section ListSet.

Variable A : Type.
Implicit Types (l pre post : list A) (x y d : A).

Lemma list_set_middle pre x y post :
  list_set (length pre) y (pre ++ x :: post) = pre ++ y :: post.
Proof. induction pre as [|a pre IH]; cbn; [reflexivity | now rewrite IH]. Qed.

Lemma nth_middle' pre x post d : nth (length pre) (pre ++ x :: post) d = x.
Proof. induction pre as [|a pre IH]; cbn; [reflexivity | exact IH]. Qed.

Lemma list_set_length i x l : length (list_set i x l) = length l.
Proof.
  revert i; induction l as [|a l IH]; intros [|i]; cbn; auto.
Qed.

End ListSet.

Lemma str_eqb_eq (a b : str) : str_eqb a b = true <-> a = b.
Proof.
  revert b; induction a as [|x a IH]; intros [|y b]; cbn; try easy.
  rewrite andb_true_iff, Z.eqb_eq, IH. split.
  - now intros [-> ->].
  - intros H; injection H; auto.
Qed.

Lemma str_eqb_refl (a : str) : str_eqb a a = true.
Proof. now apply str_eqb_eq. Qed.

Lemma str_eqb_neq (a b : str) : str_eqb a b = false <-> a <> b.
Proof.
  rewrite <- str_eqb_eq. destruct (str_eqb a b); split; congruence.
Qed.

(** ** The duplicate loop *)

Lemma dedup_loop_from (pre : list str) (x : str) (l : list str) :
  fold_left dedup_step (seq (S (length pre)) (length l)) (pre ++ x :: l) =
  pre ++ dedup_adjacent (x :: l).
Proof.
  revert pre x; induction l as [|y l IH]; intros pre x; [reflexivity|].
  cbn [length seq fold_left].
  assert (Hstep : dedup_step (pre ++ x :: y :: l) (S (length pre)) =
                  (pre ++ [if str_eqb y x then [] else x]) ++ y :: l).
  { unfold dedup_step.
    replace (S (length pre) - 1) with (length pre) by lia.
    rewrite nth_middle'.
    replace (S (length pre)) with (length (pre ++ [x]))
      by (rewrite length_app; cbn; lia).
    replace (pre ++ x :: y :: l) with ((pre ++ [x]) ++ y :: l)
      by (now rewrite <- app_assoc).
    rewrite nth_middle'. rewrite <- !app_assoc. cbn [app].
    destruct (str_eqb y x); [|reflexivity].
    now rewrite list_set_middle. }
  rewrite Hstep.
  replace (S (S (length pre)))
    with (S (length (pre ++ [if str_eqb y x then [] else x])))
    by (rewrite length_app; cbn; lia).
  rewrite IH. rewrite <- app_assoc. reflexivity.
Qed.

(** The loop of [reorderSyll] computes [dedup_adjacent]. *)
Lemma dedup_loop_spec (l : list str) : dedup_loop l = dedup_adjacent l.
Proof.
  unfold dedup_loop. destruct l as [|x l]; [reflexivity|].
  cbn [length]. replace (S (length l) - 1) with (length l) by lia.
  exact (dedup_loop_from [] x l).
Qed.

(** ** The RO loop *)

Lemma re_match_COENG_RO_nonempty (c : str) :
  nonempty c && re_match_COENG_RO c = re_match_COENG_RO c.
Proof. now destruct c. Qed.

Lemma ro_loop_from (pre mid post moved : list str) :
  post <> [] ->
  fold_left ro_step (seq (length pre) (length mid)) (pre ++ mid ++ post ++ moved) =
  pre ++ map ro_blank mid ++ post ++ moved ++ filter re_match_COENG_RO mid.
Proof.
  intros Hpost.
  revert pre moved; induction mid as [|x mid IH]; intros pre moved.
  - cbn. now rewrite app_nil_r.
  - cbn [length seq fold_left].
    assert (Hstep : ro_step (pre ++ (x :: mid) ++ post ++ moved) (length pre) =
              (pre ++ [ro_blank x]) ++ mid ++ post ++
              (moved ++ if re_match_COENG_RO x then [x] else [])).
    { unfold ro_step. cbn [app]. rewrite nth_middle', re_test_COENG_RO.
      rewrite re_match_COENG_RO_nonempty. unfold ro_blank.
      destruct (re_match_COENG_RO x).
      - rewrite <- (app_assoc pre). cbn [app].
        rewrite list_set_middle. now rewrite <- !app_assoc.
      - now rewrite <- !app_assoc, app_nil_r. }
    rewrite Hstep.
    replace (S (length pre)) with (length (pre ++ [ro_blank x]))
      by (rewrite length_app; cbn; lia).
    rewrite IH. rewrite <- !app_assoc. cbn [app map filter].
    destruct (re_match_COENG_RO x); reflexivity.
Qed.

(** The loop of [reorderSyll] computes [ro_moved]. *)
Lemma ro_loop_spec (l : list str) : ro_loop l = ro_moved l.
Proof.
  unfold ro_loop, ro_moved.
  destruct (Nat.eq_dec (length l) 0) as [E|E].
  - destruct l; [reflexivity | discriminate].
  - set (n := length l - 1).
    assert (Hn : n < length l) by (unfold n; lia).
    assert (Hlen : length (firstn n l) = n) by (rewrite length_firstn; lia).
    assert (Hpost : skipn n l <> []).
    { intros H. apply (f_equal (@length _)) in H.
      rewrite length_skipn in H. cbn in H. lia. }
    pose proof (@ro_loop_from [] (firstn n l) (skipn n l) [] Hpost) as H.
    rewrite Hlen, app_nil_r in H. cbn [app length] in H.
    rewrite firstn_skipn in H. exact H.
Qed.

(** Induction on the length of a list. *)
Lemma length_ind (A : Type) (P : list A -> Prop) :
  (forall s, (forall t, length t < length s -> P t) -> P s) ->
  forall s, P s.
Proof.
  intros H s. remember (length s) as n eqn:E. revert s E.
  induction n as [n IH] using lt_wf_ind. intros s ->.
  apply H. intros t Ht. exact (IH _ Ht t eq_refl).
Qed.

(** ** [re.split] *)

Section ReSplit.

Variable m : matcher.

Hypothesis m_sound : sound_matcher m.

Local Abbreviation split_gap := (split_gap m).

Lemma sound_matcher_length s a b : m s = Some (a, b) -> length b < length s.
Proof.
  intros H. apply m_sound in H as [Ha ->]. rewrite length_app.
  destruct a; [congruence | cbn; lia].
Qed.

(** Splitting loses nothing, whatever the fuel. *)
Lemma re_split_from_concat fuel gap s :
  concat (re_split_from m fuel gap s) = gap ++ s.
Proof.
  revert gap s; induction fuel as [|f IH]; intros gap s; cbn.
  - now rewrite app_nil_r.
  - destruct s as [|c s']; [cbn; now rewrite app_nil_r|].
    destruct (m (c :: s')) as [[mt rest]|] eqn:E.
    + cbn. rewrite IH. cbn. apply m_sound in E as [_ ->]. reflexivity.
    + rewrite IH. now rewrite <- app_assoc.
Qed.

(** More fuel than code points is always enough. *)
Lemma re_split_from_fuel f1 f2 gap s :
  length s < f1 -> length s < f2 ->
  re_split_from m f1 gap s = re_split_from m f2 gap s.
Proof.
  revert f2 gap s; induction f1 as [|f1 IH]; intros f2 gap s H1 H2; [lia|].
  destruct f2 as [|f2]; [lia|]. cbn.
  destruct s as [|c s']; [reflexivity|]. cbn in H1, H2.
  destruct (m (c :: s')) as [[mt rest]|] eqn:E.
  - pose proof (sound_matcher_length E) as Hl. cbn in Hl.
    do 2 f_equal. apply IH; lia.
  - apply IH; lia.
Qed.

Lemma re_split_from_S f gap s :
  re_split_from m (S f) gap s =
  match s with
  | [] => [gap]
  | c :: s' =>
      match m s with
      | Some (mt, rest) => gap :: mt :: re_split_from m f [] rest
      | None => re_split_from m f (gap ++ [c]) s'
      end
  end.
Proof. reflexivity. Qed.

(** The equations of [split_gap]. *)
Lemma re_split_split_gap s : re_split m s = split_gap [] s.
Proof. reflexivity. Qed.

Lemma split_gap_nil gap : split_gap gap [] = [gap].
Proof. reflexivity. Qed.

Lemma split_gap_match gap s mt rest :
  m s = Some (mt, rest) -> split_gap gap s = gap :: mt :: split_gap [] rest.
Proof.
  intros E. unfold split_gap. destruct s as [|c s'].
  - apply m_sound in E as [Ha Hs]. destruct mt; [congruence | discriminate].
  - change (length (c :: s')) with (S (length s')).
    rewrite re_split_from_S, E. do 2 f_equal.
    pose proof (sound_matcher_length E) as Hl. cbn in Hl.
    apply re_split_from_fuel; lia.
Qed.

Lemma split_gap_skip gap c s :
  m (c :: s) = None -> split_gap gap (c :: s) = split_gap (gap ++ [c]) s.
Proof.
  intros E. unfold split_gap. change (length (c :: s)) with (S (length s)).
  now rewrite re_split_from_S, E.
Qed.

Lemma split_gap_concat gap s : concat (split_gap gap s) = gap ++ s.
Proof. apply re_split_from_concat. Qed.

(** The pieces are matches or runs of code points at which nothing matched. *)
Lemma split_gap_pieces (P : str -> Prop) (Q : Z -> Prop) :
  (forall s a b, m s = Some (a, b) -> P a) ->
  (forall c s, m (c :: s) = None -> Q c) ->
  forall s gap, Forall Q gap ->
  Forall (fun x => P x \/ Forall Q x) (split_gap gap s).
Proof.
  intros HP HQ s.
  induction s as [s IH] using length_ind.
  intros gap Hgap. destruct s as [|c s'].
  - rewrite split_gap_nil. constructor; auto.
  - destruct (m (c :: s')) as [[mt rest]|] eqn:E.
    + rewrite (split_gap_match _ E).
      constructor; [now right|]. constructor; [left; eapply HP; eauto|].
      apply IH; [|constructor].
      apply (sound_matcher_length E).
    + rewrite (split_gap_skip _ E). apply IH; [cbn; lia|].
      apply Forall_app; split; [assumption|].
      constructor; [eapply HQ; eauto | constructor].
Qed.

End ReSplit.

Lemma concat_filter_nonempty (A : Type) (l : list (list A)) :
  concat (filter (@nonempty A) l) = concat l.
Proof.
  induction l as [|[|x a] l IH]; cbn; [reflexivity | exact IH | now rewrite IH].
Qed.

(** ** The matchers *)

Lemma span_app (p : Z -> bool) (s : str) : fst (span p s) ++ snd (span p s) = s.
Proof.
  induction s as [|c s IH]; [reflexivity|]. cbn.
  destruct (p c); [|reflexivity].
  destruct (span p s) as [a b]. cbn in *. now rewrite IH.
Qed.

Lemma span_all (p : Z -> bool) (s : str) : forallb p (fst (span p s)) = true.
Proof.
  induction s as [|c s IH]; [reflexivity|]. cbn.
  destruct (p c) eqn:E; [|reflexivity].
  destruct (span p s) as [a b]. cbn in *. now rewrite E, IH.
Qed.

Lemma span_stop (p : Z -> bool) (s : str) :
  re_match_class p (snd (span p s)) = false.
Proof.
  induction s as [|c s IH]; [reflexivity|]. cbn.
  destruct (p c) eqn:E; [|cbn; exact E].
  destruct (span p s) as [a b]. exact IH.
Qed.

(** A span of a text that starts outside the class is empty, and a span of
    a text that starts inside it takes the first code point. *)
Lemma span_cons (p : Z -> bool) (c : Z) (s : str) :
  span p (c :: s) =
  if p c then (c :: fst (span p s), snd (span p s)) else ([], c :: s).
Proof. cbn. destruct (p c); [|reflexivity]. now destruct (span p s). Qed.

(** What a coeng cluster looks like. *)
Lemma match_coeng_cluster_inv (s a b : str) :
  match_coeng_cluster s = Some (a, b) ->
  exists ks c, a = ks ++ [c] /\ s = ks ++ c :: b /\ ks <> [] /\
               forallb is_COENG ks = true /\ CONS_OR_INDEPVOWEL c = true.
Proof.
  unfold match_coeng_cluster.
  pose proof (span_app is_COENG s) as Happ.
  pose proof (span_all is_COENG s) as Hall.
  destruct (span is_COENG s) as [ks r]. cbn in Happ, Hall.
  destruct ks as [|k ks]; [discriminate|].
  destruct r as [|c r]; [discriminate|].
  destruct (CONS_OR_INDEPVOWEL c) eqn:E; [|discriminate].
  intros H; injection H as <- <-. exists (k :: ks), c.
  repeat split; auto. discriminate.
Qed.

Lemma match_coeng_cluster_sound : sound_matcher match_coeng_cluster.
Proof.
  intros s a b H. apply match_coeng_cluster_inv in H
    as (ks & c & -> & -> & Hks & _). split.
  - destruct ks; [congruence | discriminate].
  - now rewrite <- app_assoc.
Qed.

Lemma scan_CHUNKPAT_sound : sound_matcher scan_CHUNKPAT.
Proof.
  intros s a b. unfold scan_CHUNKPAT.
  destruct (match_coeng_cluster s) as [[m r]|] eqn:E.
  - apply match_coeng_cluster_sound in E as [Hm ->].
    destruct r as [|c r'].
    + intros H; injection H as <- <-. auto.
    + destruct (REGSHIFTER c); intros H; injection H as <- <-.
      * split; [destruct m; [congruence | discriminate]|].
        now rewrite <- app_assoc.
      * auto.
  - destruct s as [|c s']; [discriminate|].
    destruct (DOT c); [|discriminate].
    intros H; injection H as <- <-. split; [discriminate | reflexivity].
Qed.

Lemma match_syll_tail_app (fuel : nat) (s : str) :
  fst (match_syll_tail fuel s) ++ snd (match_syll_tail fuel s) = s.
Proof.
  revert s; induction fuel as [|f IH]; intros s; [reflexivity|].
  cbn [match_syll_tail].
  destruct (match_coeng_cluster s) as [[m r]|] eqn:E.
  - apply match_coeng_cluster_sound in E as [_ ->].
    specialize (IH r). destruct (match_syll_tail f r) as [m' r']. cbn in *.
    now rewrite <- app_assoc, IH.
  - pose proof (span_app SYLLMARK s) as Happ.
    destruct (span SYLLMARK s) as [[|x m] r]; [reflexivity|].
    specialize (IH r). destruct (match_syll_tail f r) as [m' r'].
    cbn [fst snd] in *. rewrite <- app_assoc, IH. exact Happ.
Qed.

Lemma scan_SYLLPAT_sound : sound_matcher scan_SYLLPAT.
Proof.
  intros s a b. unfold scan_SYLLPAT.
  destruct s as [|c s']; [discriminate|].
  destruct (CONS_OR_INDEPVOWEL c); [|discriminate].
  pose proof (match_syll_tail_app (length s') s') as Happ.
  destruct (match_syll_tail (length s') s') as [m r]. cbn in Happ.
  intros H; injection H as <- <-. split; [discriminate|].
  cbn. now rewrite Happ.
Qed.

Unset Implicit Arguments.

(** ** The starred group of the syllable pattern *)

Lemma match_syll_tail_fuel (f1 f2 : nat) (s : str) :
  length s <= f1 -> length s <= f2 ->
  match_syll_tail f1 s = match_syll_tail f2 s.
Proof.
  revert f2 s; induction f1 as [|f1 IH]; intros f2 s H1 H2.
  - destruct s; [|cbn in H1; lia]. destruct f2; reflexivity.
  - destruct f2 as [|f2].
    + destruct s; [reflexivity | cbn in H2; lia].
    + cbn [match_syll_tail].
      destruct (match_coeng_cluster s) as [[m r]|] eqn:E.
      * pose proof (@sound_matcher_length _ match_coeng_cluster_sound _ _ _ E) as Hl.
        rewrite (IH f2 r) by lia. reflexivity.
      * pose proof (span_app SYLLMARK s) as Happ.
        destruct (span SYLLMARK s) as [[|x m] r]; [reflexivity|].
        cbn [fst snd] in Happ. apply (f_equal (@length Z)) in Happ.
        rewrite length_app in Happ. cbn in Happ.
        rewrite (IH f2 r) by lia. reflexivity.
Qed.

Lemma syll_tail_nil : syll_tail [] = ([], []).
Proof. reflexivity. Qed.

Lemma syll_tail_cluster (s m r : str) :
  match_coeng_cluster s = Some (m, r) ->
  syll_tail s = (m ++ fst (syll_tail r), snd (syll_tail r)).
Proof.
  intros E. unfold syll_tail.
  pose proof (@sound_matcher_length _ match_coeng_cluster_sound _ _ _ E) as Hl.
  destruct (length s) as [|n] eqn:En; [lia|].
  cbn [match_syll_tail]. rewrite E.
  rewrite (@match_syll_tail_fuel n (length r) r) by lia.
  now destruct (match_syll_tail (length r) r).
Qed.

Lemma syll_tail_run (s m r : str) :
  match_coeng_cluster s = None -> span SYLLMARK s = (m, r) -> m <> [] ->
  syll_tail s = (m ++ fst (syll_tail r), snd (syll_tail r)).
Proof.
  intros E Hspan Hm. unfold syll_tail.
  pose proof (span_app SYLLMARK s) as Happ. rewrite Hspan in Happ.
  cbn [fst snd] in Happ. apply (f_equal (@length Z)) in Happ.
  rewrite length_app in Happ.
  destruct m as [|x m]; [congruence|]. cbn [length] in Happ.
  destruct (length s) as [|n] eqn:En; [lia|].
  cbn [match_syll_tail]. rewrite E, Hspan.
  rewrite (@match_syll_tail_fuel n (length r) r) by lia.
  now destruct (match_syll_tail (length r) r).
Qed.

Lemma syll_tail_stop (s : str) : tail_stop s -> syll_tail s = ([], s).
Proof.
  intros [E Hm]. unfold syll_tail. destruct (length s) as [|n]; [reflexivity|].
  cbn [match_syll_tail]. rewrite E.
  destruct s as [|x s]; [reflexivity|]. cbn in Hm.
  rewrite span_cons, Hm. reflexivity.
Qed.


(** ** The matcher on the patterns of the source *)

(** A greedy repetition of a class takes the whole run when what follows
    the run succeeds, and also when what follows fails wherever a code point
    of the class comes next. *)
Section ClassRepeat.

Variables (d : nat) (r : regex) (p : Z -> bool).
Hypothesis r_class : class_like d r p.

Variable k : str -> outcome.

Lemma settles_tail (c : Z) (s : str) :
  p c = true -> settles p k (c :: s) -> settles p k s.
Proof. unfold settles. rewrite span_cons. intros ->. auto. Qed.

Lemma run_Star_class (s : str) (f : nat) :
  length (fst (span p s)) + d + 1 <= f -> settles p k s ->
  run f (Star r) s k = k (snd (span p s)).
Proof.
  revert f. induction s as [|c s IH]; intros f Hf Hk.
  - destruct f as [|f]; [lia|]. rewrite run_S, r_class by lia. reflexivity.
  - destruct f as [|f]; [lia|]. rewrite run_S, r_class by lia.
    rewrite span_cons in *. destruct (p c) eqn:Hc.
    + cbn [fst snd length] in *.
      rewrite IH by (try lia; now apply (settles_tail c)).
      destruct (k (snd (span p s))) eqn:Ek; try reflexivity.
      destruct Hk as [Hk|Hk]; [|now apply Hk].
      rewrite span_cons, Hc in Hk. cbn in Hk. congruence.
    + reflexivity.
Qed.

Lemma run_Plus_class (s : str) (f : nat) :
  length (fst (span p s)) + d + 1 <= f -> settles p k s ->
  run f (Plus r) s k =
  if nonempty (fst (span p s)) then k (snd (span p s)) else NoMatch.
Proof.
  intros Hf Hk. destruct f as [|f]; [lia|]. rewrite run_S, r_class by lia.
  destruct s as [|c s]; [reflexivity|]. rewrite span_cons in *.
  destruct (p c) eqn:Hc; [|reflexivity]. cbn [fst snd length nonempty] in *.
  apply run_Star_class; [lia | now apply (settles_tail c)].
Qed.

Lemma run_Plus_class_none (s : str) (f : nat) :
  d + 1 <= f -> fst (span p s) = [] -> run f (Plus r) s k = NoMatch.
Proof.
  intros Hf He. destruct f as [|f]; [lia|]. rewrite run_S, r_class by lia.
  destruct s as [|c s]; [reflexivity|]. rewrite span_cons in He.
  destruct (p c); [discriminate | reflexivity].
Qed.

End ClassRepeat.

Lemma class_like_SYLLMARK :
  class_like 3 (Alt (Chr DEPVOWEL) (Alt (Chr DIACRITIC) (Chr ZEROWIDTH)))
             SYLLMARK.
Proof.
  apply (class_like_ext 3 _ (fun c => DEPVOWEL c || (DIACRITIC c || ZEROWIDTH c))).
  - intros c. unfold SYLLMARK. now rewrite orb_assoc.
  - apply (class_like_Alt 1 2); [apply class_like_Chr|].
    apply (class_like_Alt 1 1); apply class_like_Chr.
Qed.

Lemma span_length (p : Z -> bool) (s : str) :
  length (fst (span p s)) + length (snd (span p s)) = length s.
Proof. rewrite <- length_app. now rewrite span_app. Qed.

(** [COENG+] before a pattern that starts with a consonant or an
    independent vowel: the run of coengs is taken as a whole. *)
Lemma run_coengs (f : nat) (s : str) (k : str -> outcome) :
  length s + 2 <= f ->
  (forall c s', is_COENG c = true -> k (c :: s') = NoMatch) ->
  run f (Plus (Chr is_COENG)) s k =
  if nonempty (fst (span is_COENG s)) then k (snd (span is_COENG s))
  else NoMatch.
Proof.
  intros Hf Hk. apply (run_Plus_class 1 _ _ (class_like_Chr is_COENG)).
  - pose proof (span_length is_COENG s). lia.
  - now right.
Qed.

Lemma run_coeng_cluster (f : nat) (s : str) (k : str -> outcome) :
  length s + 5 <= f ->
  run f (Cat (Plus (Chr is_COENG)) Pattern.CONS_OR_INDEPVOWEL) s k =
  match match_coeng_cluster s with
  | Some (_, rest) => k rest
  | None => NoMatch
  end.
Proof.
  intros Hf. destruct f as [|f]; [lia|]. rewrite run_S.
  rewrite run_coengs.
  - unfold match_coeng_cluster. destruct (span is_COENG s) as [ks r].
    cbn [fst snd]. rewrite class_like_CONS_OR_INDEPVOWEL by lia.
    destruct ks as [|x ks]; [reflexivity|]. cbn [nonempty].
    destruct r as [|c r']; [reflexivity|].
    now destruct (CONS_OR_INDEPVOWEL c).
  - lia.
  - intros c s' Hc. rewrite class_like_CONS_OR_INDEPVOWEL by lia.
    replace (CONS_OR_INDEPVOWEL c) with false by (symmetry; class_lia).
    reflexivity.
Qed.

(** The matcher on [CHUNKPAT] finds what [scan_CHUNKPAT] finds, and does
    not run out of fuel. *)
Lemma run_CHUNKPAT (f : nat) (s : str) :
  length s + 8 <= f ->
  run f Pattern.CHUNKPAT s Matched = outcome_of (scan_CHUNKPAT s).
Proof.
  intros Hf. unfold Pattern.CHUNKPAT, scan_CHUNKPAT, match_coeng_cluster.
  unfold Pattern.COENG, Pattern.REGSHIFTER.
  destruct f as [|f]; [lia|]. rewrite run_S.
  destruct f as [|f]; [lia|]. rewrite (run_S f (Cat _ _)).
  assert (Htail : forall s1,
    run f (Cat Pattern.CONS_OR_INDEPVOWEL (Opt (Chr REGSHIFTER))) s1 Matched =
    match s1 with
    | c :: s2 =>
        if CONS_OR_INDEPVOWEL c then
          match s2 with
          | r :: s3 => if REGSHIFTER r then Matched s3 else Matched s2
          | [] => Matched s2
          end
        else NoMatch
    | [] => NoMatch
    end).
  { intros s1. destruct f as [|f]; [lia|]. rewrite run_S.
    rewrite class_like_CONS_OR_INDEPVOWEL by lia.
    destruct s1 as [|c s2]; [reflexivity|].
    destruct (CONS_OR_INDEPVOWEL c); [|reflexivity].
    destruct f as [|f]; [lia|]. rewrite run_S.
    rewrite (class_like_Chr REGSHIFTER) by lia.
    destruct s2 as [|r s3]; [reflexivity|]. now destruct (REGSHIFTER r). }
  rewrite run_coengs.
  - rewrite Htail. destruct (span is_COENG s) as [ks r] eqn:Hspan.
    cbn [fst snd].
    assert (Hdot : run (S f) (Chr DOT) s Matched =
                   outcome_of match s with
                              | c :: s' => if DOT c then Some ([c], s') else None
                              | [] => None
                              end).
    { rewrite run_S. destruct s as [|c s']; [reflexivity|].
      now destruct (DOT c). }
    destruct ks as [|x ks]; [exact Hdot|]. cbn [nonempty].
    destruct r as [|c r']; [exact Hdot|].
    destruct (CONS_OR_INDEPVOWEL c); [|exact Hdot].
    destruct r' as [|r0 r'']; [reflexivity|]. now destruct (REGSHIFTER r0).
  - lia.
  - intros c s' Hc. rewrite Htail.
    replace (CONS_OR_INDEPVOWEL c) with false by (symmetry; class_lia).
    reflexivity.
Qed.

(** The starred group of [SYLLPAT]: the matcher stops where [syll_tail]
    stops, when what follows the group cannot fail. *)
Lemma run_syll_star (s : str) :
  forall (f : nat) (k : str -> outcome),
  (forall x, k x <> NoMatch) -> 2 * length s + 8 <= f ->
  run f (Star (Alt (Cat (Plus (Chr is_COENG)) Pattern.CONS_OR_INDEPVOWEL)
                   (Plus (Alt (Chr DEPVOWEL)
                              (Alt (Chr DIACRITIC) (Chr ZEROWIDTH))))))
      s k =
  k (snd (syll_tail s)).
Proof.
  induction s as [s IH] using length_ind. intros f k Hk Hf.
  destruct f as [|f]; [lia|]. rewrite run_S.
  destruct f as [|f]; [lia|]. rewrite (run_S f (Alt _ _)).
  rewrite run_coeng_cluster by lia.
  destruct (match_coeng_cluster s) as [[m r]|] eqn:E.
  - pose proof (@sound_matcher_length _ match_coeng_cluster_sound _ _ _ E)
      as Hl.
    rewrite (syll_tail_cluster s m r E). cbn [snd].
    rewrite IH by (auto; lia).
    specialize (Hk (snd (syll_tail r))).
    now destruct (k (snd (syll_tail r))).
  - destruct (span SYLLMARK s) as [a b] eqn:Hspan.
    pose proof (span_length SYLLMARK s) as Hlen. rewrite Hspan in Hlen.
    cbn [fst snd] in Hlen.
    destruct a as [|x a].
    + assert (Hstop : tail_stop s).
      { split; [exact E|]. pose proof (span_stop SYLLMARK s) as Hs.
        pose proof (span_app SYLLMARK s) as Ha. rewrite Hspan in Hs, Ha.
        cbn in Hs, Ha. now subst b. }
      rewrite (syll_tail_stop s Hstop). cbn [snd].
      rewrite (run_Plus_class_none 3 _ _ class_like_SYLLMARK);
        [reflexivity | lia | now rewrite Hspan].
    + cbn [length] in Hlen.
      assert (Hb : run (S f) (Star (Alt (Cat (Plus (Chr is_COENG))
                     Pattern.CONS_OR_INDEPVOWEL)
                     (Plus (Alt (Chr DEPVOWEL)
                        (Alt (Chr DIACRITIC) (Chr ZEROWIDTH)))))) b k =
                   k (snd (syll_tail b))) by (apply IH; auto; lia).
      rewrite (run_Plus_class 3 _ _ class_like_SYLLMARK).
      * rewrite Hspan. cbn [fst snd nonempty]. rewrite Hb.
        rewrite (syll_tail_run s (x :: a) b E Hspan) by discriminate.
        cbn [snd]. specialize (Hk (snd (syll_tail b))).
        now destruct (k (snd (syll_tail b))).
      * rewrite Hspan. cbn [fst length]. lia.
      * left. rewrite Hspan. cbn [snd]. rewrite Hb. apply Hk.
Qed.

(** The matcher on [SYLLPAT] finds what [scan_SYLLPAT] finds, and does
    not run out of fuel. *)
Lemma run_SYLLPAT (f : nat) (s : str) :
  2 * length s + 10 <= f ->
  run f Pattern.SYLLPAT s Matched = outcome_of (scan_SYLLPAT s).
Proof.
  intros Hf. unfold Pattern.SYLLPAT, scan_SYLLPAT.
  unfold Pattern.COENG, Pattern.DEPVOWEL, Pattern.DIACRITIC, Pattern.ZEROWIDTH.
  destruct f as [|f]; [lia|]. rewrite run_S.
  rewrite class_like_CONS_OR_INDEPVOWEL by lia.
  destruct s as [|c s']; [reflexivity|].
  destruct (CONS_OR_INDEPVOWEL c); [|reflexivity].
  rewrite run_syll_star; [|discriminate|cbn [length] in Hf; lia].
  fold (syll_tail s'). now destruct (syll_tail s').
Qed.

Lemma re_match_scan (r : regex) (scan : matcher) :
  sound_matcher scan ->
  (forall s, run (re_fuel s) r s Matched = outcome_of (scan s)) ->
  forall s, re_match r s = scan s.
Proof.
  intros Hsound Hrun s. unfold re_match. rewrite Hrun.
  destruct (scan s) as [[a b]|] eqn:E; [|reflexivity]. cbn [outcome_of].
  apply Hsound in E as [_ ->]. rewrite length_app.
  replace (length a + length b - length b) with (length a) by lia.
  now rewrite firstn_app, Nat.sub_diag, firstn_all, app_nil_r.
Qed.

Lemma collapse_coeng_run (ks r : str) :
  ks <> [] -> forallb is_COENG ks = true -> re_match_class is_COENG r = false ->
  collapse_coeng (ks ++ r) = COENG :: collapse_coeng r.
Proof.
  induction ks as [|k ks IH]; [congruence|]. intros _ Hall Hr.
  cbn in Hall. apply andb_prop in Hall as [Hk Hall].
  cbn [app collapse_coeng]. rewrite Hk.
  destruct ks as [|k' ks].
  - cbn [app]. destruct r as [|x r]; [reflexivity|]. cbn in Hr. now rewrite Hr.
  - cbn [app]. cbn in Hall. apply andb_prop in Hall as [Hk' Hall].
    rewrite Hk'. apply IH; [discriminate | cbn; now rewrite Hk' | exact Hr].
Qed.

(** [COENG+] on its own takes the run of coengs. *)
Lemma re_match_coengs (s : str) :
  re_match (Plus Pattern.COENG) s =
  if nonempty (fst (span is_COENG s)) then Some (span is_COENG s) else None.
Proof.
  unfold re_match, Pattern.COENG.
  pose proof (span_length is_COENG s) as Hlen.
  pose proof (span_app is_COENG s) as Happ.
  rewrite (run_Plus_class 1 _ _ (class_like_Chr is_COENG) Matched);
    [|unfold re_fuel; lia | left; discriminate].
  destruct (span is_COENG s) as [a b]. cbn [fst snd] in *.
  destruct a as [|x a]; [reflexivity|]. cbn [nonempty].
  replace (length s - length b) with (length (x :: a)) by lia.
  rewrite <- Happ. now rewrite firstn_app, Nat.sub_diag, firstn_all, app_nil_r.
Qed.

(** The substitution of the source is [collapse_coeng]. *)
Lemma re_sub_from_coengs (f : nat) (s : str) :
  length s <= f ->
  re_sub_from (re_match (Plus Pattern.COENG)) [COENG] f s = collapse_coeng s.
Proof.
  revert s; induction f as [|f IH]; intros s Hf.
  - destruct s; [reflexivity | cbn in Hf; lia].
  - destruct s as [|x s']; [reflexivity|]. cbn [re_sub_from].
    rewrite re_match_coengs.
    pose proof (span_length is_COENG (x :: s')) as Hlen.
    pose proof (span_app is_COENG (x :: s')) as Happ.
    pose proof (span_all is_COENG (x :: s')) as Hall.
    pose proof (span_stop is_COENG (x :: s')) as Hstop.
    rewrite span_cons in *. destruct (is_COENG x) eqn:Hx.
    + cbn [fst snd nonempty length] in *.
      rewrite IH by (cbn [length] in Hf; lia).
      rewrite <- Happ. cbn [app].
      change (x :: fst (span is_COENG s') ++ snd (span is_COENG s'))
        with ((x :: fst (span is_COENG s')) ++ snd (span is_COENG s')).
      rewrite collapse_coeng_run; auto. discriminate.
    + cbn [fst snd nonempty]. rewrite IH by (cbn [length] in Hf; lia).
      cbn [collapse_coeng]. now rewrite Hx.
Qed.

Lemma re_sub_coengs (c : str) :
  re_sub (Plus Pattern.COENG) [COENG] c = collapse_coeng c.
Proof. unfold re_sub. now apply re_sub_from_coengs. Qed.

(** [match_CHUNKPAT] and [match_SYLLPAT] are the scanners. *)
Lemma match_CHUNKPAT_scan (s : str) : match_CHUNKPAT s = scan_CHUNKPAT s.
Proof.
  apply (re_match_scan Pattern.CHUNKPAT scan_CHUNKPAT scan_CHUNKPAT_sound).
  intros t. apply run_CHUNKPAT. unfold re_fuel. lia.
Qed.

Lemma match_SYLLPAT_scan (s : str) : match_SYLLPAT s = scan_SYLLPAT s.
Proof.
  apply (re_match_scan Pattern.SYLLPAT scan_SYLLPAT scan_SYLLPAT_sound).
  intros t. apply run_SYLLPAT. unfold re_fuel. lia.
Qed.

Lemma match_CHUNKPAT_sound : sound_matcher match_CHUNKPAT.
Proof.
  intros s a b. rewrite match_CHUNKPAT_scan. apply scan_CHUNKPAT_sound.
Qed.

Lemma match_SYLLPAT_sound : sound_matcher match_SYLLPAT.
Proof.
  intros s a b. rewrite match_SYLLPAT_scan. apply scan_SYLLPAT_sound.
Qed.

Set Implicit Arguments.

(** Segmentation loses nothing. *)
Lemma chunks_of_concat (tail : str) : concat (chunks_of tail) = tail.
Proof.
  unfold chunks_of. rewrite concat_filter_nonempty.
  apply (re_split_from_concat match_CHUNKPAT_sound).
Qed.

Lemma syllables_of_concat (text : str) : concat (syllables_of text) = text.
Proof.
  unfold syllables_of. rewrite concat_filter_nonempty.
  apply (re_split_from_concat match_SYLLPAT_sound).
Qed.

(** ** Classification *)

Lemma classify_step_class (b : buckets) (c : str) :
  classify_step b c =
  match class_of c with
  | Some DepVowel =>
      Buckets (dv b ++ [c]) (coeng b) (nonsp b) (sp b) (rs b) (robat b)
  | Some CoengCluster =>
      Buckets (dv b) (coeng b ++ [collapse_coeng c]) (nonsp b) (sp b) (rs b) (robat b)
  | Some NonSpacing =>
      Buckets (dv b) (coeng b) (nonsp b ++ [c]) (sp b) (rs b) (robat b)
  | Some Spacing =>
      Buckets (dv b) (coeng b) (nonsp b) (sp b ++ [c]) (rs b) (robat b)
  | Some RegShifter =>
      Buckets (dv b) (coeng b) (nonsp b) (sp b) (rs b ++ [c]) (robat b)
  | Some Robat =>
      Buckets (dv b) (coeng b) (nonsp b) (sp b) (rs b) (robat b ++ [c])
  | None => b
  end.
Proof.
  unfold classify_step, class_of. rewrite re_sub_coengs.
  unfold Pattern.DEPVOWEL, Pattern.COENG, Pattern.NONSPACING, Pattern.SPACING,
    Pattern.REGSHIFTER, Pattern.ROBAT. rewrite !re_test_class.
  repeat match goal with
  | |- context [if ?t then _ else _] => destruct t; try reflexivity
  end.
Qed.

(** Each bucket holds the chunks of its class, in their order. *)
Lemma classify_fold (chunks : list str) (b : buckets) :
  fold_left classify_step chunks b =
  Buckets (dv b ++ filter (has_class DepVowel) chunks)
          (coeng b ++ map collapse_coeng (filter (has_class CoengCluster) chunks))
          (nonsp b ++ filter (has_class NonSpacing) chunks)
          (sp b ++ filter (has_class Spacing) chunks)
          (rs b ++ filter (has_class RegShifter) chunks)
          (robat b ++ filter (has_class Robat) chunks).
Proof.
  revert b; induction chunks as [|c chunks IH]; intros b.
  - cbn. rewrite !app_nil_r. now destruct b.
  - cbn [fold_left]. rewrite IH, classify_step_class.
    unfold has_class. cbn [filter].
    destruct (class_of c) as [[]|]; cbn [dv coeng nonsp sp rs robat
      chunk_class_eqb map app]; rewrite <- ?app_assoc; reflexivity.
Qed.

Lemma classify_spec (chunks : list str) :
  classify chunks =
  Buckets (filter (has_class DepVowel) chunks)
          (map collapse_coeng (filter (has_class CoengCluster) chunks))
          (filter (has_class NonSpacing) chunks)
          (filter (has_class Spacing) chunks)
          (filter (has_class RegShifter) chunks)
          (filter (has_class Robat) chunks).
Proof. unfold classify. now rewrite classify_fold. Qed.

(** The class tests are on the first code point, and exclude each other in
    the order of the chain. *)
Lemma has_class_inv (k : chunk_class) (c : str) :
  has_class k c = true ->
  exists x r, c = x :: r /\
    match k with
    | DepVowel => DEPVOWEL x
    | CoengCluster => is_COENG x
    | NonSpacing => NONSPACING x
    | Spacing => SPACING x
    | RegShifter => REGSHIFTER x
    | Robat => is_ROBAT x
    end = true.
Proof.
  unfold has_class, class_of. destruct c as [|x r]; [discriminate|].
  intros H. exists x, r. split; [reflexivity|]. cbn in H.
  repeat match type of H with
  | context [if ?t then _ else _] => destruct t eqn:?
  end; destruct k; try discriminate; assumption.
Qed.

(** ** Character classes *)

Lemma is_COENG_eq (c : Z) : is_COENG c = true -> c = COENG.
Proof. class_lia. Qed.

(** ** The shape of the chunks *)

Lemma match_CHUNKPAT_shape (s a b : str) :
  match_CHUNKPAT s = Some (a, b) -> chunk_shape a.
Proof.
  rewrite match_CHUNKPAT_scan. unfold scan_CHUNKPAT.
  destruct (match_coeng_cluster s) as [[m r]|] eqn:E.
  - apply match_coeng_cluster_inv in E as (ks & c & -> & _ & Hks & Hall & Hc).
    destruct r as [|x r'].
    + intros H; injection H as <- <-. now constructor.
    + destruct (REGSHIFTER x) eqn:Hx; intros H; injection H as <- <-.
      * rewrite <- app_assoc. now constructor.
      * now constructor.
  - destruct s as [|c s']; [discriminate|].
    destruct (DOT c) eqn:Hc; [|discriminate].
    intros H; injection H as <- <-. now constructor.
Qed.

Lemma match_CHUNKPAT_none (c : Z) (s : str) :
  match_CHUNKPAT (c :: s) = None -> c = 0x0A%Z.
Proof.
  rewrite match_CHUNKPAT_scan. unfold scan_CHUNKPAT.
  destruct (match_coeng_cluster (c :: s)) as [[m r]|].
  - destruct r as [|x r']; [discriminate|]. destruct (REGSHIFTER x); discriminate.
  - destruct (DOT c) eqn:E; [discriminate|]. intros _. class_lia.
Qed.

Lemma chunks_of_shape (tail : str) : Forall chunk_shape (chunks_of tail).
Proof.
  unfold chunks_of. rewrite re_split_split_gap.
  pose proof (@split_gap_pieces match_CHUNKPAT match_CHUNKPAT_sound
                chunk_shape (fun c => c = 0x0A%Z)
                match_CHUNKPAT_shape match_CHUNKPAT_none tail []
                (Forall_nil _)) as H.
  rewrite Forall_forall in *. intros x Hx.
  apply filter_In in Hx as [Hin Hne].
  destruct (H x Hin) as [Hs|Hq]; [exact Hs|].
  apply shape_newlines; [|exact Hq]. destruct x; [discriminate | discriminate].
Qed.

(** A chunk of a one-code-point class is that one code point. *)
Lemma chunk_shape_single (p : Z -> bool) (c : str) :
  chunk_shape c -> re_match_class p c = true ->
  (forall x, p x = true -> is_COENG x = false /\ x <> 0x0A%Z) ->
  single_of p c.
Proof.
  intros Hs Hp Hdisj. destruct Hs as [ks c Hks Hall Hc|ks c r Hks Hall Hc Hr|c Hc|g Hg Hall].
  - destruct ks as [|k ks]; [congruence|]. cbn in Hp, Hall.
    apply Hdisj in Hp as [Hp _]. rewrite Hp in Hall. discriminate.
  - destruct ks as [|k ks]; [congruence|]. cbn in Hp, Hall.
    apply Hdisj in Hp as [Hp _]. rewrite Hp in Hall. discriminate.
  - exists c. auto.
  - destruct g as [|x g]; [congruence|]. cbn in Hp.
    apply Hdisj in Hp as [_ Hp]. inversion Hall; subst. congruence.
Qed.

(** The entries of the coeng bucket. *)
Lemma chunk_shape_coeng (c : str) :
  chunk_shape c -> re_match_class is_COENG c = true ->
  coeng_shape (collapse_coeng c).
Proof.
  intros Hs Hp. destruct Hs as [ks c Hks Hall Hc|ks c r Hks Hall Hc Hr|c Hc|g Hg Hall].
  - rewrite collapse_coeng_run; auto; [|cbn; class_lia].
    cbn. replace (is_COENG c) with false by (symmetry; class_lia).
    now constructor.
  - rewrite collapse_coeng_run; auto; [|cbn; class_lia].
    cbn. replace (is_COENG c) with false by (symmetry; class_lia).
    replace (is_COENG r) with false by (symmetry; class_lia).
    now constructor.
  - cbn in Hp |- *. rewrite Hp. constructor.
  - destruct g as [|x g]; [congruence|]. cbn in Hp.
    inversion Hall; subst. discriminate.
Qed.

(** What the six buckets of a syllable hold. *)
Section Buckets.

Variable tail : str.
Let b := classify (chunks_of tail).

Lemma bucket_single (k : chunk_class) (p : Z -> bool) (c : str) :
  (forall x r, has_class k (x :: r) = true -> p x = true) ->
  (forall x, p x = true -> is_COENG x = false /\ x <> 0x0A%Z) ->
  In c (filter (has_class k) (chunks_of tail)) -> single_of p c.
Proof.
  intros Hk Hdisj Hin. apply filter_In in Hin as [Hin Hc].
  pose proof (chunks_of_shape tail) as Hs. rewrite Forall_forall in Hs.
  apply chunk_shape_single; auto.
  destruct c as [|x r]; [discriminate|]. cbn. eapply Hk; eauto.
Qed.

Lemma dv_single : Forall (single_of DEPVOWEL) (dv b).
Proof.
  unfold b. rewrite classify_spec. cbn [dv]. apply Forall_forall. intros c.
  apply bucket_single.
  - intros x r H. apply has_class_inv in H as (x' & r' & E & H).
    now injection E as <- <-.
  - intros x Hx. split; class_lia.
Qed.

Lemma nonsp_single : Forall (single_of NONSPACING) (nonsp b).
Proof.
  unfold b. rewrite classify_spec. cbn [nonsp]. apply Forall_forall. intros c.
  apply bucket_single.
  - intros x r H. apply has_class_inv in H as (x' & r' & E & H).
    now injection E as <- <-.
  - intros x Hx. split; class_lia.
Qed.

Lemma sp_single : Forall (single_of SPACING) (sp b).
Proof.
  unfold b. rewrite classify_spec. cbn [sp]. apply Forall_forall. intros c.
  apply bucket_single.
  - intros x r H. apply has_class_inv in H as (x' & r' & E & H).
    now injection E as <- <-.
  - intros x Hx. split; class_lia.
Qed.

Lemma rs_single : Forall (single_of REGSHIFTER) (rs b).
Proof.
  unfold b. rewrite classify_spec. cbn [rs]. apply Forall_forall. intros c.
  apply bucket_single.
  - intros x r H. apply has_class_inv in H as (x' & r' & E & H).
    now injection E as <- <-.
  - intros x Hx. split; class_lia.
Qed.

Lemma robat_single : Forall (single_of is_ROBAT) (robat b).
Proof.
  unfold b. rewrite classify_spec. cbn [robat]. apply Forall_forall. intros c.
  apply bucket_single.
  - intros x r H. apply has_class_inv in H as (x' & r' & E & H).
    now injection E as <- <-.
  - intros x Hx. split; class_lia.
Qed.

Lemma coeng_shapes : Forall coeng_shape (coeng b).
Proof.
  unfold b. rewrite classify_spec. cbn [coeng]. apply Forall_forall.
  intros c Hin. apply in_map_iff in Hin as (c0 & <- & Hin).
  apply filter_In in Hin as [Hin Hc].
  pose proof (chunks_of_shape tail) as Hs. rewrite Forall_forall in Hs.
  apply chunk_shape_coeng; auto.
  apply has_class_inv in Hc as (x & r & -> & Hx). exact Hx.
Qed.

End Buckets.

(** ** Reassembly *)

Lemma in_ro_moved (l : list str) (x : str) :
  In x (ro_moved l) -> x = [] \/ In x l.
Proof.
  unfold ro_moved. set (n := length l - 1). intros H.
  rewrite !in_app_iff in H. destruct H as [H|[H|H]].
  - apply in_map_iff in H as (y & <- & Hy). unfold ro_blank.
    destruct (re_match_COENG_RO y); [now left|].
    right. rewrite <- (firstn_skipn n l). apply in_or_app. now left.
  - right. rewrite <- (firstn_skipn n l). apply in_or_app. now right.
  - apply filter_In in H as [H _].
    right. rewrite <- (firstn_skipn n l). apply in_or_app. now left.
Qed.

Lemma coeng_shape_head (c : str) :
  coeng_shape c -> exists r, c = COENG :: r.
Proof. intros []; eauto. Qed.

(** No entry of the joined buckets starts with a consonant or an independent
    vowel. *)
Lemma joined_buckets_not_base (tail : str) :
  Forall (fun x => re_match_class CONS_OR_INDEPVOWEL x = false)
         (joined_buckets tail).
Proof.
  unfold joined_buckets.
  pose proof (rs_single tail) as Hrs. pose proof (robat_single tail) as Hrb.
  pose proof (coeng_shapes tail) as Hco. pose proof (dv_single tail) as Hdv.
  pose proof (nonsp_single tail) as Hns. pose proof (sp_single tail) as Hsp.
  cbv zeta. set (b := classify (chunks_of tail)) in *.
  rewrite Forall_forall in *. intros x Hx.
  rewrite !in_app_iff in Hx.
  destruct Hx as [H|[H|[H|[H|[H|H]]]]].
  - apply Hrs in H as (c & -> & Hc). cbn. class_lia.
  - apply Hrb in H as (c & -> & Hc). cbn. class_lia.
  - apply in_ro_moved in H as [->|H]; [reflexivity|].
    apply Hco, coeng_shape_head in H as [r ->]. reflexivity.
  - apply Hdv in H as (c & -> & Hc). cbn. class_lia.
  - apply Hns in H as (c & -> & Hc). cbn. class_lia.
  - apply Hsp in H as (c & -> & Hc). cbn. class_lia.
Qed.

Lemma dedup_adjacent_cons (x : str) (l : list str) :
  (forall y l', l = y :: l' -> y <> x) ->
  dedup_adjacent (x :: l) = x :: dedup_adjacent l.
Proof.
  intros H. cbn [dedup_adjacent]. destruct l as [|y l']; [reflexivity|].
  specialize (H y l' eq_refl). apply str_eqb_neq in H. now rewrite H.
Qed.

(** The reassembled list of a real syllable: its base, then the joined
    buckets without adjacent duplicates. *)
Lemma reassembled_chunks_real (c : Z) (tail : str) :
  CONS_OR_INDEPVOWEL c = true ->
  reassembled_chunks (c :: tail) = [c] :: squash (joined_buckets tail).
Proof.
  intros Hc. unfold reassembled_chunks, squash.
  cbn [firstn skipn]. rewrite dedup_loop_spec, ro_loop_spec.
  change ([[c]] ++ ?l) with ([c] :: l).
  fold (joined_buckets tail).
  rewrite dedup_adjacent_cons; [reflexivity|].
  intros y l' E Hy. pose proof (joined_buckets_not_base tail) as H.
  rewrite E in H. inversion H as [|? ? Hy' _]; subst. cbn in Hy'. congruence.
Qed.

Lemma reassemble_real (c : Z) (tail : str) :
  CONS_OR_INDEPVOWEL c = true ->
  reassemble (c :: tail) = c :: concat (squash (joined_buckets tail)).
Proof.
  intros Hc. unfold reassemble. now rewrite reassembled_chunks_real.
Qed.

(** ** The vowel replacements *)

Lemma str_replace_2_skip (a b : Z) (new : str) (x : Z) (s : str) :
  x <> a -> str_replace [a; b] new (x :: s) = x :: str_replace [a; b] new s.
Proof.
  intros Hx. destruct s as [|y s].
  - now rewrite str_replace_2_one.
  - rewrite str_replace_2_cons.
    replace (a =? x)%Z with false by (symmetry; apply Z.eqb_neq; congruence).
    reflexivity.
Qed.

Lemma fuse_cons (x : Z) (s : str) :
  x <> 0x17C1%Z -> x <> 0x17B8%Z -> fuse (x :: s) = x :: fuse s.
Proof.
  intros H1 H2. unfold fuse, fuse_e_aa, fuse_ii_e, fuse_e_ii.
  now rewrite !str_replace_2_skip.
Qed.

Lemma is_real_syll_inv (syll : str) :
  is_real_syll syll = true ->
  exists c tail, syll = c :: tail /\ tail <> [] /\ CONS_OR_INDEPVOWEL c = true.
Proof.
  rewrite is_real_syll_class. intros H. apply andb_prop in H as [Hl Hc].
  destruct syll as [|c tail]; [discriminate|]. exists c, tail.
  apply Nat.ltb_lt in Hl. cbn in Hl, Hc. repeat split; auto.
  destruct tail; [cbn in Hl; lia | discriminate].
Qed.

(** A real syllable keeps its base and is rebuilt behind it. *)
Lemma reorderSyll_real (c : Z) (tail : str) :
  is_real_syll (c :: tail) = true ->
  reorderSyll (c :: tail) = c :: fuse (concat (squash (joined_buckets tail))).
Proof.
  intros H. unfold reorderSyll. rewrite H.
  apply is_real_syll_inv in H as (c' & tail' & E & _ & Hc).
  injection E as <- <-. rewrite reassemble_real by exact Hc.
  apply fuse_cons; class_lia.
Qed.

(** ** The guard of [reorderSyll] *)

Lemma reorderSyll_not_real (syll : str) :
  is_real_syll syll = false -> reorderSyll syll = syll.
Proof. intros H. unfold reorderSyll. now rewrite H. Qed.

(** C8: a string of at most one code point, and a string that does not
    start with a consonant or an independent vowel, is returned unchanged. *)
Theorem reorderSyll_unchanged (syll : str) :
  length syll <= 1 \/ re_match_class CONS_OR_INDEPVOWEL syll = false ->
  reorderSyll syll = syll.
Proof.
  intros H. apply reorderSyll_not_real. rewrite is_real_syll_class.
  destruct H as [H|H].
  - apply Nat.ltb_ge in H. now rewrite H.
  - now rewrite H, andb_false_r.
Qed.

Lemma reorderSyll_unchanged_witness :
  reorderSyll [0x17B6%Z; 0x1780%Z; 0x17D2%Z] = [0x17B6%Z; 0x1780%Z; 0x17D2%Z] /\
  reorderSyll [0x1780%Z] = [0x1780%Z].
Proof.
  split.
  - apply reorderSyll_unchanged. right. reflexivity.
  - apply reorderSyll_unchanged. left. cbn. lia.
Defined.

(** C9: a real syllable is reordered into a non-empty string with the same
    first code point. *)
Theorem reorderSyll_keeps_base (syll : str) :
  1 < length syll -> re_match_class CONS_OR_INDEPVOWEL syll = true ->
  reorderSyll syll <> [] /\ hd_error (reorderSyll syll) = hd_error syll.
Proof.
  intros Hl Hc.
  assert (H : is_real_syll syll = true).
  { rewrite is_real_syll_class. apply Nat.ltb_lt in Hl. now rewrite Hl, Hc. }
  destruct (is_real_syll_inv syll H) as (c & tail & -> & _ & _).
  rewrite (reorderSyll_real _ _ H). split; [discriminate | reflexivity].
Qed.

Lemma reorderSyll_keeps_base_witness :
  reorderSyll [0x1780%Z; 0x17B6%Z; 0x17D2%Z; 0x1780%Z] <> [] /\
  hd_error (reorderSyll [0x1780%Z; 0x17B6%Z; 0x17D2%Z; 0x1780%Z]) =
  hd_error [0x1780%Z; 0x17B6%Z; 0x17D2%Z; 0x1780%Z].
Proof.
  apply reorderSyll_keeps_base; [cbn; lia | reflexivity].
Defined.

(** ** The order of the coeng clusters *)

Lemma filter_nonempty_id (l : list str) :
  Forall (fun c => c <> []) l -> filter (@nonempty Z) l = l.
Proof.
  induction 1 as [|c l Hc _ IH]; [reflexivity|]. cbn.
  destruct c; [congruence|]. cbn. now rewrite IH.
Qed.

Lemma filter_nonempty_ro_blank (l : list str) :
  Forall (fun c => c <> []) l ->
  filter (@nonempty Z) (map ro_blank l) = filter not_COENG_RO l.
Proof.
  induction 1 as [|c l Hc _ IH]; [reflexivity|].
  cbn [map filter]. rewrite <- IH. unfold not_COENG_RO.
  assert (E : ro_blank c = if re_match_COENG_RO c then [] else c)
    by reflexivity.
  rewrite E. destruct (re_match_COENG_RO c); cbn [negb nonempty]; [reflexivity|].
  destruct c; [congruence | reflexivity].
Qed.

Lemma Forall_firstn (A : Type) (P : A -> Prop) (n : nat) (l : list A) :
  Forall P l -> Forall P (firstn n l).
Proof.
  intros H. rewrite <- (firstn_skipn n l) in H.
  now apply Forall_app in H as [H _].
Qed.

Lemma Forall_skipn (A : Type) (P : A -> Prop) (n : nat) (l : list A) :
  Forall P l -> Forall P (skipn n l).
Proof.
  intros H. rewrite <- (firstn_skipn n l) in H.
  now apply Forall_app in H as [_ H].
Qed.

(** What the RO loop leaves, for a bucket without empty entries: the
    non-RO clusters in their order, the last cluster if it is an RO cluster,
    and the RO clusters from before the last cluster in their order. *)
Lemma ro_loop_order (l : list str) :
  Forall (fun c => c <> []) l ->
  filter (@nonempty Z) (ro_loop l) =
  filter not_COENG_RO l ++
  filter re_match_COENG_RO (skipn (length l - 1) l) ++
  filter re_match_COENG_RO (firstn (length l - 1) l).
Proof.
  intros Hne. rewrite ro_loop_spec. unfold ro_moved. cbv zeta.
  set (n := length l - 1).
  rewrite !filter_app.
  rewrite filter_nonempty_ro_blank by now apply Forall_firstn.
  rewrite (filter_nonempty_id (l := skipn n l)) by now apply Forall_skipn.
  rewrite (filter_nonempty_id (l := filter _ _)).
  2:{ apply Forall_forall. intros c Hc. apply filter_In in Hc as [Hc _].
      rewrite Forall_forall in Hne. apply Hne.
      rewrite <- (firstn_skipn n l). apply in_or_app. now left. }
  assert (E : filter not_COENG_RO l =
              filter not_COENG_RO (firstn n l) ++
              filter not_COENG_RO (skipn n l))
    by (now rewrite <- filter_app, firstn_skipn).
  rewrite E, <- !app_assoc. f_equal. rewrite !app_assoc. f_equal.
  assert (Hlen : length (skipn n l) <= 1)
    by (rewrite length_skipn; unfold n; lia).
  destruct (skipn n l) as [|x [|y r]]; [reflexivity| |cbn in Hlen; lia].
  cbn. unfold not_COENG_RO. now destruct (re_match_COENG_RO x).
Qed.

Lemma coeng_shape_nonempty (l : list str) :
  Forall coeng_shape l -> Forall (fun c => c <> []) l.
Proof.
  apply Forall_impl. intros c Hc. apply coeng_shape_head in Hc as [r ->].
  discriminate.
Qed.

(** C2, as the source has it: in the coeng bucket of a real syllable the RO
    loop leaves the non-RO clusters in their order, followed by the RO
    clusters; among these the last cluster of the bucket, if it is an RO
    cluster, comes first, and the RO clusters from before it follow in their
    order. *)
Theorem ro_clusters_last (syll : str) :
  is_real_syll syll = true ->
  let l := coeng_bucket syll in
  filter (@nonempty Z) (ro_loop l) =
  filter not_COENG_RO l ++
  filter re_match_COENG_RO (skipn (length l - 1) l) ++
  filter re_match_COENG_RO (firstn (length l - 1) l).
Proof.
  intros _ l. apply ro_loop_order, coeng_shape_nonempty.
  apply coeng_shapes.
Qed.

Lemma ro_clusters_last_witness :
  let syll := [0x1780; 0x17D2; 0x179A; 0x17D2; 0x1781; 0x17D2; 0x179A; 0x17C9]%Z in
  let l := coeng_bucket syll in
  filter (@nonempty Z) (ro_loop l) =
  filter not_COENG_RO l ++
  filter re_match_COENG_RO (skipn (length l - 1) l) ++
  filter re_match_COENG_RO (firstn (length l - 1) l).
Proof.
  intros syll. apply (ro_clusters_last syll). reflexivity.
Defined.

(** C2, as the claim states it, fails: with two RO clusters of which one is
    the last of the bucket, the loop swaps them. *)
Lemma ro_clusters_not_stable :
  let syll := [0x1780; 0x17D2; 0x179A; 0x17D2; 0x179A; 0x17C9]%Z in
  is_real_syll syll = true /\
  coeng_bucket syll = [[0x17D2; 0x179A]; [0x17D2; 0x179A; 0x17C9]]%Z /\
  filter (@nonempty Z) (ro_loop (coeng_bucket syll)) =
    [[0x17D2; 0x179A; 0x17C9]; [0x17D2; 0x179A]]%Z /\
  filter (@nonempty Z) (ro_loop (coeng_bucket syll)) <>
    ro_last_stable (coeng_bucket syll) /\
  reorderSyll syll = [0x1780; 0x17D2; 0x179A; 0x17C9; 0x17D2; 0x179A]%Z.
Proof.
  cbv zeta. repeat split; try reflexivity. vm_compute. discriminate.
Qed.

(** ** Duplicates across a boundary *)

Lemma dedup_adjacent_app (a b : list str) :
  (forall x y, last a [] = x -> hd [] b = y -> a <> [] -> b <> [] -> x <> y) ->
  dedup_adjacent (a ++ b) = dedup_adjacent a ++ dedup_adjacent b.
Proof.
  induction a as [|x a IH]; intros H; [reflexivity|].
  destruct a as [|x' a].
  - cbn [app]. destruct b as [|y b]; [reflexivity|].
    rewrite dedup_adjacent_cons; [reflexivity|].
    intros y' l' E. injection E as E1 E2. subst y' l'. intros Hyx.
    apply (H x y); cbn; congruence.
  - change ((x :: x' :: a) ++ b) with (x :: (x' :: a) ++ b).
    change (dedup_adjacent (x :: (x' :: a) ++ b))
      with ((if str_eqb x' x then [] else x) :: dedup_adjacent ((x' :: a) ++ b)).
    rewrite IH; [reflexivity|].
    intros u v Hu Hv _ Hb. apply H; auto; discriminate.
Qed.

Lemma squash_app (a b : list str) :
  (forall x y, last a [] = x -> hd [] b = y -> a <> [] -> b <> [] -> x <> y) ->
  squash (a ++ b) = squash a ++ squash b.
Proof.
  intros H. unfold squash. now rewrite dedup_adjacent_app, filter_app.
Qed.

Lemma squash_repeat (x : str) (n : nat) :
  x <> [] -> squash (repeat x (S n)) = [x].
Proof.
  intros Hx. unfold squash. induction n as [|n IH].
  - cbn. destruct x; [congruence | reflexivity].
  - change (repeat x (S (S n))) with (x :: repeat x (S n)).
    cbn [dedup_adjacent]. cbn [repeat] in *.
    rewrite str_eqb_refl. cbn [filter nonempty]. exact IH.
Qed.

Lemma squash_incl (l : list str) (x : str) : In x (squash l) -> In x l.
Proof.
  unfold squash. intros H. apply filter_In in H as [H Hx].
  induction l as [|a l IH]; [contradiction|].
  cbn [dedup_adjacent] in H. destruct l as [|b l].
  - exact H.
  - destruct H as [H|H].
    + destruct (str_eqb b a); [subst; discriminate | now left].
    + right. now apply IH.
Qed.

(** ** Code points that take no part in the replacements *)

Lemma str_replace_2_app_skip (a b : Z) (new pre s : str) :
  ~ In a pre ->
  str_replace [a; b] new (pre ++ s) = pre ++ str_replace [a; b] new s.
Proof.
  induction pre as [|x pre IH]; intros H; [reflexivity|].
  cbn [app]. rewrite str_replace_2_skip.
  - rewrite IH; [reflexivity|]. intros Hin. apply H. now right.
  - intros ->. apply H. now left.
Qed.

Lemma fuse_app_skip (pre s : str) :
  ~ In 0x17C1%Z pre -> ~ In 0x17B8%Z pre -> fuse (pre ++ s) = pre ++ fuse s.
Proof.
  intros H1 H2. unfold fuse, fuse_e_aa, fuse_ii_e, fuse_e_ii.
  now rewrite !str_replace_2_app_skip.
Qed.

Lemma str_replace_2_in (a b : Z) (new s : str) (c : Z) :
  In c (str_replace [a; b] new s) -> In c s \/ In c new.
Proof.
  induction s as [s IH] using length_ind. destruct s as [|x [|y s]].
  - now left.
  - rewrite str_replace_2_one. now left.
  - rewrite str_replace_2_cons. destruct ((a =? x) && (b =? y))%Z.
    + intros H. apply in_app_or in H as [H|H]; [now right|].
      apply IH in H; [|cbn; lia]. destruct H; [left; now do 2 right | now right].
    + intros [H|H]; [left; now left|].
      apply IH in H; [|cbn; lia]. destruct H; [left; now right | now right].
Qed.

Lemma fuse_in (s : str) (c : Z) :
  In c (fuse s) -> In c s \/ c = 0x17BE%Z \/ c = 0x17C4%Z.
Proof.
  unfold fuse, fuse_e_aa, fuse_ii_e, fuse_e_ii. intros H.
  apply str_replace_2_in in H as [H|[H|[]]]; [|auto].
  apply str_replace_2_in in H as [H|[H|[]]]; [|auto].
  apply str_replace_2_in in H as [H|[H|[]]]; auto.
Qed.

(** ** Where the robat goes *)

Lemma is_ROBAT_eq (c : Z) : is_ROBAT c = true -> c = ROBAT.
Proof. class_lia. Qed.

Lemma Forall_eq_repeat (A : Type) (x : A) (l : list A) :
  Forall (fun y => y = x) l -> l = repeat x (length l).
Proof. induction 1 as [|y l -> _ IH]; cbn; [reflexivity | now rewrite <- IH]. Qed.

(** The code points behind the robat bucket: none is a robat. *)
Lemma after_robat_chars (tail : str) (x : str) (c : Z) :
  let b := classify (chunks_of tail) in
  In x (ro_moved (coeng b) ++ dv b ++ nonsp b ++ sp b) -> In c x ->
  c <> ROBAT.
Proof.
  intros b Hx Hc.
  pose proof (coeng_shapes tail) as Hco. pose proof (dv_single tail) as Hdv.
  pose proof (nonsp_single tail) as Hns. pose proof (sp_single tail) as Hsp.
  fold b in Hco, Hdv, Hns, Hsp. rewrite Forall_forall in *.
  rewrite !in_app_iff in Hx. destruct Hx as [H|[H|[H|H]]].
  - apply in_ro_moved in H as [->|H]; [contradiction|].
    apply Hco in H. destruct H; cbn in Hc; intuition (subst; class_lia).
  - apply Hdv in H as (y & -> & Hy). destruct Hc as [<-|[]]. class_lia.
  - apply Hns in H as (y & -> & Hy). destruct Hc as [<-|[]]. class_lia.
  - apply Hsp in H as (y & -> & Hy). destruct Hc as [<-|[]]. class_lia.
Qed.

Lemma last_in (A : Type) (l : list A) (d : A) : l <> [] -> In (last l d) l.
Proof.
  induction l as [|x l IH]; [congruence|]. intros _.
  destruct l as [|y l]; [now left|]. right. apply IH. discriminate.
Qed.

Lemma hd_in (A : Type) (l : list A) (d : A) : l <> [] -> In (hd d l) l.
Proof. destruct l; [congruence | now left]. Qed.

(** The reassembled tail of a syllable with a robat chunk: the register
    shifters, one robat, and the other buckets. *)
Lemma squash_joined_robat (tail : str) :
  In [ROBAT] (chunks_of tail) ->
  let b := classify (chunks_of tail) in
  squash (joined_buckets tail) =
  squash (rs b) ++ [[ROBAT]] ++
  squash (ro_moved (coeng b) ++ dv b ++ nonsp b ++ sp b).
Proof.
  intros Hin b. unfold joined_buckets. fold b.
  set (rest := ro_moved (coeng b) ++ dv b ++ nonsp b ++ sp b).
  assert (Hrob : exists n, robat b = repeat [ROBAT] (S n)).
  { pose proof (robat_single tail) as H. fold b in H.
    assert (Hall : Forall (fun y => y = [ROBAT]) (robat b)).
    { eapply Forall_impl; [|exact H]. intros x (y & -> & Hy).
      now rewrite (is_ROBAT_eq _ Hy). }
    apply Forall_eq_repeat in Hall.
    assert (Hr : In [ROBAT] (robat b)).
    { unfold b. rewrite classify_spec. cbn [robat]. apply filter_In.
      split; [exact Hin | reflexivity]. }
    destruct (length (robat b)) as [|n] eqn:E.
    - rewrite Hall in Hr. contradiction.
    - exists n. exact Hall. }
  destruct Hrob as [n Hrob]. rewrite Hrob.
  rewrite squash_app.
  - f_equal. rewrite squash_app.
    + rewrite squash_repeat by discriminate. reflexivity.
    + intros x y Hx Hy _ Hne <-.
      assert (Hl : x = [ROBAT]).
      { rewrite <- Hx. clear. induction n as [|n IH]; [reflexivity|].
        exact IH. }
      pose proof (hd_in [] Hne) as Hh. rewrite Hy, Hl in Hh.
      eapply (@after_robat_chars tail [ROBAT] ROBAT); auto. now left.
  - intros x y Hx Hy Hne _ <-. cbn in Hy.
    pose proof (last_in [] Hne) as Hl. rewrite Hx in Hl.
    pose proof (rs_single tail) as Hrs. fold b in Hrs.
    rewrite Forall_forall in Hrs. apply Hrs in Hl as (z & E & Hz).
    rewrite <- Hy in E. injection E as <-. class_lia.
Qed.


(** ** The order of the vowel replacements *)

Section Scan.

Variable R : rules.

Lemma scan_nil skip : scan R skip [] = [].
Proof. reflexivity. Qed.

Lemma scan_one x : scan R false [x] = [x].
Proof. reflexivity. Qed.

Lemma scan_cons x y s :
  scan R false (x :: y :: s) =
  match R x y with
  | Some o => o :: scan R false s
  | None => x :: scan R false (y :: s)
  end.
Proof. cbn. now destruct (R x y). Qed.

(** The first code point of a pass is the first of the text or the result
    of a rule. *)
Lemma scan_head y s :
  exists h w, scan R false (y :: s) = h :: w /\
              (h = y \/ exists u v, R u v = Some h).
Proof.
  destruct s as [|z s].
  - exists y, []. split; [reflexivity | now left].
  - rewrite scan_cons. destruct (R y z) as [o|] eqn:E.
    + exists o, (scan R false s). split; [reflexivity | right; eauto].
    + exists y, (scan R false (z :: s)). split; [reflexivity | now left].
Qed.

End Scan.

Lemma scan_ext (R R' : rules) (s : str) :
  (forall x y, R x y = R' x y) -> scan R false s = scan R' false s.
Proof.
  intros H. induction s as [s IH] using length_ind.
  destruct s as [|x [|y s]]; [reflexivity | reflexivity |].
  rewrite !scan_cons, <- H. destruct (R x y).
  - f_equal. apply IH. cbn. lia.
  - f_equal. apply IH. cbn. lia.
Qed.

Lemma scan_no_rule (s : str) : scan no_rule false s = s.
Proof.
  induction s as [|x s IH]; [reflexivity|].
  destruct s as [|y s]; [reflexivity|].
  rewrite scan_cons. cbn [no_rule]. now rewrite IH.
Qed.

Lemma overlap_free_for_tail (dom : Z -> Z -> bool) (x : Z) (s : str) :
  overlap_free_for dom (x :: s) = true -> overlap_free_for dom s = true.
Proof.
  cbn. destruct s as [|y [|z s]]; try reflexivity.
  intros H. now apply andb_prop in H as [_ H].
Qed.

Lemma overlap_free_for_head (dom : Z -> Z -> bool) (x y z : Z) (s : str) :
  overlap_free_for dom (x :: y :: z :: s) = true ->
  dom x y = true -> dom y z = false.
Proof.
  cbn [overlap_free_for]. intros H Hxy. apply andb_prop in H as [H _].
  rewrite Hxy in H. cbn in H. now apply negb_true_iff in H.
Qed.

Lemma overlap_free_for_mono (dom dom' : Z -> Z -> bool) (s : str) :
  (forall x y, dom x y = true -> dom' x y = true) ->
  overlap_free_for dom' s = true -> overlap_free_for dom s = true.
Proof.
  intros Hsub. induction s as [|x s IH]; [reflexivity|].
  intros H. pose proof (overlap_free_for_tail _ _ _ H) as Ht.
  specialize (IH Ht). destruct s as [|y [|z s]]; try reflexivity.
  cbn [overlap_free_for] in H |- *. apply andb_prop in H as [H _].
  apply andb_true_intro. split; [|exact IH].
  apply negb_true_iff. apply negb_true_iff in H.
  apply andb_false_iff in H. apply andb_false_iff.
  destruct H as [H|H]; [left|right];
    (destruct (dom _ _) eqn:E; [apply Hsub in E; congruence | reflexivity]).
Qed.

(** One more replacement after a pass is the pass with one more rule, on a
    text without overlapping pairs, when no rule of the pass produces a code
    point of the new pair. *)
Section ReplaceAfterScan.

Variables (R : rules) (a b o : Z).

Hypothesis R_out : forall x y o', R x y = Some o' -> o' <> a /\ o' <> b.

Lemma replace_after_scan (s : str) :
  overlap_free_for (in_rules (add_rule R a b o)) s = true ->
  str_replace [a; b] [o] (scan R false s) = scan (add_rule R a b o) false s.
Proof.
  induction s as [s IH] using length_ind. intros Hfree.
  destruct s as [|x [|y t]].
  - reflexivity.
  - cbn [scan]. now rewrite str_replace_2_one.
  - pose proof (overlap_free_for_tail _ _ _ Hfree) as Hfree1.
    pose proof (overlap_free_for_tail _ _ _ Hfree1) as Hfree2.
    rewrite !scan_cons. unfold add_rule at 1.
    destruct (R x y) as [o'|] eqn:Exy.
    + destruct (R_out Exy) as [Ha _].
      rewrite str_replace_2_skip by exact Ha.
      f_equal. apply IH; [cbn; lia | exact Hfree2].
    + destruct ((a =? x) && (b =? y))%Z eqn:Eab.
      * apply andb_prop in Eab as [Ea Eb].
        apply Z.eqb_eq in Ea, Eb. subst x y.
        assert (Hscan : scan R false (b :: t) = b :: scan R false t).
        { destruct t as [|z t']; [reflexivity|].
          rewrite scan_cons.
          assert (Hbz : in_rules (add_rule R a b o) b z = false).
          { apply (overlap_free_for_head _ _ _ _ _ Hfree).
            unfold in_rules, add_rule. rewrite Exy, !Z.eqb_refl. reflexivity. }
          unfold in_rules, add_rule in Hbz.
          destruct (R b z); [discriminate | reflexivity]. }
        rewrite Hscan, str_replace_2_cons, !Z.eqb_refl. cbn [andb app].
        f_equal. apply IH; [cbn; lia | exact Hfree2].
      * destruct (scan_head R y t) as (h & w & Hw & Hh). rewrite Hw.
        rewrite str_replace_2_cons.
        assert (Hab : ((a =? x) && (b =? h))%Z = false).
        { destruct Hh as [->|(u & v & Huv)]; [exact Eab|].
          destruct (R_out Huv) as [_ Hb].
          apply andb_false_iff. right. apply Z.eqb_neq. congruence. }
        rewrite Hab, <- Hw. f_equal. apply IH; [cbn; lia | exact Hfree1].
Qed.

End ReplaceAfterScan.

Lemma in_rules_add (R : rules) (a b o x y : Z) :
  in_rules R x y = true -> in_rules (add_rule R a b o) x y = true.
Proof. unfold in_rules, add_rule. now destruct (R x y). Qed.

(** Three replacements in a row are one pass with the three rules. *)
Lemma three_replacements (a1 b1 o1 a2 b2 o2 a3 b3 o3 : Z) (s : str) :
  let R1 := add_rule no_rule a1 b1 o1 in
  let R2 := add_rule R1 a2 b2 o2 in
  let R3 := add_rule R2 a3 b3 o3 in
  (forall x y o', R1 x y = Some o' -> o' <> a2 /\ o' <> b2) ->
  (forall x y o', R2 x y = Some o' -> o' <> a3 /\ o' <> b3) ->
  overlap_free_for (in_rules R3) s = true ->
  str_replace [a3; b3] [o3]
    (str_replace [a2; b2] [o2] (str_replace [a1; b1] [o1] s)) =
  scan R3 false s.
Proof.
  intros R1 R2 R3 H2 H3 Hfree.
  assert (Hfree2 : overlap_free_for (in_rules R2) s = true).
  { revert Hfree. apply overlap_free_for_mono. intros x y.
    apply in_rules_add. }
  assert (Hfree1 : overlap_free_for (in_rules R1) s = true).
  { revert Hfree2. apply overlap_free_for_mono. intros x y.
    apply in_rules_add. }
  rewrite <- (scan_no_rule s) at 1.
  rewrite (@replace_after_scan no_rule a1 b1 o1); [|discriminate|exact Hfree1].
  fold R1. rewrite (@replace_after_scan R1 a2 b2 o2 H2 s Hfree2).
  fold R2. now rewrite (@replace_after_scan R2 a3 b3 o3 H3 s Hfree).
Qed.

(** Facts about concrete rule sets, by cases on the code points. *)
Ltac rules_cases :=
  unfold fusion_rules, in_rules, add_rule, no_rule, fusable;
  repeat match goal with
  | |- context [(?c =? ?v)%Z] => destruct (Z.eqb_spec c v); subst
  | H : context [(?c =? ?v)%Z] |- _ => destruct (Z.eqb_spec c v); subst
  end;
  cbn in *; try reflexivity; try discriminate; try lia;
  try (split; congruence).

(** Any order of the three replacements is the one pass with the three
    rules, on a text without overlapping pairs. *)
Lemma replacements_any_order (a1 b1 o1 a2 b2 o2 a3 b3 o3 : Z) (s : str) :
  let R3 := add_rule (add_rule (add_rule no_rule a1 b1 o1) a2 b2 o2) a3 b3 o3 in
  (forall x y o', add_rule no_rule a1 b1 o1 x y = Some o' ->
                  o' <> a2 /\ o' <> b2) ->
  (forall x y o', add_rule (add_rule no_rule a1 b1 o1) a2 b2 o2 x y = Some o' ->
                  o' <> a3 /\ o' <> b3) ->
  (forall x y, R3 x y = fusion_rules x y) ->
  overlap_free s = true ->
  str_replace [a3; b3] [o3]
    (str_replace [a2; b2] [o2] (str_replace [a1; b1] [o1] s)) =
  scan fusion_rules false s.
Proof.
  intros R3 H2 H3 Hext Hfree.
  rewrite three_replacements; auto.
  - now apply scan_ext.
  - revert Hfree. apply overlap_free_for_mono. intros x y.
    fold R3. unfold in_rules at 1. rewrite Hext. clear. rules_cases.
Qed.

Lemma fuse_scan (s : str) :
  overlap_free s = true -> fuse s = scan fusion_rules false s.
Proof.
  intros H. unfold fuse, fuse_e_aa, fuse_ii_e, fuse_e_ii.
  apply replacements_any_order; auto; intros x y; try intros o'; rules_cases.
Qed.

(** C6, as the code allows it: on a text in which no two occurrences of
    the three source pairs overlap, the three replacements give the same
    result in each of the six orders. *)
Theorem fusions_commute_without_overlap (s : str) :
  overlap_free s = true ->
  fuse_ii_e (fuse_e_aa (fuse_e_ii s)) = fuse s /\
  fuse_e_aa (fuse_e_ii (fuse_ii_e s)) = fuse s /\
  fuse_e_ii (fuse_e_aa (fuse_ii_e s)) = fuse s /\
  fuse_ii_e (fuse_e_ii (fuse_e_aa s)) = fuse s /\
  fuse_e_ii (fuse_ii_e (fuse_e_aa s)) = fuse s.
Proof.
  intros H. rewrite (fuse_scan _ H).
  unfold fuse_e_aa, fuse_ii_e, fuse_e_ii.
  repeat split;
    (apply replacements_any_order; auto; intros x y; try intros o';
     rules_cases).
Qed.

Lemma fusions_commute_without_overlap_witness :
  let s := [0x1780; 0x17C1; 0x17B8; 0x17BE; 0x17B8; 0x17C1; 0x17C6; 0x17C1; 0x17B6]%Z in
  fuse_ii_e (fuse_e_aa (fuse_e_ii s)) = fuse s /\
  fuse_e_aa (fuse_e_ii (fuse_ii_e s)) = fuse s /\
  fuse_e_ii (fuse_e_aa (fuse_ii_e s)) = fuse s /\
  fuse_ii_e (fuse_e_ii (fuse_e_aa s)) = fuse s /\
  fuse_e_ii (fuse_ii_e (fuse_e_aa s)) = fuse s.
Proof.
  intros s. apply (fusions_commute_without_overlap s). reflexivity.
Defined.

(** C6, as the claim states it, fails: the reassembled string of the
    syllable U+1780 U+17B8 U+17C1 U+17B8 is that string, and replacing
    U+17B8 U+17C1 first gives another result than the order of the source. *)
Lemma fusions_do_not_commute :
  let syll := [0x1780; 0x17B8; 0x17C1; 0x17B8]%Z in
  is_real_syll syll = true /\
  reassemble syll = syll /\
  fuse (reassemble syll) = [0x1780; 0x17B8; 0x17BE]%Z /\
  fuse_e_aa (fuse_e_ii (fuse_ii_e (reassemble syll))) =
    [0x1780; 0x17BE; 0x17B8]%Z /\
  fuse_e_aa (fuse_e_ii (fuse_ii_e (reassemble syll))) <> fuse (reassemble syll).
Proof.
  cbv zeta. repeat split; try reflexivity. vm_compute. discriminate.
Qed.

(** ** Text without Khmer code points *)

Lemma str_replace_1_id (a : Z) (new s : str) :
  ~ In a s -> str_replace [a] new s = s.
Proof.
  intros H. rewrite str_replace_1. induction s as [|c s IH]; [reflexivity|].
  cbn [flat_map].
  replace (a =? c)%Z with false
    by (symmetry; apply Z.eqb_neq; intros ->; apply H; now left).
  cbn [app]. rewrite IH; [reflexivity|]. intros Hin. apply H. now right.
Qed.

(** A text without the nine sources is left alone. *)
Lemma regularizeText_id (text : str) :
  (forall c, In c text -> is_source c = false) -> regularizeText text = text.
Proof.
  intros H. unfold regularizeText.
  repeat (rewrite (@str_replace_1_id _ _ text);
          [|let Hin := fresh in intros Hin; apply H in Hin; discriminate]).
  reflexivity.
Qed.

Lemma match_SYLLPAT_none (c : Z) (s : str) :
  CONS_OR_INDEPVOWEL c = false -> match_SYLLPAT (c :: s) = None.
Proof.
  intros H. rewrite match_SYLLPAT_scan. unfold scan_SYLLPAT. now rewrite H.
Qed.

(** A text without consonants and independent vowels is one gap. *)
Lemma split_gap_no_base (gap s : str) :
  (forall c, In c s -> CONS_OR_INDEPVOWEL c = false) ->
  split_gap match_SYLLPAT gap s = [gap ++ s].
Proof.
  revert gap; induction s as [|c s IH]; intros gap H.
  - rewrite split_gap_nil by exact match_SYLLPAT_sound. now rewrite app_nil_r.
  - rewrite split_gap_skip.
    + rewrite IH; [now rewrite <- app_assoc|]. intros x Hx. apply H. now right.
    + apply match_SYLLPAT_none. apply H. now left.
Qed.

Lemma reorder_segments_no_base (s : str) :
  (forall c, In c s -> CONS_OR_INDEPVOWEL c = false) ->
  reorder_segments s = s.
Proof.
  intros H. unfold reorder_segments, syllables_of.
  rewrite re_split_split_gap, split_gap_no_base by exact H.
  cbn [app filter]. destruct s as [|c s]; [reflexivity|].
  cbn [nonempty map concat]. rewrite app_nil_r.
  apply reorderSyll_not_real. rewrite is_real_syll_class. cbn [re_match_class].
  rewrite (H c) by now left. apply andb_false_r.
Qed.

(** C7: a text without code points of the Khmer block is returned as it
    is. *)
Theorem reorderText_non_khmer (s : str) :
  forallb (fun c => negb (in_khmer c)) s = true -> reorderText s = s.
Proof.
  intros H. rewrite forallb_forall in H.
  change (reorder_segments (regularizeText s) = s).
  rewrite regularizeText_id.
  - apply reorder_segments_no_base. intros c Hc. apply H in Hc.
    unfold in_khmer in Hc. class_lia.
  - intros c Hc. apply H in Hc. unfold in_khmer in Hc.
    unfold is_source, regularize_sources. cbn [existsb]. class_lia.
Qed.

Lemma reorderText_non_khmer_witness :
  reorderText [0x48; 0x69; 0x20; 0x200B; 0x0A; 0x17E0; 0x0E01]%Z =
  [0x48; 0x69; 0x20; 0x200B; 0x0A; 0x17E0; 0x0E01]%Z.
Proof. apply reorderText_non_khmer. reflexivity. Defined.

(** ** Lengths *)

Lemma size_cons (c : str) (l : list str) : size (c :: l) = length c + size l.
Proof. unfold size. cbn. apply length_app. Qed.

Lemma size_app (a b : list str) : size (a ++ b) = size a + size b.
Proof. unfold size. now rewrite concat_app, length_app. Qed.

Lemma str_replace_2_length (a b o : Z) (s : str) :
  length (str_replace [a; b] [o] s) <= length s.
Proof.
  induction s as [s IH] using length_ind. destruct s as [|x [|y s]].
  - cbn. lia.
  - rewrite str_replace_2_one. lia.
  - rewrite str_replace_2_cons. destruct ((a =? x) && (b =? y))%Z.
    + cbn [app length]. specialize (IH s). cbn in IH. lia.
    + cbn [length]. specialize (IH (y :: s)). cbn in IH. cbn. lia.
Qed.

Lemma fuse_length (s : str) : length (fuse s) <= length s.
Proof.
  unfold fuse, fuse_e_aa, fuse_ii_e, fuse_e_ii.
  etransitivity; [apply str_replace_2_length|].
  etransitivity; [apply str_replace_2_length|].
  apply str_replace_2_length.
Qed.

Lemma dedup_adjacent_size (l : list str) : size (dedup_adjacent l) <= size l.
Proof.
  induction l as [|x l IH]; [unfold size; cbn; lia|].
  cbn [dedup_adjacent]. destruct l as [|y l]; [lia|].
  rewrite !size_cons in *. destruct (str_eqb y x); cbn [length]; lia.
Qed.

Lemma squash_size (l : list str) : size (squash l) <= size l.
Proof.
  unfold squash, size at 1. rewrite concat_filter_nonempty.
  apply dedup_adjacent_size.
Qed.

Lemma ro_blank_size (l : list str) :
  size (map ro_blank l) + size (filter re_match_COENG_RO l) = size l.
Proof.
  induction l as [|c l IH]; [reflexivity|].
  cbn [map filter]. unfold ro_blank at 1.
  destruct (re_match_COENG_RO c); rewrite !size_cons; cbn [length]; lia.
Qed.

Lemma ro_moved_size (l : list str) : size (ro_moved l) = size l.
Proof.
  unfold ro_moved. cbv zeta. set (n := length l - 1).
  rewrite !size_app. rewrite <- (firstn_skipn n l) at 4.
  rewrite size_app. pose proof (ro_blank_size (firstn n l)). lia.
Qed.

Lemma collapse_coeng_length (c : str) : length (collapse_coeng c) <= length c.
Proof.
  induction c as [|x c IH]; [cbn; lia|]. cbn [collapse_coeng].
  destruct (is_COENG x).
  - destruct c as [|y c]; [cbn; lia|].
    destruct (is_COENG y); cbn [length] in *; lia.
  - cbn [length]. lia.
Qed.

(** The six buckets together hold no more code points than the chunks. *)
Lemma bucket_sizes (l : list str) :
  size (filter (has_class RegShifter) l) + size (filter (has_class Robat) l) +
  size (map collapse_coeng (filter (has_class CoengCluster) l)) +
  size (filter (has_class DepVowel) l) + size (filter (has_class NonSpacing) l) +
  size (filter (has_class Spacing) l) <= size l.
Proof.
  induction l as [|c l IH]; [unfold size; cbn; lia|].
  cbn [filter].
  assert (Hk : forall k, has_class k c =
                 match class_of c with
                 | Some k' => chunk_class_eqb k k'
                 | None => false
                 end) by reflexivity.
  rewrite !Hk. clear Hk.
  pose proof (collapse_coeng_length c) as Hc.
  destruct (class_of c) as [[]|]; cbn [chunk_class_eqb map];
    rewrite ?size_cons; lia.
Qed.

Lemma joined_buckets_size (tail : str) : size (joined_buckets tail) <= length tail.
Proof.
  unfold joined_buckets. cbv zeta. rewrite classify_spec.
  cbn [rs robat coeng dv nonsp sp]. rewrite !size_app, ro_moved_size.
  pose proof (bucket_sizes (chunks_of tail)) as H.
  unfold size at 7 in H. rewrite chunks_of_concat in H. lia.
Qed.

(** Reordering a syllable adds no code point. *)
Lemma reorderSyll_length (syll : str) : length (reorderSyll syll) <= length syll.
Proof.
  destruct (is_real_syll syll) eqn:E.
  - destruct (is_real_syll_inv syll E) as (c & tail & -> & _ & _).
    rewrite (reorderSyll_real _ _ E). cbn [length]. apply le_n_S.
    etransitivity; [apply fuse_length|].
    etransitivity; [apply squash_size|]. apply joined_buckets_size.
  - now rewrite reorderSyll_not_real.
Qed.

Lemma concat_map_length (f : str -> str) (l : list str) :
  (forall x, length (f x) <= length x) ->
  length (concat (map f l)) <= length (concat l).
Proof.
  intros H. induction l as [|x l IH]; [cbn; lia|].
  cbn. rewrite !length_app. specialize (H x). lia.
Qed.

Lemma reorder_segments_length (text : str) :
  length (reorder_segments text) <= length text.
Proof.
  unfold reorder_segments. rewrite <- (syllables_of_concat text) at 2.
  apply concat_map_length, reorderSyll_length.
Qed.


Unset Implicit Arguments.

(** ** Marks and clusters *)

Lemma match_coeng_cluster_not_coeng (x : Z) (s : str) :
  is_COENG x = false -> match_coeng_cluster (x :: s) = None.
Proof.
  intros H. unfold match_coeng_cluster. rewrite span_cons, H. reflexivity.
Qed.

(** A mark is taken and the group goes on behind it. *)
Lemma syll_tail_mark (x : Z) (s : str) :
  SYLLMARK x = true ->
  syll_tail (x :: s) = (x :: fst (syll_tail s), snd (syll_tail s)).
Proof.
  intros Hx.
  assert (Hk : is_COENG x = false) by class_lia.
  pose proof (match_coeng_cluster_not_coeng x s Hk) as E.
  destruct (span SYLLMARK s) as [a b] eqn:Hspan.
  assert (Hs : span SYLLMARK (x :: s) = (x :: a, b)).
  { rewrite span_cons, Hx, Hspan. reflexivity. }
  rewrite (syll_tail_run _ _ _ E Hs) by discriminate.
  destruct a as [|y a].
  - destruct s as [|y s]; [cbn in Hspan; injection Hspan as <-; reflexivity|].
    rewrite span_cons in Hspan. destruct (SYLLMARK y); [discriminate|].
    injection Hspan as <-. reflexivity.
  - assert (Hy : SYLLMARK y = true /\ exists s', s = y :: s').
    { destruct s as [|z s]; [discriminate|]. rewrite span_cons in Hspan.
      destruct (SYLLMARK z) eqn:Hz; [|discriminate].
      injection Hspan as -> _ _. eauto. }
    destruct Hy as [Hy [s' ->]].
    assert (Hk' : is_COENG y = false) by class_lia.
    rewrite (syll_tail_run _ _ _ (match_coeng_cluster_not_coeng y s' Hk') Hspan)
      by discriminate.
    reflexivity.
Qed.

(** What the group matches is made of marks and clusters, and it stops
    where neither is found. *)
Lemma syll_tail_items (s : str) :
  syll_items (fst (syll_tail s)) /\ tail_stop (snd (syll_tail s)).
Proof.
  induction s as [s IH] using length_ind.
  destruct (match_coeng_cluster s) as [[m r]|] eqn:E.
  - rewrite (syll_tail_cluster _ _ _ E). cbn [fst snd].
    pose proof (@sound_matcher_length _ match_coeng_cluster_sound _ _ _ E) as Hl.
    destruct (IH r Hl) as [Hi Hs]. split; [|exact Hs].
    apply match_coeng_cluster_inv in E as (ks & c & -> & _ & Hks & Hall & Hc).
    rewrite <- app_assoc. now apply items_cluster.
  - destruct s as [|x s]; [split; [constructor | now split]|].
    destruct (SYLLMARK x) eqn:Hx.
    + rewrite (syll_tail_mark _ s Hx). cbn [fst snd].
      destruct (IH s) as [Hi Hs]; [cbn; lia|]. split; [|exact Hs].
      now constructor.
    + rewrite syll_tail_stop by now split. cbn [fst snd].
      split; [constructor | now split].
Qed.

Lemma syll_tail_app (s : str) : fst (syll_tail s) ++ snd (syll_tail s) = s.
Proof. apply match_syll_tail_app. Qed.

Lemma match_coeng_cluster_intro (ks : str) (c : Z) (t : str) :
  ks <> [] -> forallb is_COENG ks = true -> CONS_OR_INDEPVOWEL c = true ->
  match_coeng_cluster (ks ++ c :: t) = Some (ks ++ [c], t).
Proof.
  intros Hks Hall Hc. unfold match_coeng_cluster.
  assert (Hspan : span is_COENG (ks ++ c :: t) = (ks, c :: t)).
  { clear Hks. induction ks as [|k ks IH].
    - cbn [app]. rewrite span_cons.
      replace (is_COENG c) with false by (symmetry; class_lia). reflexivity.
    - cbn in Hall. apply andb_prop in Hall as [Hk Hall].
      cbn [app]. rewrite span_cons, Hk, (IH Hall). reflexivity. }
  rewrite Hspan. destruct ks; [congruence|]. now rewrite Hc.
Qed.

(** A text of marks and clusters before a stop is matched entirely. *)
Lemma syll_tail_items_app (a z : str) :
  syll_items a -> tail_stop z -> syll_tail (a ++ z) = (a, z).
Proof.
  intros Ha Hz. induction Ha as [|x t Hx _ IH|ks c t Hks Hall Hc _ IH].
  - now apply syll_tail_stop.
  - cbn [app]. rewrite (syll_tail_mark _ _ Hx), IH. reflexivity.
  - rewrite <- app_assoc. cbn [app].
    rewrite (syll_tail_cluster _ _ _ (match_coeng_cluster_intro ks c (t ++ z) Hks Hall Hc)).
    rewrite IH. cbn [fst snd]. now rewrite <- app_assoc.
Qed.

(** ** The chunks of a matched syllable tail *)

Lemma chunks_of_nil : chunks_of [] = [].
Proof. reflexivity. Qed.

Lemma chunks_of_match (s a b : str) :
  match_CHUNKPAT s = Some (a, b) -> chunks_of s = a :: chunks_of b.
Proof.
  intros E. unfold chunks_of. rewrite !re_split_split_gap.
  rewrite (@split_gap_match _ match_CHUNKPAT_sound [] s a b E).
  apply match_CHUNKPAT_sound in E as [Ha _].
  cbn [filter nonempty]. destruct a; [congruence | reflexivity].
Qed.

Lemma match_CHUNKPAT_char (x : Z) (t : str) :
  is_COENG x = false -> DOT x = true -> match_CHUNKPAT (x :: t) = Some ([x], t).
Proof.
  intros Hk Hd. rewrite match_CHUNKPAT_scan. unfold scan_CHUNKPAT.
  now rewrite (match_coeng_cluster_not_coeng x t Hk), Hd.
Qed.

Lemma match_CHUNKPAT_cluster (ks : str) (c : Z) (t : str) :
  ks <> [] -> forallb is_COENG ks = true -> CONS_OR_INDEPVOWEL c = true ->
  match_CHUNKPAT (ks ++ c :: t) =
  match t with
  | r :: t' => if REGSHIFTER r then Some (ks ++ [c; r], t')
               else Some (ks ++ [c], t)
  | [] => Some (ks ++ [c], t)
  end.
Proof.
  intros Hks Hall Hc. rewrite match_CHUNKPAT_scan. unfold scan_CHUNKPAT.
  rewrite (match_coeng_cluster_intro ks c t Hks Hall Hc).
  destruct t as [|r t']; [reflexivity|].
  destruct (REGSHIFTER r); [|reflexivity].
  now rewrite <- app_assoc.
Qed.

Lemma syll_items_tail_rs (r : Z) (t : str) :
  REGSHIFTER r = true -> syll_items (r :: t) -> syll_items t.
Proof.
  intros Hr H. inversion H as [|x t0 Hx Ht|ks c t0 Hks Hall Hc Ht E]; subst.
  - exact Ht.
  - destruct ks as [|k ks]; [congruence|]. cbn in E. injection E as -> _.
    cbn in Hall. apply andb_prop in Hall as [Hk _]. class_lia.
Qed.

Lemma chunks_of_items (tl : str) :
  syll_items tl -> Forall item_chunk (chunks_of tl).
Proof.
  induction tl as [tl IH] using length_ind. intros H.
  destruct H as [|x t Hx Ht|ks c t Hks Hall Hc Ht].
  - constructor.
  - rewrite (chunks_of_match _ _ _ (match_CHUNKPAT_char x t
      ltac:(class_lia) ltac:(class_lia))).
    constructor; [now constructor|]. apply IH; [cbn; lia | exact Ht].
  - pose proof (match_CHUNKPAT_cluster ks c t Hks Hall Hc) as E.
    destruct t as [|r t'].
    + rewrite (chunks_of_match _ _ _ E). constructor; [now constructor|].
      constructor.
    + destruct (REGSHIFTER r) eqn:Hr.
      * rewrite (chunks_of_match _ _ _ E).
        constructor; [now constructor|].
        apply IH; [rewrite length_app; cbn; lia|].
        now apply (syll_items_tail_rs r).
      * rewrite (chunks_of_match _ _ _ E). constructor; [now constructor|].
        apply IH; [rewrite length_app; cbn; lia | exact Ht].
Qed.

(** ** Entries of the buckets of a matched tail *)

Lemma collapse_coeng_entry (c : str) :
  item_chunk c -> re_match_class is_COENG c = true ->
  item_entry (collapse_coeng c).
Proof.
  intros Hs Hp. destruct Hs as [ks c Hks Hall Hc|ks c r Hks Hall Hc Hr|x Hx].
  - rewrite collapse_coeng_run; auto; [|cbn; class_lia].
    cbn. replace (is_COENG c) with false by (symmetry; class_lia).
    now constructor.
  - rewrite collapse_coeng_run; auto; [|cbn; class_lia].
    cbn. replace (is_COENG c) with false by (symmetry; class_lia).
    replace (is_COENG r) with false by (symmetry; class_lia).
    now constructor.
  - cbn in Hp. class_lia.
Qed.

Lemma item_chunk_single (k : chunk_class) (c : str) :
  item_chunk c -> has_class k c = true -> k <> CoengCluster ->
  item_entry c.
Proof.
  intros Hs Hk Hne.
  destruct Hs as [ks c Hks Hall Hc|ks c r' Hks Hall Hc Hr|y Hy].
  - apply has_class_inv in Hk as (x & r & E & Hx).
    destruct ks as [|k' ks]; [congruence|]. cbn in E. injection E as -> _.
    cbn in Hall. apply andb_prop in Hall as [Hk' _].
    destruct k; try congruence; class_lia.
  - apply has_class_inv in Hk as (x & r & E & Hx).
    destruct ks as [|k' ks]; [congruence|]. cbn in E. injection E as -> _.
    cbn in Hall. apply andb_prop in Hall as [Hk' _].
    destruct k; try congruence; class_lia.
  - now constructor.
Qed.

(** ** Buckets without RO clusters *)

Lemma ro_blank_id (l : list str) :
  Forall (fun e => re_match_COENG_RO e = false) l ->
  map ro_blank l = l /\ filter re_match_COENG_RO l = [].
Proof.
  induction 1 as [|e l He _ [IH1 IH2]]; [now split|].
  cbn [map filter]. unfold ro_blank at 1. rewrite He, IH1, IH2. now split.
Qed.

Lemma ro_moved_id (l : list str) :
  Forall (fun e => re_match_COENG_RO e = false) l -> ro_moved l = l.
Proof.
  intros H. unfold ro_moved. cbv zeta. set (n := length l - 1).
  destruct (ro_blank_id _ (Forall_firstn n H)) as [E1 E2].
  now rewrite E1, E2, app_nil_r, firstn_skipn.
Qed.

Lemma no_pair_cons (a b x y : Z) (s : str) :
  no_pair a b (x :: y :: s) =
  negb ((x =? a) && (y =? b))%Z && no_pair a b (y :: s).
Proof. reflexivity. Qed.

Lemma no_pair_tail (a b x : Z) (s : str) :
  no_pair a b (x :: s) = true -> no_pair a b s = true.
Proof.
  destruct s as [|y s]; [reflexivity|]. rewrite no_pair_cons.
  intros H. now apply andb_prop in H as [_ H].
Qed.

Lemma no_pair_app (a b : Z) (p q : str) :
  no_pair a b (p ++ q) = true -> no_pair a b p = true /\ no_pair a b q = true.
Proof.
  induction p as [|x p IH]; intros H; [now split|].
  cbn [app] in H. pose proof (no_pair_tail _ _ _ _ H) as Ht.
  destruct (IH Ht) as [Hp Hq]. split; [|exact Hq].
  destruct p as [|y p]; [reflexivity|].
  cbn [app] in H. rewrite no_pair_cons in H |- *.
  apply andb_prop in H as [H _]. now rewrite H, Hp.
Qed.

Lemma no_pair_concat (a b : Z) (l : list str) :
  no_pair a b (concat l) = true -> Forall (fun e => no_pair a b e = true) l.
Proof.
  induction l as [|e l IH]; intros H; [constructor|].
  cbn [concat] in H. apply no_pair_app in H as [He Hl].
  constructor; auto.
Qed.

Lemma no_pair_cluster (ks : str) (c : Z) (t : str) :
  ks <> [] -> forallb is_COENG ks = true ->
  no_pair COENG RO (ks ++ c :: t) = true -> is_RO c = false.
Proof.
  induction ks as [|k ks IH]; [congruence|]. intros _ Hall H.
  cbn in Hall. apply andb_prop in Hall as [Hk Hall].
  destruct ks as [|k' ks].
  - cbn [app] in H. rewrite no_pair_cons in H. apply andb_prop in H as [H _].
    apply negb_true_iff, andb_false_iff in H. destruct H as [H|H].
    + class_lia.
    + exact H.
  - apply IH; [discriminate | exact Hall|].
    now apply (no_pair_tail _ _ k).
Qed.

(** Without a coeng directly before RO in the tail, no entry of the coeng
    bucket starts with coeng RO. *)
Lemma coeng_bucket_no_ro (tl : str) :
  no_pair COENG RO tl = true ->
  Forall (fun e => re_match_COENG_RO e = false)
         (coeng (classify (chunks_of tl))).
Proof.
  intros H. rewrite classify_spec. cbn [coeng]. apply Forall_forall.
  intros e He. apply in_map_iff in He as (c0 & <- & Hc0).
  apply filter_In in Hc0 as [Hin Hk].
  pose proof (chunks_of_shape tl) as Hs. rewrite Forall_forall in Hs.
  specialize (Hs c0 Hin).
  rewrite <- (chunks_of_concat tl) in H. apply no_pair_concat in H.
  rewrite Forall_forall in H. specialize (H c0 Hin).
  apply has_class_inv in Hk as (x & r & E & Hx).
  destruct Hs as [ks c Hks Hall Hc|ks c r' Hks Hall Hc Hr|y Hy|g Hg Hnl].
  - rewrite collapse_coeng_run; auto; [|cbn; class_lia].
    cbn. replace (is_COENG c) with false by (symmetry; class_lia).
    cbn. now apply (no_pair_cluster ks c []).
  - rewrite collapse_coeng_run; auto; [|cbn; class_lia].
    cbn. replace (is_COENG c) with false by (symmetry; class_lia).
    replace (is_COENG r') with false by (symmetry; class_lia).
    cbn. now apply (no_pair_cluster ks c [r']).
  - injection E as -> _. cbn. now rewrite Hx.
  - subst g. inversion Hnl; subst. discriminate.
Qed.

(** ** The order of the joined buckets *)

Lemma chunk_class_eqb_eq (k k' : chunk_class) :
  chunk_class_eqb k k' = true -> k = k'.
Proof. destruct k, k'; cbn; congruence. Qed.

Lemma has_class_rank (k : chunk_class) (c : str) :
  has_class k c = true -> rank c = class_rank k.
Proof.
  unfold has_class, rank. destruct (class_of c) as [k'|]; [|discriminate].
  intros H. now rewrite (chunk_class_eqb_eq _ _ H).
Qed.

Lemma rank_has_class (k : chunk_class) (c : str) :
  rank c = class_rank k -> has_class k c = true.
Proof.
  unfold has_class, rank. destruct (class_of c) as [k'|].
  - destruct k, k'; cbn; congruence.
  - destruct k; cbn; lia.
Qed.

Lemma has_class_other (k : chunk_class) (c : str) :
  rank c <> class_rank k -> has_class k c = false.
Proof.
  intros H. destruct (has_class k c) eqn:E; [|reflexivity].
  apply has_class_rank in E. congruence.
Qed.

Lemma ranked_weaken (lo lo' : nat) (l : list str) :
  lo' <= lo -> ranked lo l -> ranked lo' l.
Proof. destruct l as [|e l]; cbn; [auto|]. intros H [H1 H2]. split; [lia|auto]. Qed.

Lemma ranked_app (k lo : nat) (a b : list str) :
  Forall (fun e => rank e = k) a -> lo <= k -> ranked k b ->
  ranked lo (a ++ b).
Proof.
  intros Ha. revert lo. induction Ha as [|e a He _ IH]; intros lo Hlo Hb.
  - cbn [app]. now apply (ranked_weaken k).
  - cbn [app ranked]. split; [lia|]. rewrite He. apply IH; [lia | exact Hb].
Qed.

Lemma ranked_Forall (lo : nat) (l : list str) :
  ranked lo l -> Forall (fun e => lo <= rank e) l.
Proof.
  revert lo; induction l as [|e l IH]; intros lo H; [constructor|].
  destruct H as [H1 H2]. constructor; [exact H1|].
  apply IH in H2. eapply Forall_impl; [|exact H2]. cbn. intros; lia.
Qed.

(** ** The joined buckets of a matched tail *)

Lemma item_entry_single (p : Z -> bool) (l : list str) :
  (forall x, p x = true -> SYLLMARK x = true) ->
  Forall (single_of p) l -> Forall item_entry l.
Proof.
  intros H. apply Forall_impl. intros c (x & -> & Hx). constructor.
  now apply H.
Qed.

Lemma rank_coeng_entry (r : str) : rank (COENG :: r) = 2.
Proof. reflexivity. Qed.

Lemma filter_has_class_rank (k : chunk_class) (l : list str) :
  Forall (fun e => rank e = class_rank k) (filter (has_class k) l).
Proof.
  apply Forall_forall. intros e He. apply filter_In in He as [_ He].
  now apply has_class_rank.
Qed.

Lemma single_no_ro (p : Z -> bool) (l : list str) :
  Forall (single_of p) l -> Forall (fun e => re_match_COENG_RO e = false) l.
Proof. apply Forall_impl. now intros c (x & -> & _). Qed.

Section JoinedBuckets.

Variable tl : str.
Hypothesis tl_items : syll_items tl.
Hypothesis tl_no_ro : no_pair COENG RO tl = true.

Lemma joined_buckets_no_moves :
  joined_buckets tl =
  let b := classify (chunks_of tl) in
  rs b ++ robat b ++ coeng b ++ dv b ++ nonsp b ++ sp b.
Proof.
  unfold joined_buckets. cbv zeta.
  now rewrite (ro_moved_id _ (coeng_bucket_no_ro tl tl_no_ro)).
Qed.

Lemma coeng_entries : Forall item_entry (coeng (classify (chunks_of tl))).
Proof.
  rewrite classify_spec. cbn [coeng]. apply Forall_forall.
  intros e He. apply in_map_iff in He as (c0 & <- & Hc0).
  apply filter_In in Hc0 as [Hin Hk].
  pose proof (chunks_of_items tl tl_items) as Hs.
  rewrite Forall_forall in Hs. apply collapse_coeng_entry; auto.
  apply has_class_inv in Hk as (x & r & -> & Hx). exact Hx.
Qed.

Lemma coeng_ranks :
  Forall (fun e => rank e = 2) (coeng (classify (chunks_of tl))).
Proof.
  pose proof (coeng_shapes tl) as H. eapply Forall_impl; [|exact H].
  intros e He. apply coeng_shape_head in He as [r ->]. reflexivity.
Qed.

Lemma joined_buckets_entries : Forall item_entry (joined_buckets tl).
Proof.
  rewrite joined_buckets_no_moves. cbv zeta.
  repeat (apply Forall_app; split).
  - apply (item_entry_single REGSHIFTER); [intros; class_lia|].
    apply rs_single.
  - apply (item_entry_single is_ROBAT); [intros; class_lia|].
    apply robat_single.
  - apply coeng_entries.
  - apply (item_entry_single DEPVOWEL); [intros; class_lia|].
    apply dv_single.
  - apply (item_entry_single NONSPACING); [intros; class_lia|].
    apply nonsp_single.
  - apply (item_entry_single SPACING); [intros; class_lia|].
    apply sp_single.
Qed.

Lemma joined_buckets_ranked : ranked 0 (joined_buckets tl).
Proof.
  rewrite joined_buckets_no_moves. cbv zeta.
  pose proof coeng_ranks as Hco. rewrite classify_spec in *.
  cbn [rs robat coeng dv nonsp sp] in *.
  apply (ranked_app 0); [apply (filter_has_class_rank RegShifter) | lia |].
  apply (ranked_app 1); [apply (filter_has_class_rank Robat) | lia |].
  apply (ranked_app 2); [exact Hco | lia |].
  apply (ranked_app 3); [apply (filter_has_class_rank DepVowel) | lia |].
  apply (ranked_app 4); [apply (filter_has_class_rank NonSpacing) | lia |].
  rewrite <- (app_nil_r (filter _ _)).
  apply (ranked_app 5); [apply (filter_has_class_rank Spacing) | lia |].
  exact I.
Qed.

Lemma joined_buckets_no_ro :
  Forall (fun e => re_match_COENG_RO e = false) (joined_buckets tl).
Proof.
  rewrite joined_buckets_no_moves. cbv zeta.
  repeat (apply Forall_app; split).
  - apply (single_no_ro REGSHIFTER), rs_single.
  - apply (single_no_ro is_ROBAT), robat_single.
  - now apply coeng_bucket_no_ro.
  - apply (single_no_ro DEPVOWEL), dv_single.
  - apply (single_no_ro NONSPACING), nonsp_single.
  - apply (single_no_ro SPACING), sp_single.
Qed.

End JoinedBuckets.

(** ** Lists without adjacent duplicates *)

Lemma item_entry_nonempty (e : str) : item_entry e -> e <> [].
Proof. intros []; discriminate. Qed.

Lemma squash_cons_cases (x : str) (l : list str) :
  squash (x :: l) = squash l \/ squash (x :: l) = x :: squash l.
Proof.
  unfold squash. cbn [dedup_adjacent]. destruct l as [|y l].
  - cbn. destruct x; [left | right]; reflexivity.
  - destruct (str_eqb y x); [left; reflexivity|].
    cbn [filter]. destruct x; [left | right]; reflexivity.
Qed.

Lemma squash_cons_keep (x y : str) (l : list str) :
  x <> [] -> y <> x -> squash (x :: y :: l) = x :: squash (y :: l).
Proof.
  intros Hx Hy. unfold squash. cbn [dedup_adjacent].
  apply str_eqb_neq in Hy. rewrite Hy. cbn [filter].
  destruct x; [congruence | reflexivity].
Qed.

Lemma squash_cons_drop (x : str) (l : list str) :
  squash (x :: x :: l) = squash (x :: l).
Proof.
  unfold squash. cbn [dedup_adjacent]. now rewrite str_eqb_refl.
Qed.

Lemma squash_one (x : str) : x <> [] -> squash [x] = [x].
Proof. intros H. unfold squash. cbn. destruct x; [congruence | reflexivity]. Qed.

(** The first entry survives or is replaced by an equal one. *)
Lemma squash_head (y : str) (l : list str) :
  Forall (fun e => e <> []) (y :: l) -> exists w, squash (y :: l) = y :: w.
Proof.
  revert y; induction l as [|z l IH]; intros y H.
  - exists []. apply squash_one. now inversion H.
  - inversion H as [|? ? Hy Hl]; subst.
    destruct (list_eq_dec Z.eq_dec z y) as [->|Hne].
    + rewrite squash_cons_drop. now apply IH.
    + exists (squash (z :: l)). now apply squash_cons_keep.
Qed.

Lemma squash_idem (l : list str) :
  Forall (fun e => e <> []) l -> squash (squash l) = squash l.
Proof.
  induction l as [|x l IH]; intros H; [reflexivity|].
  inversion H as [|? ? Hx Hl]; subst. specialize (IH Hl).
  destruct l as [|y l].
  - rewrite squash_one by exact Hx. now apply squash_one.
  - destruct (list_eq_dec Z.eq_dec y x) as [->|Hne].
    + now rewrite squash_cons_drop.
    + rewrite squash_cons_keep by assumption.
      destruct (squash_head y l Hl) as [w Hw].
      rewrite Hw in *. rewrite squash_cons_keep by assumption.
      now rewrite IH.
Qed.

Lemma squash_Forall (P : str -> Prop) (l : list str) :
  Forall P l -> Forall P (squash l).
Proof.
  intros H. apply Forall_forall. intros e He. apply squash_incl in He.
  rewrite Forall_forall in H. now apply H.
Qed.

Lemma squash_ranked (lo : nat) (l : list str) :
  ranked lo l -> ranked lo (squash l).
Proof.
  revert lo; induction l as [|x l IH]; intros lo H; [exact I|].
  destruct H as [H1 H2]. apply IH in H2.
  destruct (squash_cons_cases x l) as [E|E]; rewrite E.
  - now apply (ranked_weaken (rank x)).
  - now split.
Qed.

(** ** Cutting a joined list back into its entries *)

Lemma rank_regshifter (e : str) :
  re_match_class REGSHIFTER e = true -> rank e = 0.
Proof.
  destruct e as [|x e]; [discriminate|]. cbn [re_match_class]. intros H.
  unfold rank, class_of. cbn [re_match_class].
  replace (DEPVOWEL x) with false by (symmetry; class_lia).
  replace (is_COENG x) with false by (symmetry; class_lia).
  replace (NONSPACING x) with false by (symmetry; class_lia).
  replace (SPACING x) with false by (symmetry; class_lia).
  now rewrite H.
Qed.

Lemma re_match_class_app (p : Z -> bool) (e s : str) :
  e <> [] -> re_match_class p (e ++ s) = re_match_class p e.
Proof. destruct e; [congruence | reflexivity]. Qed.

Lemma rechunks_ranked (lo : nat) (l : list str) :
  Forall item_entry l -> ranked lo l -> rechunks l.
Proof.
  intros H. revert lo. induction H as [|e l He Hl IH]; intros lo Hr; [exact I|].
  destruct Hr as [_ Hr]. cbn [rechunks]. split; [exact He|].
  split; [|now apply (IH (rank e))].
  intros Hlen. destruct He as [c Hc|c r Hc Hrs|x Hx]; try discriminate.
  rewrite rank_coeng_entry in Hr.
  destruct l as [|e' l']; [reflexivity|]. cbn [concat].
  inversion Hl as [|? ? He' _]; subst.
  rewrite re_match_class_app by now apply item_entry_nonempty.
  destruct (re_match_class REGSHIFTER e') eqn:E; [|reflexivity].
  apply rank_regshifter in E. destruct Hr as [Hr _]. lia.
Qed.

Lemma match_CHUNKPAT_cluster_plain (ks : str) (c : Z) (t : str) :
  ks <> [] -> forallb is_COENG ks = true -> CONS_OR_INDEPVOWEL c = true ->
  re_match_class REGSHIFTER t = false ->
  match_CHUNKPAT (ks ++ c :: t) = Some (ks ++ [c], t).
Proof.
  intros Hks Hall Hc Ht. rewrite match_CHUNKPAT_cluster by assumption.
  destruct t as [|r t']; [reflexivity|]. cbn in Ht. now rewrite Ht.
Qed.

Lemma chunks_of_rechunks (l : list str) :
  rechunks l -> chunks_of (concat l) = l.
Proof.
  induction l as [|e l IH]; [reflexivity|]. intros (He & Hrs & Hl).
  specialize (IH Hl). cbn [concat].
  destruct He as [c Hc|c r Hc Hr|x Hx].
  - specialize (Hrs eq_refl).
    change ([COENG; c] ++ concat l) with ([COENG] ++ c :: concat l).
    rewrite (chunks_of_match _ _ _ (match_CHUNKPAT_cluster_plain [COENG] c
      (concat l) ltac:(discriminate) eq_refl Hc Hrs)).
    now rewrite IH.
  - pose proof (match_CHUNKPAT_cluster [COENG] c (r :: concat l)
                  ltac:(discriminate) eq_refl Hc) as E.
    cbv beta iota in E. rewrite Hr in E.
    change ([COENG; c; r] ++ concat l) with ([COENG] ++ c :: r :: concat l).
    rewrite (chunks_of_match _ _ _ E). now rewrite IH.
  - change ([x] ++ concat l) with (x :: concat l).
    rewrite (chunks_of_match _ _ _ (match_CHUNKPAT_char x (concat l)
      ltac:(class_lia) ltac:(class_lia))).
    now rewrite IH.
Qed.

Lemma collapse_coeng_entry_id (e : str) :
  item_entry e -> collapse_coeng e = e.
Proof.
  intros [c Hc|c r Hc Hr|x Hx]; cbn.
  - now replace (is_COENG c) with false by (symmetry; class_lia).
  - replace (is_COENG c) with false by (symmetry; class_lia).
    now replace (is_COENG r) with false by (symmetry; class_lia).
  - now replace (is_COENG x) with false by (symmetry; class_lia).
Qed.

Lemma map_id_Forall (A : Type) (f : A -> A) (l : list A) :
  Forall (fun x => f x = x) l -> map f l = l.
Proof. induction 1 as [|x l Hx _ IH]; cbn; [reflexivity | now rewrite Hx, IH]. Qed.

Lemma Forall_filter (A : Type) (P : A -> Prop) (f : A -> bool) (l : list A) :
  Forall P l -> Forall P (filter f l).
Proof.
  intros H. apply Forall_forall. intros x Hx. apply filter_In in Hx as [Hx _].
  rewrite Forall_forall in H. now apply H.
Qed.

(** ** Sorting an ordered list into buckets and joining them *)

Lemma ranked_filter_low (k : chunk_class) (lo : nat) (l : list str) :
  ranked lo l -> class_rank k < lo -> filter (has_class k) l = [].
Proof.
  intros H Hk. apply ranked_Forall in H. induction H as [|e l He _ IH].
  - reflexivity.
  - cbn [filter]. rewrite has_class_other by lia. exact IH.
Qed.

Lemma filter_has_class_cons (k : chunk_class) (e : str) (l : list str) :
  filter (has_class k) (e :: l) =
  if (rank e =? class_rank k) then e :: filter (has_class k) l
  else filter (has_class k) l.
Proof.
  cbn [filter]. destruct (Nat.eqb_spec (rank e) (class_rank k)) as [E|E].
  - now rewrite rank_has_class.
  - now rewrite has_class_other.
Qed.

Lemma ranked_join (l : list str) :
  ranked 0 l -> Forall (fun e => rank e <= 5) l ->
  filter (has_class RegShifter) l ++ filter (has_class Robat) l ++
  filter (has_class CoengCluster) l ++ filter (has_class DepVowel) l ++
  filter (has_class NonSpacing) l ++ filter (has_class Spacing) l = l.
Proof.
  induction l as [|e l IH]; [reflexivity|]. intros [_ Hr] Hle.
  inversion Hle as [|? ? He Hl]; subst.
  specialize (IH (ranked_weaken (rank e) 0 l (Nat.le_0_l _) Hr) Hl).
  rewrite !filter_has_class_cons.
  assert (Hlow : forall k, class_rank k < rank e ->
                           filter (has_class k) l = [])
    by (intros k; now apply ranked_filter_low).
  assert (Hcases : rank e = 0 \/ rank e = 1 \/ rank e = 2 \/ rank e = 3 \/
                   rank e = 4 \/ rank e = 5) by lia.
  destruct Hcases as [E|[E|[E|[E|[E|E]]]]]; rewrite E in *; cbn [Nat.eqb class_rank].
  - cbn [app]. now rewrite IH.
  - rewrite (Hlow RegShifter) in * by (cbn; lia). cbn [app] in *.
    now rewrite IH.
  - rewrite (Hlow RegShifter), (Hlow Robat) in * by (cbn; lia).
    cbn [app] in *. now rewrite IH.
  - rewrite (Hlow RegShifter), (Hlow Robat), (Hlow CoengCluster) in *
      by (cbn; lia).
    cbn [app] in *. now rewrite IH.
  - rewrite (Hlow RegShifter), (Hlow Robat), (Hlow CoengCluster),
      (Hlow DepVowel) in * by (cbn; lia).
    cbn [app] in *. now rewrite IH.
  - rewrite (Hlow RegShifter), (Hlow Robat), (Hlow CoengCluster),
      (Hlow DepVowel), (Hlow NonSpacing) in * by (cbn; lia).
    cbn [app] in *. now rewrite IH.
Qed.

(** An ordered list of entries without RO clusters is the joined buckets
    of its concatenation. *)
Lemma joined_buckets_concat (l : list str) :
  Forall item_entry l -> ranked 0 l -> Forall (fun e => rank e <= 5) l ->
  Forall (fun e => re_match_COENG_RO e = false) l ->
  joined_buckets (concat l) = l.
Proof.
  intros He Hr Hle Hro. unfold joined_buckets. cbv zeta.
  rewrite (chunks_of_rechunks l (rechunks_ranked 0 l He Hr)).
  rewrite classify_spec. cbn [rs robat coeng dv nonsp sp].
  rewrite (map_id_Forall _ collapse_coeng).
  - rewrite ro_moved_id by now apply Forall_filter.
    now apply ranked_join.
  - apply Forall_filter. revert He. apply Forall_impl.
    apply collapse_coeng_entry_id.
Qed.

(** ** Code points of the reordered syllable *)

Lemma collapse_coeng_in (c : str) (x : Z) :
  In x (collapse_coeng c) -> In x c.
Proof.
  induction c as [|y c IH]; [auto|]. cbn [collapse_coeng].
  destruct (is_COENG y) eqn:Hy.
  - apply is_COENG_eq in Hy. subst y. destruct c as [|z c].
    + auto.
    + destruct (is_COENG z).
      * intros H. right. now apply IH.
      * intros [H|H]; [now left | right; now apply IH].
  - intros [H|H]; [now left | right; now apply IH].
Qed.

Lemma chunks_of_in (tl c : str) (x : Z) :
  In c (chunks_of tl) -> In x c -> In x tl.
Proof.
  intros Hc Hx. rewrite <- (chunks_of_concat tl). apply in_concat. eauto.
Qed.

Lemma joined_buckets_in (tl e : str) (x : Z) :
  In e (joined_buckets tl) -> In x e -> In x tl.
Proof.
  unfold joined_buckets. cbv zeta. rewrite classify_spec.
  cbn [rs robat coeng dv nonsp sp]. intros He Hx.
  rewrite !in_app_iff in He.
  destruct He as [H|[H|[H|[H|[H|H]]]]];
    try (apply filter_In in H as [H _]; now apply (chunks_of_in tl e)).
  apply in_ro_moved in H as [->|H]; [contradiction|].
  apply in_map_iff in H as (c0 & <- & H). apply filter_In in H as [H _].
  apply collapse_coeng_in in Hx. now apply (chunks_of_in tl c0).
Qed.

Lemma squash_joined_in (tl : str) (x : Z) :
  In x (concat (squash (joined_buckets tl))) -> In x tl.
Proof.
  intros H. apply in_concat in H as (e & He & Hx). apply squash_incl in He.
  now apply (joined_buckets_in tl e).
Qed.

Lemma str_replace_2_id_first (a b : Z) (new s : str) :
  ~ In a s -> str_replace [a; b] new s = s.
Proof.
  intros H. rewrite <- (app_nil_r s) at 1.
  rewrite str_replace_2_app_skip by exact H.
  rewrite str_replace_2_nil. apply app_nil_r.
Qed.

Lemma str_replace_2_id_second (a b : Z) (new s : str) :
  ~ In b s -> str_replace [a; b] new s = s.
Proof.
  induction s as [|x s IH]; intros H; [reflexivity|].
  destruct s as [|y t]; [apply str_replace_2_one|].
  rewrite str_replace_2_cons.
  replace (b =? y)%Z with false
    by (symmetry; apply Z.eqb_neq; intros ->; apply H; right; now left).
  rewrite andb_false_r. f_equal. apply IH. intros Hin. apply H. now right.
Qed.

(** Without U+17C1 no replacement applies. *)
Lemma fuse_id (s : str) : ~ In 0x17C1%Z s -> fuse s = s.
Proof.
  intros H. unfold fuse, fuse_e_aa, fuse_ii_e, fuse_e_ii.
  rewrite (str_replace_2_id_first _ _ _ s) by exact H.
  rewrite (str_replace_2_id_second _ _ _ s) by exact H.
  now rewrite (str_replace_2_id_first _ _ _ s) by exact H.
Qed.

(** ** One pass is final on a settled syllable *)

Lemma joined_buckets_classified (tl : str) :
  no_pair COENG RO tl = true ->
  Forall (fun e => rank e <= 5) (joined_buckets tl).
Proof.
  intros H. rewrite (joined_buckets_no_moves tl H). cbv zeta.
  pose proof (coeng_shapes tl) as Hco. rewrite classify_spec in *.
  cbn [rs robat coeng dv nonsp sp] in *.
  repeat (apply Forall_app; split);
    try (apply Forall_forall; intros e He; apply filter_In in He as [_ He];
         apply has_class_rank in He; rewrite He; cbn; lia).
  eapply Forall_impl; [|exact Hco]. intros e He.
  apply coeng_shape_head in He as [r ->]. rewrite rank_coeng_entry. lia.
Qed.

Lemma concat_entries_items (l : list str) :
  Forall item_entry l -> syll_items (concat l).
Proof.
  induction 1 as [|e l He _ IH]; [constructor|]. cbn [concat].
  destruct He as [c Hc|c r Hc Hr|x Hx].
  - now apply (@items_cluster [COENG] c (concat l)).
  - apply (@items_cluster [COENG] c (r :: concat l)); auto; [discriminate|].
    apply items_mark; [class_lia | exact IH].
  - now apply items_mark.
Qed.

Lemma is_real_syll_cons (c : Z) (tl : str) :
  CONS_OR_INDEPVOWEL c = true -> tl <> [] -> is_real_syll (c :: tl) = true.
Proof.
  intros Hc Ht. rewrite is_real_syll_class. cbn [re_match_class]. rewrite Hc.
  destruct tl; [congruence | reflexivity].
Qed.

(** The shape of a reordered syllable when no replacement applies. *)
Lemma reorderSyll_no_fusion (c : Z) (tl : str) :
  CONS_OR_INDEPVOWEL c = true -> ~ In 0x17C1%Z tl ->
  reorderSyll (c :: tl) = c :: concat (squash (joined_buckets tl)).
Proof.
  intros Hc HE. destruct tl as [|x tl]; [reflexivity|].
  rewrite reorderSyll_real by (apply is_real_syll_cons; [auto | discriminate]).
  f_equal. apply fuse_id. intros H. now apply squash_joined_in in H.
Qed.

Section SettledSyllable.

Variables (c : Z) (tl : str).
Hypothesis c_base : CONS_OR_INDEPVOWEL c = true.
Hypothesis tl_items : syll_items tl.
Hypothesis tl_no_ro : no_pair COENG RO tl = true.
Hypothesis tl_no_e : ~ In 0x17C1%Z tl.

Let out := squash (joined_buckets tl).

Lemma settled_reorderSyll : reorderSyll (c :: tl) = c :: concat out.
Proof. now apply reorderSyll_no_fusion. Qed.

Lemma settled_out_items : syll_items (concat out).
Proof.
  apply concat_entries_items, squash_Forall.
  now apply joined_buckets_entries.
Qed.

Lemma settled_out_fixed : joined_buckets (concat out) = out.
Proof.
  apply joined_buckets_concat; unfold out.
  - apply squash_Forall. now apply joined_buckets_entries.
  - apply squash_ranked. now apply joined_buckets_ranked.
  - apply squash_Forall. now apply joined_buckets_classified.
  - apply squash_Forall. now apply joined_buckets_no_ro.
Qed.

(** Reordering the reordered syllable changes nothing. *)
Lemma settled_reorderSyll_again :
  reorderSyll (c :: concat out) = c :: concat out.
Proof.
  rewrite reorderSyll_no_fusion.
  - rewrite settled_out_fixed. unfold out. rewrite squash_idem; [reflexivity|].
    eapply Forall_impl; [|apply (joined_buckets_entries tl tl_items tl_no_ro)].
    apply item_entry_nonempty.
  - exact c_base.
  - intros H. apply squash_joined_in in H. contradiction.
Qed.

End SettledSyllable.

(** ** Segments of a text *)

Lemma match_SYLLPAT_base (c : Z) (s : str) :
  CONS_OR_INDEPVOWEL c = true ->
  match_SYLLPAT (c :: s) = Some (c :: fst (syll_tail s), snd (syll_tail s)).
Proof.
  intros H. rewrite match_SYLLPAT_scan. unfold scan_SYLLPAT, syll_tail.
  rewrite H.
  now destruct (match_syll_tail (length s) s).
Qed.

Lemma no_base_head (g : str) :
  Forall (fun x => CONS_OR_INDEPVOWEL x = false) g ->
  re_match_class CONS_OR_INDEPVOWEL g = false.
Proof. intros [|x g' Hx _]; [reflexivity | exact Hx]. Qed.

Lemma reorderSyll_gap (g : str) :
  Forall (fun x => CONS_OR_INDEPVOWEL x = false) g -> reorderSyll g = g.
Proof.
  intros H. apply reorderSyll_not_real. rewrite is_real_syll_class.
  rewrite (no_base_head g H). apply andb_false_r.
Qed.

Lemma map_reorderSyll_gap (g : str) :
  Forall (fun x => CONS_OR_INDEPVOWEL x = false) g ->
  map reorderSyll (filter (@nonempty Z) [g]) = filter (@nonempty Z) [g].
Proof.
  intros H. cbn [filter]. destruct (nonempty g); [|reflexivity].
  cbn [map]. now rewrite reorderSyll_gap.
Qed.

(** The first piece of a split is the gap followed by the code points up to
    the first consonant or independent vowel. *)
Lemma split_gap_first (s : str) :
  exists g0 rest,
    Forall (fun x => CONS_OR_INDEPVOWEL x = false) g0 /\
    forall gap, split_gap match_SYLLPAT gap s = (gap ++ g0) :: rest.
Proof.
  induction s as [|c s (g0 & rest & Hg & IH)].
  - exists [], []. split; [constructor|]. intros gap.
    rewrite split_gap_nil. now rewrite app_nil_r.
  - destruct (CONS_OR_INDEPVOWEL c) eqn:Hc.
    + exists [], ((c :: fst (syll_tail s)) ::
                  split_gap match_SYLLPAT [] (snd (syll_tail s))).
      split; [constructor|]. intros gap.
      rewrite (@split_gap_match _ match_SYLLPAT_sound gap _ _ _
                 (match_SYLLPAT_base c s Hc)).
      now rewrite app_nil_r.
    + exists (c :: g0), rest. split; [now constructor|]. intros gap.
      rewrite (split_gap_skip _ gap c s (match_SYLLPAT_none c s Hc)).
      rewrite IH. now rewrite <- app_assoc.
Qed.

Lemma reorder_segments_nil : reorder_segments [] = [].
Proof. reflexivity. Qed.

Lemma reorder_segments_gap (c : Z) (s : str) :
  CONS_OR_INDEPVOWEL c = false ->
  reorder_segments (c :: s) = c :: reorder_segments s.
Proof.
  intros Hc. destruct (split_gap_first s) as (g0 & rest & Hg & Hs).
  unfold reorder_segments, syllables_of. rewrite !re_split_split_gap.
  rewrite (split_gap_skip _ [] c s (match_SYLLPAT_none c s Hc)).
  rewrite !Hs. cbn [app filter nonempty map concat].
  rewrite reorderSyll_gap by now constructor.
  destruct g0 as [|x g0]; [reflexivity|].
  cbn [nonempty map concat]. rewrite reorderSyll_gap by exact Hg.
  reflexivity.
Qed.

Lemma reorder_segments_base (c : Z) (s : str) :
  CONS_OR_INDEPVOWEL c = true ->
  reorder_segments (c :: s) =
  reorderSyll (c :: fst (syll_tail s)) ++ reorder_segments (snd (syll_tail s)).
Proof.
  intros Hc. unfold reorder_segments, syllables_of.
  rewrite !re_split_split_gap.
  rewrite (@split_gap_match _ match_SYLLPAT_sound [] _ _ _
             (match_SYLLPAT_base c s Hc)).
  reflexivity.
Qed.

Lemma reorderSyll_head (c : Z) (tl : str) :
  exists w, reorderSyll (c :: tl) = c :: w.
Proof.
  destruct (is_real_syll (c :: tl)) eqn:E.
  - rewrite (reorderSyll_real c tl E). eauto.
  - rewrite (reorderSyll_not_real _ E). eauto.
Qed.

Lemma reorder_segments_head (c : Z) (s : str) :
  exists w, reorder_segments (c :: s) = c :: w.
Proof.
  destruct (CONS_OR_INDEPVOWEL c) eqn:Hc.
  - rewrite (reorder_segments_base c s Hc).
    destruct (reorderSyll_head c (fst (syll_tail s))) as [w ->]. cbn. eauto.
  - rewrite (reorder_segments_gap c s Hc). eauto.
Qed.

(** ** Where a syllable stops *)

Lemma coeng_ahead_span (s : str) :
  coeng_ahead s = re_match_class CONS_OR_INDEPVOWEL (snd (span is_COENG s)).
Proof.
  induction s as [|x s IH]; [reflexivity|].
  cbn [coeng_ahead]. rewrite span_cons. destruct (is_COENG x); [exact IH|].
  reflexivity.
Qed.

Lemma match_coeng_cluster_none (s : str) :
  match_coeng_cluster s = None <->
  re_match_class is_COENG s && coeng_ahead s = false.
Proof.
  destruct s as [|x s]; [now split|]. cbn [re_match_class coeng_ahead].
  destruct (is_COENG x) eqn:Hx.
  - cbn [andb]. rewrite coeng_ahead_span. unfold match_coeng_cluster.
    rewrite span_cons, Hx. destruct (snd (span is_COENG s)) as [|c r].
    + now split.
    + cbn [re_match_class]. destruct (CONS_OR_INDEPVOWEL c); now split.
  - rewrite (match_coeng_cluster_not_coeng x s Hx). now split.
Qed.

Lemma coeng_ahead_reorder (s : str) :
  coeng_ahead (reorder_segments s) = coeng_ahead s.
Proof.
  induction s as [|x s IH]; [reflexivity|].
  destruct (CONS_OR_INDEPVOWEL x) eqn:Hx.
  - destruct (reorder_segments_head x s) as [w ->]. cbn [coeng_ahead].
    replace (is_COENG x) with false by (symmetry; class_lia). reflexivity.
  - rewrite (reorder_segments_gap x s Hx). cbn [coeng_ahead].
    now rewrite IH.
Qed.

(** Reordering what follows a syllable does not let the syllable go on. *)
Lemma tail_stop_reorder (s : str) :
  tail_stop s -> tail_stop (reorder_segments s).
Proof.
  unfold tail_stop. rewrite !match_coeng_cluster_none.
  rewrite coeng_ahead_reorder. destruct s as [|x s]; [auto|].
  destruct (reorder_segments_head x s) as [w ->]. auto.
Qed.

(** ** One pass is final on a settled text *)

Lemma settled_inv (text : str) :
  settled text = true ->
  no_pair COENG RO text = true /\ ~ In 0x17C1%Z text.
Proof.
  unfold settled. intros H. apply andb_prop in H as [H1 H2].
  split; [exact H1|]. intros Hin. apply negb_true_iff in H2.
  assert (Hex : existsb (Z.eqb 0x17C1) text = true).
  { apply existsb_exists. exists 0x17C1%Z. split; [exact Hin | reflexivity]. }
  congruence.
Qed.

Lemma settled_intro (text : str) :
  no_pair COENG RO text = true -> ~ In 0x17C1%Z text -> settled text = true.
Proof.
  intros H1 H2. unfold settled. rewrite H1. cbn [andb].
  apply negb_true_iff. destruct (existsb _ text) eqn:E; [|reflexivity].
  apply existsb_exists in E as (x & Hx & Ex). apply Z.eqb_eq in Ex.
  subst x. contradiction.
Qed.

Lemma settled_app (p q : str) :
  settled (p ++ q) = true -> settled p = true /\ settled q = true.
Proof.
  intros H. apply settled_inv in H as [H1 H2].
  apply no_pair_app in H1 as [Hp Hq].
  split; apply settled_intro; auto; intros Hin; apply H2, in_or_app; auto.
Qed.

Lemma settled_tail (c : Z) (s : str) :
  settled (c :: s) = true -> settled s = true.
Proof. intros H. now apply (settled_app [c] s) in H as [_ H]. Qed.

Lemma filter_cons2 (A : Type) (f : A -> bool) (x y : A) (l : list A) :
  filter f (x :: y :: l) = filter f [x] ++ filter f (y :: l).
Proof. cbn [filter]. now destruct (f x). Qed.

(** The pieces of the reordered text are the reordered pieces of the text,
    and reordering them again changes nothing. *)
Lemma segments_stable (y : str) :
  settled y = true ->
  forall gap, Forall (fun x => CONS_OR_INDEPVOWEL x = false) gap ->
  let pieces := filter (@nonempty Z) (split_gap match_SYLLPAT gap y) in
  filter (@nonempty Z) (split_gap match_SYLLPAT gap (reorder_segments y)) =
    map reorderSyll pieces /\
  map reorderSyll (map reorderSyll pieces) = map reorderSyll pieces.
Proof.
  induction y as [y IH] using length_ind. intros Hy gap Hgap. cbv zeta.
  destruct y as [|c y].
  - rewrite reorder_segments_nil, split_gap_nil.
    rewrite !map_reorderSyll_gap by exact Hgap. now split.
  - pose proof (settled_tail c y Hy) as Hy'.
    destruct (CONS_OR_INDEPVOWEL c) eqn:Hc.
    + pose proof (syll_tail_app y) as Happ.
      destruct (syll_tail_items y) as [Hitems Hstop].
      set (tl := fst (syll_tail y)) in *.
      set (rest := snd (syll_tail y)) in *.
      rewrite <- Happ in Hy'.
      apply settled_app in Hy' as [Htl Hrest].
      apply settled_inv in Htl as [Hro HE].
      assert (Hlen : length rest < length (c :: y)).
      { rewrite <- Happ. cbn [length]. rewrite length_app. lia. }
      destruct (IH rest Hlen Hrest [] (Forall_nil _)) as [IH1 IH2].
      rewrite (reorder_segments_base c y Hc). fold tl rest.
      pose proof (settled_reorderSyll c tl Hc HE) as Hout.
      pose proof (settled_reorderSyll_again c tl Hc Hitems Hro HE) as Hagain.
      pose proof (settled_out_items tl Hitems Hro) as Hoi.
      remember (concat (squash (joined_buckets tl))) as out eqn:Eout.
      rewrite Hout. cbn [app].
      assert (Hm : match_SYLLPAT (c :: out ++ reorder_segments rest) =
                   Some (c :: out, reorder_segments rest)).
      { rewrite (match_SYLLPAT_base _ _ Hc).
        rewrite (syll_tail_items_app out (reorder_segments rest) Hoi
                   (tail_stop_reorder rest Hstop)).
        reflexivity. }
      rewrite (@split_gap_match _ match_SYLLPAT_sound gap _ _ _ Hm).
      rewrite (@split_gap_match _ match_SYLLPAT_sound gap _ _ _
                 (match_SYLLPAT_base c y Hc)).
      fold tl rest.
      rewrite !filter_cons2, !map_app.
      rewrite !map_reorderSyll_gap by exact Hgap.
      cbn [filter nonempty map].
      rewrite Hout, Hagain, IH1, IH2. now split.
    + rewrite (reorder_segments_gap c y Hc).
      rewrite (split_gap_skip _ gap c _ (match_SYLLPAT_none c _ Hc)).
      rewrite (split_gap_skip _ gap c _ (match_SYLLPAT_none c _ Hc)).
      apply IH; [cbn; lia | exact Hy' |].
      apply Forall_app. split; [exact Hgap | now constructor].
Qed.

Lemma reorder_segments_idempotent (y : str) :
  settled y = true ->
  reorder_segments (reorder_segments y) = reorder_segments y.
Proof.
  intros Hy. destruct (segments_stable y Hy [] (Forall_nil _)) as [H1 H2].
  cbv zeta in *. unfold reorder_segments at 1 3. unfold syllables_of.
  rewrite !re_split_split_gap. now rewrite H1, H2.
Qed.

(** ** Regularizing a reordered text *)

Lemma reorderSyll_in (s : str) (x : Z) :
  In x (reorderSyll s) -> In x s \/ x = 0x17BE%Z \/ x = 0x17C4%Z.
Proof.
  destruct (is_real_syll s) eqn:E.
  - destruct (is_real_syll_inv s E) as (c & tl & -> & _ & _).
    rewrite (reorderSyll_real c tl E). intros [H|H]; [left; now left|].
    apply fuse_in in H as [H|H]; [|now right].
    left. right. now apply squash_joined_in.
  - rewrite (reorderSyll_not_real _ E). now left.
Qed.

Lemma reorder_segments_in (y : str) (x : Z) :
  In x (reorder_segments y) -> In x y \/ x = 0x17BE%Z \/ x = 0x17C4%Z.
Proof.
  unfold reorder_segments. intros H. apply in_concat in H as (p & Hp & Hx).
  apply in_map_iff in Hp as (q & <- & Hq).
  apply reorderSyll_in in Hx as [Hx|Hx]; [left|now right].
  rewrite <- (syllables_of_concat y). apply in_concat. eauto.
Qed.

Lemma regularizeText_reordered (text : str) :
  regularizeText (reorder_segments (regularizeText text)) =
  reorder_segments (regularizeText text).
Proof.
  apply regularizeText_id. intros c Hc.
  apply reorder_segments_in in Hc as [Hc|[->| ->]]; try reflexivity.
  now apply (regularizeText_not_source text).
Qed.


(** * Further properties *)

(** ** [regularizeText] as a table *)

Lemma str_replace_1_app (a : Z) (new s t : str) :
  str_replace [a] new (s ++ t) = str_replace [a] new s ++ str_replace [a] new t.
Proof. rewrite !str_replace_1. apply flat_map_app. Qed.

Lemma regularizeText_app_parts (s t : str) :
  regularizeText (s ++ t) = regularizeText s ++ regularizeText t.
Proof. unfold regularizeText. now rewrite !str_replace_1_app. Qed.

Lemma regularizeText_single (c : Z) : regularizeText [c] = regularize_char c.
Proof.
  unfold regularize_char.
  repeat match goal with
  | |- context [(c =? ?v)%Z] =>
      destruct (Z.eqb_spec c v) as [->|?]; [reflexivity|]
  end.
  apply regularizeText_id. intros x [<-|[]].
  unfold is_source, regularize_sources. cbn [existsb].
  repeat match goal with
  | H : c <> ?v |- _ => apply Z.eqb_neq in H; rewrite H; clear H
  end.
  reflexivity.
Qed.

(** X1: the nine replacements in a row are one pass over the text that
    looks each code point up in the table. *)
Theorem regularizeText_table (text : str) :
  regularizeText text = flat_map regularize_char text.
Proof.
  induction text as [|c text IH]; [reflexivity|].
  change (c :: text) with ([c] ++ text).
  rewrite regularizeText_app_parts, regularizeText_single, IH. reflexivity.
Qed.

(** X2: regularizing a concatenation is regularizing its parts. *)
Theorem regularizeText_app (s t : str) :
  regularizeText (s ++ t) = regularizeText s ++ regularizeText t.
Proof. apply regularizeText_app_parts. Qed.

(** X3: regularizing twice is regularizing once. *)
Theorem regularizeText_idempotent (text : str) :
  regularizeText (regularizeText text) = regularizeText text.
Proof.
  apply regularizeText_id. intros c. apply regularizeText_not_source.
Qed.

(** X4: the texts [regularizeText] leaves alone are the texts without any
    of the nine source code points. *)
Theorem regularizeText_fixed_iff (text : str) :
  regularizeText text = text <->
  forallb (fun c => negb (is_source c)) text = true.
Proof.
  split.
  - intros H. rewrite <- H. apply regularizeText_avoids.
  - intros H. apply regularizeText_id. intros c Hc.
    rewrite forallb_forall in H. apply H in Hc. now apply negb_true_iff.
Qed.

(** ** Chunks and pieces *)

Lemma chunk_shape_nonempty (c : str) : chunk_shape c -> c <> [].
Proof.
  intros [ks x Hks _ _|ks x r Hks _ _ _|x _|g Hg _]; auto;
    try discriminate; destruct ks; try congruence; discriminate.
Qed.

(** X5: the chunks of a syllable tail are a partition of it: joined they
    give the tail back, and each is a coeng cluster (with or without a
    register shifter), one code point, or a run of line feeds. *)
Theorem chunks_of_partition (tail : str) :
  concat (chunks_of tail) = tail /\
  Forall (fun c => c <> [] /\ chunk_shape c) (chunks_of tail).
Proof.
  split; [apply chunks_of_concat|].
  pose proof (chunks_of_shape tail) as H. revert H. apply Forall_impl.
  intros c Hc. split; [now apply chunk_shape_nonempty | exact Hc].
Qed.

Lemma match_SYLLPAT_piece (s a b : str) :
  match_SYLLPAT s = Some (a, b) -> syllable_piece a.
Proof.
  destruct s as [|c s']; [rewrite match_SYLLPAT_scan; discriminate|].
  destruct (CONS_OR_INDEPVOWEL c) eqn:Hc.
  - rewrite (match_SYLLPAT_base c s' Hc). intros H. injection H as <- <-.
    exists c, (fst (syll_tail s')). repeat split; auto.
    apply syll_tail_items.
  - now rewrite (match_SYLLPAT_none c s' Hc).
Qed.

Lemma match_SYLLPAT_gap (c : Z) (s : str) :
  match_SYLLPAT (c :: s) = None -> CONS_OR_INDEPVOWEL c = false.
Proof.
  destruct (CONS_OR_INDEPVOWEL c) eqn:Hc; [|reflexivity].
  now rewrite (match_SYLLPAT_base c s Hc).
Qed.

(** X6: segmentation cuts a text into non-empty pieces, each a syllable or
    a gap without consonants and independent vowels. *)
Theorem syllables_of_pieces (text : str) :
  Forall (fun p => p <> [] /\ (syllable_piece p \/ gap_piece p))
         (syllables_of text).
Proof.
  unfold syllables_of. rewrite re_split_split_gap.
  pose proof (@split_gap_pieces match_SYLLPAT match_SYLLPAT_sound
                syllable_piece (fun x => CONS_OR_INDEPVOWEL x = false)
                match_SYLLPAT_piece match_SYLLPAT_gap text []
                (Forall_nil _)) as H.
  rewrite Forall_forall in *. intros p Hp.
  apply filter_In in Hp as [Hin Hne]. split.
  - destruct p; [discriminate | discriminate].
  - exact (H p Hin).
Qed.

(** X7: every bucket holds the chunks of its class in the order of the
    syllable, the coeng bucket with the runs of coengs collapsed; a chunk of
    no class is in no bucket. *)
Theorem classify_buckets (chunks : list str) :
  classify chunks =
  Buckets (filter (has_class DepVowel) chunks)
          (map collapse_coeng (filter (has_class CoengCluster) chunks))
          (filter (has_class NonSpacing) chunks)
          (filter (has_class Spacing) chunks)
          (filter (has_class RegShifter) chunks)
          (filter (has_class Robat) chunks).
Proof. apply classify_spec. Qed.

(** ** The loops *)

(** X8: the duplicate loop blanks exactly the entries that are equal to
    their successor; its writes never change what a later round reads. *)
Theorem dedup_loop_closed_form (chunks : list str) :
  dedup_loop chunks = dedup_adjacent chunks.
Proof. apply dedup_loop_spec. Qed.

(** X9: on a list without empty strings, the duplicate loop with the filter
    behind it changes nothing when run a second time. *)
Theorem dedup_loop_twice (chunks : list str) :
  Forall (fun c => c <> []) chunks ->
  filter (@nonempty Z) (dedup_loop (filter (@nonempty Z) (dedup_loop chunks))) =
  filter (@nonempty Z) (dedup_loop chunks).
Proof.
  intros H. rewrite !dedup_loop_spec. now apply (squash_idem chunks).
Qed.

Lemma dedup_loop_twice_witness :
  let chunks := [[0x17B6]; [0x17B6]; [0x17C6]; [0x17B6]; [0x17B6]]%Z in
  filter (@nonempty Z) (dedup_loop (filter (@nonempty Z) (dedup_loop chunks))) =
  filter (@nonempty Z) (dedup_loop chunks).
Proof.
  intros chunks. apply (dedup_loop_twice chunks).
  repeat constructor; discriminate.
Defined.

Lemma filter_partition_perm (A : Type) (f : A -> bool) (l : list A) :
  Permutation (filter (fun x => negb (f x)) l ++ filter f l) l.
Proof.
  induction l as [|x l IH]; [constructor|]. cbn [filter].
  destruct (f x); cbn [negb app].
  - apply Permutation_sym, Permutation_cons_app, Permutation_sym, IH.
  - now constructor.
Qed.

(** X10: the RO loop loses no cluster and adds none: without the strings
    it blanks, its result is a rearrangement of the bucket. *)
Theorem ro_loop_permutation (l : list str) :
  Forall (fun c => c <> []) l ->
  Permutation (filter (@nonempty Z) (ro_loop l)) l.
Proof.
  intros H. rewrite (ro_loop_order H).
  set (n := length l - 1).
  transitivity (filter not_COENG_RO l ++ filter re_match_COENG_RO l).
  - apply Permutation_app_head.
    rewrite <- (firstn_skipn n l) at 3. rewrite filter_app.
    apply Permutation_app_comm.
  - apply (filter_partition_perm _ re_match_COENG_RO l).
Qed.

Lemma ro_loop_permutation_witness :
  let l := [[0x17D2; 0x179A]; [0x17D2; 0x1780]; [0x17D2; 0x179A; 0x17C9]]%Z in
  Permutation (filter (@nonempty Z) (ro_loop l)) l.
Proof.
  intros l. apply (ro_loop_permutation l). repeat constructor; discriminate.
Defined.

(** ** The order of the reassembled chunks *)

Lemma squash_blank (l : list str) : squash ([] :: l) = squash l.
Proof.
  unfold squash. cbn [dedup_adjacent]. destruct l as [|y l]; [reflexivity|].
  now destruct (str_eqb y []).
Qed.

Lemma squash_ranked_filter (lo : nat) (l : list str) :
  ranked lo (filter (@nonempty Z) l) -> ranked lo (squash l).
Proof.
  revert lo; induction l as [|x l IH]; intros lo H; [exact I|].
  destruct x as [|z x].
  - rewrite squash_blank. now apply IH.
  - cbn [filter nonempty] in H. destruct H as [H1 H2]. apply IH in H2.
    destruct (squash_cons_cases (z :: x) l) as [E|E]; rewrite E.
    + now apply (ranked_weaken (rank (z :: x))).
    + now split.
Qed.

Lemma ro_moved_ranks (tail : str) (e : str) :
  In e (filter (@nonempty Z) (ro_moved (coeng (classify (chunks_of tail))))) ->
  rank e = 2.
Proof.
  intros H. apply filter_In in H as [H Hne].
  apply in_ro_moved in H as [->|H]; [discriminate|].
  pose proof (coeng_shapes tail) as Hs. rewrite Forall_forall in Hs.
  apply Hs, coeng_shape_head in H as [r ->]. reflexivity.
Qed.

Lemma filter_nonempty_ranks (k : chunk_class) (l : list str) :
  Forall (fun e => rank e = class_rank k)
         (filter (@nonempty Z) (filter (has_class k) l)).
Proof. apply Forall_filter, filter_has_class_rank. Qed.

Lemma joined_buckets_order (tail : str) :
  ranked 0 (filter (@nonempty Z) (joined_buckets tail)).
Proof.
  unfold joined_buckets. cbv zeta.
  assert (Hco : Forall (fun e => rank e = 2)
            (filter (@nonempty Z)
               (ro_moved (coeng (classify (chunks_of tail))))))
    by (apply Forall_forall; apply ro_moved_ranks).
  rewrite classify_spec in *. cbn [rs robat coeng dv nonsp sp] in *.
  rewrite !filter_app.
  apply (ranked_app 0); [apply (filter_nonempty_ranks RegShifter) | lia |].
  apply (ranked_app 1); [apply (filter_nonempty_ranks Robat) | lia |].
  apply (ranked_app 2); [exact Hco | lia |].
  apply (ranked_app 3); [apply (filter_nonempty_ranks DepVowel) | lia |].
  apply (ranked_app 4); [apply (filter_nonempty_ranks NonSpacing) | lia |].
  rewrite <- (app_nil_r (filter _ (filter _ _))).
  apply (ranked_app 5); [apply (filter_nonempty_ranks Spacing) | lia |].
  exact I.
Qed.

Lemma joined_buckets_ranks (tail : str) :
  Forall (fun e => rank e <= 5) (filter (@nonempty Z) (joined_buckets tail)).
Proof.
  unfold joined_buckets. cbv zeta.
  assert (Hco : Forall (fun e => rank e = 2)
            (filter (@nonempty Z)
               (ro_moved (coeng (classify (chunks_of tail))))))
    by (apply Forall_forall; apply ro_moved_ranks).
  rewrite classify_spec in *. cbn [rs robat coeng dv nonsp sp] in *.
  rewrite !filter_app.
  repeat (apply Forall_app; split);
    try (eapply Forall_impl; [|apply filter_nonempty_ranks];
         intros e He; cbv beta in He; rewrite He; cbn; lia).
  eapply Forall_impl; [|exact Hco]. intros e He. cbv beta in He. lia.
Qed.

Lemma squash_in_filter (l : list str) (e : str) :
  In e (squash l) -> In e (filter (@nonempty Z) l).
Proof.
  intros H. apply filter_In. split; [now apply squash_incl|].
  unfold squash in H. now apply filter_In in H as [_ H].
Qed.

(** X11: behind the base of a real syllable the reassembled chunks stand
    in the order of the join: register shifters, robats, coeng clusters,
    dependent vowels, non-spacing diacritics, spacing diacritics; every one
    of them is of one of these six classes. *)
Theorem reassembled_chunks_order (syll : str) :
  is_real_syll syll = true ->
  exists l,
    reassembled_chunks syll = firstn 1 syll :: l /\
    ranked 0 l /\ Forall (fun e => rank e <= 5) l.
Proof.
  intros H. destruct (is_real_syll_inv syll H) as (c & tail & -> & _ & Hc).
  exists (squash (joined_buckets tail)). split; [|split].
  - now apply reassembled_chunks_real.
  - apply squash_ranked_filter, joined_buckets_order.
  - apply Forall_forall. intros e He. apply squash_in_filter in He.
    pose proof (joined_buckets_ranks tail) as Hr.
    rewrite Forall_forall in Hr. now apply Hr.
Qed.

Lemma reassembled_chunks_order_witness :
  let syll := [0x1780; 0x17C6; 0x17B6; 0x17D2; 0x179A; 0x17D2; 0x1781;
               0x17CC; 0x200B; 0x17C9; 0x17C7]%Z in
  exists l,
    reassembled_chunks syll = firstn 1 syll :: l /\
    ranked 0 l /\ Forall (fun e => rank e <= 5) l.
Proof.
  intros syll. apply (reassembled_chunks_order syll). reflexivity.
Defined.

(** ** Code points of the output *)

Lemma joined_buckets_khmer (tail e : str) (x : Z) :
  In e (joined_buckets tail) -> In x e -> in_khmer x = true.
Proof.
  unfold joined_buckets. cbv zeta. intros He Hx.
  pose proof (rs_single tail) as Hrs. pose proof (robat_single tail) as Hrb.
  pose proof (coeng_shapes tail) as Hco. pose proof (dv_single tail) as Hdv.
  pose proof (nonsp_single tail) as Hns. pose proof (sp_single tail) as Hsp.
  rewrite Forall_forall in *. rewrite !in_app_iff in He.
  unfold in_khmer.
  destruct He as [H|[H|[H|[H|[H|H]]]]].
  - apply Hrs in H as (y & -> & Hy). destruct Hx as [<-|[]]. class_lia.
  - apply Hrb in H as (y & -> & Hy). destruct Hx as [<-|[]]. class_lia.
  - apply in_ro_moved in H as [->|H]; [contradiction|].
    apply Hco in H. destruct H; cbn in Hx; intuition (subst; class_lia).
  - apply Hdv in H as (y & -> & Hy). destruct Hx as [<-|[]]. class_lia.
  - apply Hns in H as (y & -> & Hy). destruct Hx as [<-|[]]. class_lia.
  - apply Hsp in H as (y & -> & Hy). destruct Hx as [<-|[]]. class_lia.
Qed.

(** X12: the output for a real syllable has code points of the Khmer
    block only: zero-width elements and every other code point of no class
    are dropped from the tail. *)
Theorem reorderSyll_khmer_only (syll : str) :
  is_real_syll syll = true ->
  forallb in_khmer (reorderSyll syll) = true.
Proof.
  intros H. destruct (is_real_syll_inv syll H) as (c & tail & -> & _ & Hc).
  rewrite (reorderSyll_real c tail H). apply forallb_forall.
  intros x [<-|Hx].
  - unfold in_khmer. class_lia.
  - apply fuse_in in Hx as [Hx|Hx]; [|unfold in_khmer; class_lia].
    apply in_concat in Hx as (e & He & Hx). apply squash_incl in He.
    now apply (joined_buckets_khmer tail e).
Qed.

Lemma reorderSyll_khmer_only_witness :
  forallb in_khmer
    (reorderSyll [0x1780; 0x200B; 0x41; 0x17B6; 0x0A; 0x17D2; 0x1781]%Z) = true.
Proof. apply reorderSyll_khmer_only. reflexivity. Defined.

(** X13: reordering a syllable invents no code point: what it returns
    was in its argument or is one of the two fused vowels U+17BE and
    U+17C4. *)
Theorem reorderSyll_code_points (syll : str) :
  forallb (fun x => existsb (Z.eqb x) syll || (x =? 0x17BE)%Z || (x =? 0x17C4)%Z)
          (reorderSyll syll) = true.
Proof.
  apply forallb_forall. intros x Hx.
  apply reorderSyll_in in Hx as [Hx|[->| ->]].
  - apply orb_true_iff. left. apply orb_true_iff. left.
    apply existsb_exists. exists x. split; [exact Hx | apply Z.eqb_refl].
  - cbn. now rewrite orb_true_r.
  - cbn. now rewrite !orb_true_r.
Qed.

(** ** The vowel replacements and the pairs they remove *)

Lemma no_pair_cons_other (a b h : Z) (t : str) :
  h <> a -> no_pair a b (h :: t) = no_pair a b t.
Proof.
  intros Hh. destruct t as [|y t]; [reflexivity|]. rewrite no_pair_cons.
  replace (h =? a)%Z with false by (symmetry; now apply Z.eqb_neq).
  reflexivity.
Qed.

Lemma str_replace_2_first (a b o y : Z) (s : str) :
  exists t, str_replace [a; b] [o] (y :: s) = y :: t \/
            str_replace [a; b] [o] (y :: s) = o :: t.
Proof.
  destruct s as [|z s].
  - rewrite str_replace_2_one. eauto.
  - rewrite str_replace_2_cons. destruct ((a =? y) && (b =? z))%Z; cbn; eauto.
Qed.

(** A replacement by a code point that is neither of a pair makes no such
    pair. *)
Lemma str_replace_2_keeps (x y a b o : Z) (s : str) :
  o <> x -> o <> y -> no_pair x y s = true ->
  no_pair x y (str_replace [a; b] [o] s) = true.
Proof.
  intros Hx Hy. induction s as [s IH] using length_ind. intros H.
  destruct s as [|p [|q s]].
  - reflexivity.
  - now rewrite str_replace_2_one.
  - pose proof (no_pair_tail _ _ _ _ H) as Ht.
    rewrite str_replace_2_cons. destruct ((a =? p) && (b =? q))%Z.
    + cbn [app]. rewrite no_pair_cons_other by exact Hx.
      apply IH; [cbn; lia|]. now apply (no_pair_tail _ _ q).
    + assert (IHt := IH (q :: s) ltac:(cbn; lia) Ht).
      rewrite no_pair_cons in H. apply andb_prop in H as [Hpq _].
      destruct (str_replace_2_first a b o q s) as [t [E|E]];
        rewrite E in IHt |- *; rewrite no_pair_cons, IHt, andb_true_r.
      * exact Hpq.
      * replace (o =? y)%Z with false by (symmetry; now apply Z.eqb_neq).
        now rewrite andb_false_r.
Qed.

(** After the replacement of a pair by another code point the pair is
    gone. *)
Lemma str_replace_2_clears (a b o : Z) (s : str) :
  o <> a -> o <> b -> no_pair a b (str_replace [a; b] [o] s) = true.
Proof.
  intros Ha Hb. induction s as [s IH] using length_ind.
  destruct s as [|p [|q s]].
  - reflexivity.
  - now rewrite str_replace_2_one.
  - rewrite str_replace_2_cons. destruct ((a =? p) && (b =? q))%Z eqn:Epq.
    + cbn [app]. rewrite no_pair_cons_other by exact Ha.
      apply IH. cbn; lia.
    + assert (IHt := IH (q :: s) ltac:(cbn; lia)).
      destruct (str_replace_2_first a b o q s) as [t [E|E]];
        rewrite E in IHt |- *; rewrite no_pair_cons, IHt, andb_true_r.
      * now rewrite (Z.eqb_sym p a), (Z.eqb_sym q b), Epq.
      * replace (o =? b)%Z with false by (symmetry; now apply Z.eqb_neq).
        now rewrite andb_false_r.
Qed.

(** Without the pair the replacement changes nothing. *)
Lemma str_replace_2_id (a b : Z) (new s : str) :
  no_pair a b s = true -> str_replace [a; b] new s = s.
Proof.
  induction s as [|p s IH]; intros H; [reflexivity|].
  destruct s as [|q s]; [apply str_replace_2_one|].
  rewrite str_replace_2_cons. rewrite no_pair_cons in H.
  apply andb_prop in H as [Hpq Ht].
  rewrite (Z.eqb_sym a p), (Z.eqb_sym b q).
  apply negb_true_iff in Hpq. rewrite Hpq. f_equal. now apply IH.
Qed.

Lemma fuse_clears (s : str) : fusion_free (fuse s) = true.
Proof.
  unfold fusion_free, fuse, fuse_e_aa, fuse_ii_e, fuse_e_ii.
  apply andb_true_intro; split; [apply andb_true_intro; split|].
  - apply str_replace_2_keeps; [discriminate | discriminate|].
    apply str_replace_2_keeps; [discriminate | discriminate|].
    apply str_replace_2_clears; discriminate.
  - apply str_replace_2_keeps; [discriminate | discriminate|].
    apply str_replace_2_clears; discriminate.
  - apply str_replace_2_clears; discriminate.
Qed.

Lemma fuse_fixed (s : str) : fusion_free s = true -> fuse s = s.
Proof.
  unfold fusion_free. intros H.
  apply andb_prop in H as [H H3]. apply andb_prop in H as [H1 H2].
  unfold fuse, fuse_e_aa, fuse_ii_e, fuse_e_ii.
  now rewrite (str_replace_2_id _ _ _ s H1), (str_replace_2_id _ _ _ s H2),
    (str_replace_2_id _ _ _ s H3).
Qed.

(** X14: after the three replacements none of the three pairs is left:
    U+17C1 U+17B8, U+17B8 U+17C1 and U+17C1 U+17B6 do not occur in the
    result, whatever the input: a later replacement never builds a pair an
    earlier one removed. *)
Theorem fuse_leaves_no_pair (s : str) :
  no_pair 0x17C1 0x17B8 (fuse s) = true /\
  no_pair 0x17B8 0x17C1 (fuse s) = true /\
  no_pair 0x17C1 0x17B6 (fuse s) = true.
Proof.
  pose proof (fuse_clears s) as H. unfold fusion_free in H.
  apply andb_prop in H as [H H3]. apply andb_prop in H as [H1 H2]. auto.
Qed.

(** X15: the three replacements leave a string as it is exactly when it
    has none of the three pairs; so applying them twice is applying them
    once. *)
Theorem fuse_fixed_iff (s : str) :
  (fuse s = s <-> fusion_free s = true) /\ fuse (fuse s) = fuse s.
Proof.
  split; [split|].
  - intros H. rewrite <- H. apply fuse_clears.
  - apply fuse_fixed.
  - apply fuse_fixed, fuse_clears.
Qed.

(** X16: the output for a real syllable has none of the three vowel pairs
    of the replacements. *)
Theorem reorderSyll_fusion_free (syll : str) :
  is_real_syll syll = true -> fusion_free (reorderSyll syll) = true.
Proof.
  intros H. destruct (is_real_syll_inv syll H) as (c & tail & -> & _ & Hc).
  rewrite (reorderSyll_real c tail H).
  pose proof (fuse_clears (concat (squash (joined_buckets tail)))) as Hf.
  unfold fusion_free in *.
  rewrite !no_pair_cons_other; [exact Hf | | |];
    intros ->; revert Hc; class_unfold; cbn; discriminate.
Qed.

Lemma reorderSyll_fusion_free_witness :
  fusion_free (reorderSyll [0x1780; 0x17B8; 0x17C1; 0x17B8; 0x17C1; 0x17B6]%Z)
  = true.
Proof. apply reorderSyll_fusion_free. reflexivity. Defined.

(** ** The output of [reorderText] *)

(** X17: the output of [reorderText] is regularized text: regularizing it
    again changes nothing. *)
Theorem reorderText_regular (text : str) :
  regularizeText (reorderText text) = reorderText text.
Proof.
  change (reorderText text) with (reorder_segments (regularizeText text)).
  apply regularizeText_reordered.
Qed.

(** X18: [reorderText] invents no code point: a code point of the output
    is a code point of the regularized text or one of the two fused vowels
    U+17BE and U+17C4. *)
Theorem reorderText_code_points (text : str) :
  forallb (fun x => existsb (Z.eqb x) (regularizeText text)
                    || (x =? 0x17BE)%Z || (x =? 0x17C4)%Z)
          (reorderText text) = true.
Proof.
  apply forallb_forall. intros x Hx.
  change (reorderText text) with (reorder_segments (regularizeText text)) in Hx.
  apply reorder_segments_in in Hx as [Hx|[->| ->]].
  - apply orb_true_iff. left. apply orb_true_iff. left.
    apply existsb_exists. exists x. split; [exact Hx | apply Z.eqb_refl].
  - cbn. now rewrite orb_true_r.
  - cbn. now rewrite !orb_true_r.
Qed.

(** ** Texts put together *)

Lemma last_cons_cons (x y : Z) (l : str) (d : Z) :
  last (x :: y :: l) d = last (y :: l) d.
Proof. reflexivity. Qed.

Lemma last_app_nonempty (t r : str) (d : Z) :
  r <> [] -> last (t ++ r) d = last r d.
Proof.
  intros Hr. induction t as [|x t IH]; [reflexivity|].
  cbn [app]. destruct (t ++ r) as [|y l] eqn:E.
  - apply app_eq_nil in E as [_ E]. congruence.
  - now rewrite last_cons_cons.
Qed.

Lemma coeng_ahead_app (r w : str) :
  r <> [] -> last r 0%Z <> COENG -> coeng_ahead (r ++ w) = coeng_ahead r.
Proof.
  induction r as [|x r IH]; intros Hr Hl; [congruence|].
  cbn [app coeng_ahead]. destruct (is_COENG x) eqn:Hx; [|reflexivity].
  destruct r as [|y r].
  - cbn in Hl. exfalso. apply Hl. class_lia.
  - apply IH; [discriminate|]. now rewrite last_cons_cons in Hl.
Qed.

Lemma tail_stop_base (c : Z) (v : str) :
  CONS_OR_INDEPVOWEL c = true -> tail_stop (c :: v).
Proof.
  intros Hc. split.
  - apply match_coeng_cluster_not_coeng. class_lia.
  - cbn [re_match_class]. class_lia.
Qed.

Lemma tail_stop_app (r w : str) :
  tail_stop r -> r <> [] -> last r 0%Z <> COENG -> tail_stop (r ++ w).
Proof.
  unfold tail_stop. rewrite !match_coeng_cluster_none. intros [H1 H2] Hr Hl.
  rewrite (coeng_ahead_app r w Hr Hl).
  destruct r as [|x r]; [congruence|]. now split.
Qed.

(** Cutting a text before a consonant or an independent vowel, and not
    behind a coeng, cuts between two pieces of the segmentation. *)
Lemma reorder_segments_app (u : str) (c : Z) (v : str) :
  CONS_OR_INDEPVOWEL c = true -> last u 0%Z <> COENG ->
  reorder_segments (u ++ c :: v) =
  reorder_segments u ++ reorder_segments (c :: v).
Proof.
  intros Hc. induction u as [u IH] using length_ind. intros Hl.
  destruct u as [|x u]; [reflexivity|].
  assert (Hlast : forall r t, u = t ++ r -> r <> [] -> last r 0%Z <> COENG).
  { intros r t -> Hr. rewrite <- (last_app_nonempty (x :: t) r 0%Z Hr).
    exact Hl. }
  cbn [app]. destruct (CONS_OR_INDEPVOWEL x) eqn:Hx.
  - rewrite !(reorder_segments_base x) by exact Hx.
    pose proof (syll_tail_app u) as Happ.
    destruct (syll_tail_items u) as [Hit Hst].
    destruct (syll_tail u) as [t r] eqn:E. cbn [fst snd] in *.
    assert (Hz : tail_stop (r ++ c :: v)).
    { destruct r as [|y r].
      - now apply tail_stop_base.
      - apply tail_stop_app; [exact Hst | discriminate|].
        apply (Hlast (y :: r) t); [now symmetry | discriminate]. }
    assert (Ht : syll_tail (u ++ c :: v) = (t, r ++ c :: v)).
    { rewrite <- Happ, <- app_assoc. now apply syll_tail_items_app. }
    rewrite Ht. cbn [fst snd]. rewrite <- app_assoc. f_equal.
    apply IH.
    + rewrite <- Happ. cbn [length]. rewrite length_app. lia.
    + destruct r as [|y r]; [cbn; class_lia|].
      apply (Hlast (y :: r) t); [now symmetry | discriminate].
  - rewrite !(reorder_segments_gap x) by exact Hx. cbn [app]. f_equal.
    apply IH; [cbn; lia|].
    destruct u as [|y u]; [cbn; class_lia|].
    apply (Hlast (y :: u) []); [reflexivity | discriminate].
Qed.

Lemma regularize_char_base (c : Z) :
  CONS_OR_INDEPVOWEL c = true ->
  exists c' w, regularize_char c = c' :: w /\ CONS_OR_INDEPVOWEL c' = true.
Proof.
  intros Hc. unfold regularize_char.
  repeat match goal with
  | |- context [(c =? ?v)%Z] =>
      destruct (Z.eqb_spec c v) as [->|?];
        [first [ discriminate Hc | eexists; eexists; split; reflexivity ]|]
  end.
  eauto.
Qed.

(** X19: a text cut before a consonant or an independent vowel is
    reordered part by part, unless the regularized first part ends in a
    coeng. *)
Theorem reorderText_app (a : str) (c : Z) (b : str) :
  CONS_OR_INDEPVOWEL c = true ->
  last (regularizeText a) 0%Z <> COENG ->
  reorderText (a ++ c :: b) = reorderText a ++ reorderText (c :: b).
Proof.
  intros Hc Hl.
  change (reorderText ?t) with (reorder_segments (regularizeText t)).
  rewrite regularizeText_app_parts.
  change (c :: b) with ([c] ++ b).
  rewrite (regularizeText_app_parts [c] b), regularizeText_single.
  destruct (regularize_char_base c Hc) as (c' & w & -> & Hc').
  cbn [app]. now apply reorder_segments_app.
Qed.

Lemma reorderText_app_witness :
  reorderText ([0x1780; 0x17C6; 0x17B6; 0x20] ++ 0x1781 :: [0x17C7; 0x17B6])%Z =
  reorderText [0x1780; 0x17C6; 0x17B6; 0x20]%Z ++
  reorderText (0x1781 :: [0x17C7; 0x17B6])%Z.
Proof.
  apply reorderText_app; [reflexivity | vm_compute; discriminate].
Defined.

(** X20: what stands before the first consonant or independent vowel of
    the regularized text is passed on as regularized. *)
Theorem reorderText_prefix (a b : str) :
  forallb (fun x => negb (CONS_OR_INDEPVOWEL x)) (regularizeText a) = true ->
  reorderText (a ++ b) = regularizeText a ++ reorderText b.
Proof.
  intros H. rewrite forallb_forall in H.
  change (reorderText ?t) with (reorder_segments (regularizeText t)).
  rewrite regularizeText_app_parts.
  induction (regularizeText a) as [|x u IH]; [reflexivity|].
  cbn [app]. rewrite reorder_segments_gap.
  - f_equal. apply IH. intros y Hy. apply H. now right.
  - apply negb_true_iff, H. now left.
Qed.

Lemma reorderText_prefix_witness :
  reorderText ([0x20; 0x17B6; 0x17B4; 0x17D3; 0x41] ++ [0x1780; 0x17C6; 0x17B6])%Z =
  regularizeText [0x20; 0x17B6; 0x17B4; 0x17D3; 0x41]%Z ++
  reorderText [0x1780; 0x17C6; 0x17B6]%Z.
Proof. apply reorderText_prefix. reflexivity. Defined.

(** ** A second pass over a syllable *)

(** X21: a string that [SYLLPAT] matches as a whole, without a coeng
    directly before RO and without U+17C1, is in its final form after one
    call of [reorderSyll]: a second call changes nothing. *)
Theorem reorderSyll_idempotent_settled (syll : str) :
  match_SYLLPAT syll = Some (syll, []) -> settled syll = true ->
  reorderSyll (reorderSyll syll) = reorderSyll syll.
Proof.
  intros Hm Hs. destruct syll as [|c s]; [discriminate|].
  destruct (CONS_OR_INDEPVOWEL c) eqn:Hc;
    [|rewrite (match_SYLLPAT_none c s Hc) in Hm; discriminate].
  rewrite (match_SYLLPAT_base c s Hc) in Hm.
  destruct (syll_tail_items s) as [Hit _].
  injection Hm as Hfst _. rewrite Hfst in Hit.
  apply settled_inv in Hs as [Hro HE].
  apply no_pair_tail in Hro.
  assert (HE' : ~ In 0x17C1%Z s) by (intros Hin; apply HE; now right).
  rewrite (settled_reorderSyll c s Hc HE').
  now apply settled_reorderSyll_again.
Qed.

Lemma reorderSyll_idempotent_settled_witness :
  let syll := [0x1780; 0x17C6; 0x17B6; 0x17D2; 0x1781; 0x17C9; 0x200B]%Z in
  reorderSyll (reorderSyll syll) = reorderSyll syll.
Proof.
  intros syll. apply (reorderSyll_idempotent_settled syll); reflexivity.
Defined.

(** X22: on such a text reordering moves no boundary: the pieces of the
    output are the reordered pieces of the regularized text. *)
Theorem reorderText_keeps_boundaries (text : str) :
  settled (regularizeText text) = true ->
  syllables_of (reorderText text) =
  map reorderSyll (syllables_of (regularizeText text)).
Proof.
  intros H.
  destruct (segments_stable (regularizeText text) H [] (Forall_nil _))
    as [H1 _].
  cbv zeta in H1. unfold syllables_of. rewrite !re_split_split_gap.
  exact H1.
Qed.

Lemma reorderText_keeps_boundaries_witness :
  let text := [0x20; 0x1780; 0x17C6; 0x17B6; 0x17D2; 0x1781; 0x41; 0x17A3;
               0x17C7; 0x17B8]%Z in
  syllables_of (reorderText text) =
  map reorderSyll (syllables_of (regularizeText text)).
Proof.
  intros text. apply (reorderText_keeps_boundaries text). reflexivity.
Defined.

(** ** The place of the robat in the output *)

Lemma squash_keeps (x : str) (l : list str) :
  In x l -> x <> [] -> In x (squash l).
Proof.
  intros Hin Hx. induction l as [|a l IH]; [contradiction|].
  destruct Hin as [->|Hin].
  - destruct l as [|y l]; [rewrite squash_one by exact Hx; now left|].
    destruct (list_eq_dec Z.eq_dec y x) as [->|Hne].
    + rewrite squash_cons_drop. apply IH. now left.
    + rewrite squash_cons_keep by assumption. now left.
  - destruct (squash_cons_cases a l) as [E|E]; rewrite E.
    + now apply IH.
    + right. now apply IH.
Qed.

(** C4, as the source has it: a chunk that is the robat U+17CC goes to the
    robat bucket, not to the non-spacing one.  The output is the base, then
    the register-shifter bucket with its adjacent duplicates removed, which
    holds every register shifter that is a chunk of its own, then one robat,
    then the coeng clusters, dependent vowels, non-spacing and spacing
    diacritics, among which there is no robat. *)
Theorem robat_chunk_placement (syll : str) :
  is_real_syll syll = true -> In [ROBAT] (chunks_of (skipn 1 syll)) ->
  let b := classify (chunks_of (skipn 1 syll)) in
  let pre := concat (filter (@nonempty Z) (dedup_loop (rs b))) in
  let post :=
    fuse (concat (filter (@nonempty Z)
            (dedup_loop (ro_loop (coeng b) ++ dv b ++ nonsp b ++ sp b)))) in
  In [ROBAT] (robat b) /\ ~ In [ROBAT] (nonsp b) /\
  reorderSyll syll = firstn 1 syll ++ pre ++ ROBAT :: post /\
  forallb REGSHIFTER pre = true /\
  (forall r, REGSHIFTER r = true -> In [r] (chunks_of (skipn 1 syll)) ->
             In r pre) /\
  ~ In ROBAT post.
Proof.
  intros Hreal Hin b pre post.
  destruct (is_real_syll_inv syll Hreal) as (c & tail & -> & _ & Hc).
  cbn [skipn firstn] in *.
  assert (Epre : pre = concat (squash (rs b))).
  { unfold pre, squash. now rewrite dedup_loop_spec. }
  assert (Epost : post = fuse (concat (squash
            (ro_moved (coeng b) ++ dv b ++ nonsp b ++ sp b)))).
  { unfold post, squash. now rewrite dedup_loop_spec, ro_loop_spec. }
  rewrite Epre, Epost. clear Epre Epost pre post.
  set (rest := ro_moved (coeng b) ++ dv b ++ nonsp b ++ sp b).
  assert (Hpre : forallb REGSHIFTER (concat (squash (rs b))) = true).
  { apply forallb_forall. intros x Hx.
    apply in_concat in Hx as (y & Hy & Hx). apply squash_incl in Hy.
    pose proof (rs_single tail) as Hrs. fold b in Hrs.
    rewrite Forall_forall in Hrs. apply Hrs in Hy as (z & -> & Hz).
    now destruct Hx as [<-|[]]. }
  split; [|split; [|split; [|split; [|split]]]].
  - unfold b. rewrite classify_spec. cbn [robat]. apply filter_In.
    split; [exact Hin | reflexivity].
  - unfold b. rewrite classify_spec. cbn [nonsp]. intros H.
    apply filter_In in H as [_ H]. discriminate.
  - rewrite (reorderSyll_real _ _ Hreal).
    rewrite (squash_joined_robat _ Hin). fold b. fold rest.
    rewrite !concat_app. cbn [concat app].
    f_equal. rewrite fuse_app_skip.
    + f_equal; apply fuse_cons; class_lia.
    + intros H. rewrite forallb_forall in Hpre. apply Hpre in H. class_lia.
    + intros H. rewrite forallb_forall in Hpre. apply Hpre in H. class_lia.
  - exact Hpre.
  - intros r Hr Hch. apply in_concat. exists [r]. split; [|now left].
    apply squash_keeps; [|discriminate].
    unfold b. rewrite classify_spec. cbn [rs]. apply filter_In.
    split; [exact Hch|]. apply rank_has_class. cbn [class_rank].
    apply rank_regshifter. exact Hr.
  - intros H. apply fuse_in in H as [H|H]; [|class_lia].
    apply in_concat in H as (y & Hy & Hx). apply squash_incl in Hy.
    now apply (@after_robat_chars tail y ROBAT).
Qed.

Lemma robat_chunk_placement_witness :
  let syll := [0x1780; 0x17B6; 0x17CC; 0x17C9; 0x17D2; 0x1781; 0x17CA;
               0x17CC; 0x17C9]%Z in
  let b := classify (chunks_of (skipn 1 syll)) in
  let pre := concat (filter (@nonempty Z) (dedup_loop (rs b))) in
  let post :=
    fuse (concat (filter (@nonempty Z)
            (dedup_loop (ro_loop (coeng b) ++ dv b ++ nonsp b ++ sp b)))) in
  In [ROBAT] (robat b) /\ ~ In [ROBAT] (nonsp b) /\
  reorderSyll syll = firstn 1 syll ++ pre ++ ROBAT :: post /\
  forallb REGSHIFTER pre = true /\
  (forall r, REGSHIFTER r = true -> In [r] (chunks_of (skipn 1 syll)) ->
             In r pre) /\
  ~ In ROBAT post.
Proof.
  intros syll. apply (robat_chunk_placement syll); [reflexivity|].
  vm_compute. tauto.
Defined.

(** C4, as the claim states it, fails: the robat chunk is not in the
    non-spacing bucket, and it comes out before the dependent vowel. *)
Lemma robat_not_nonspacing :
  let syll := [0x1780; 0x17B6; 0x17CC]%Z in
  is_real_syll syll = true /\
  In [ROBAT] (chunks_of (skipn 1 syll)) /\
  NONSPACING ROBAT = false /\
  nonsp (classify (chunks_of (skipn 1 syll))) = [] /\
  robat (classify (chunks_of (skipn 1 syll))) = [[ROBAT]] /\
  reorderSyll syll = [0x1780; 0x17CC; 0x17B6]%Z.
Proof.
  cbv zeta. repeat split; try reflexivity. vm_compute. tauto.
Qed.

(** ** When a step removes code points *)

Lemma str_replace_2_shorter (a b o : Z) (s : str) :
  no_pair a b s = false -> length (str_replace [a; b] [o] s) < length s.
Proof.
  induction s as [s IH] using length_ind. intros H.
  destruct s as [|x [|y s]]; try discriminate.
  rewrite str_replace_2_cons. rewrite no_pair_cons in H.
  rewrite (Z.eqb_sym x a), (Z.eqb_sym y b) in H.
  destruct ((a =? x) && (b =? y))%Z.
  - cbn [app length]. pose proof (str_replace_2_length a b o s). lia.
  - cbn [negb andb] in H. specialize (IH (y :: s) ltac:(cbn; lia) H).
    cbn [length] in *. lia.
Qed.

Lemma str_replace_2_length_eq (a b o : Z) (s : str) :
  length (str_replace [a; b] [o] s) = length s -> no_pair a b s = true.
Proof.
  intros H. destruct (no_pair a b s) eqn:E; [reflexivity|].
  pose proof (str_replace_2_shorter a b o s E). lia.
Qed.

(** The replacements keep the length exactly when there is no pair. *)
Lemma fuse_length_eq (s : str) :
  length (fuse s) = length s <-> fusion_free s = true.
Proof.
  split; [|intros H; now rewrite fuse_fixed].
  unfold fuse, fuse_e_aa, fuse_ii_e, fuse_e_ii, fusion_free. intros H.
  pose proof (str_replace_2_length 0x17C1 0x17B8 0x17BE s) as L1.
  pose proof (str_replace_2_length 0x17B8 0x17C1 0x17BE
                (str_replace [0x17C1; 0x17B8]%Z [0x17BE%Z] s)) as L2.
  pose proof (str_replace_2_length 0x17C1 0x17B6 0x17C4
                (str_replace [0x17B8; 0x17C1]%Z [0x17BE%Z]
                   (str_replace [0x17C1; 0x17B8]%Z [0x17BE%Z] s))) as L3.
  assert (H1 : no_pair 0x17C1 0x17B8 s = true)
    by (apply (str_replace_2_length_eq _ _ 0x17BE%Z); lia).
  rewrite (str_replace_2_id _ _ [0x17BE%Z] s H1) in *.
  assert (H2 : no_pair 0x17B8 0x17C1 s = true)
    by (apply (str_replace_2_length_eq _ _ 0x17BE%Z); lia).
  rewrite (str_replace_2_id _ _ [0x17BE%Z] s H2) in *.
  assert (H3 : no_pair 0x17C1 0x17B6 s = true)
    by (apply (str_replace_2_length_eq _ _ 0x17C4%Z); lia).
  now rewrite H1, H2, H3.
Qed.

(** The duplicate loop keeps the size exactly when no entry that is not
    empty is equal to the next one. *)
Lemma no_repeat_cons (x y : str) (l : list str) :
  no_repeat (x :: y :: l) =
  negb (nonempty x && str_eqb y x) && no_repeat (y :: l).
Proof. reflexivity. Qed.

Lemma dedup_adjacent_cons2 (x y : str) (l : list str) :
  dedup_adjacent (x :: y :: l) =
  (if str_eqb y x then [] else x) :: dedup_adjacent (y :: l).
Proof. reflexivity. Qed.

Lemma dedup_adjacent_size_eq (l : list str) :
  size (dedup_adjacent l) = size l <-> no_repeat l = true.
Proof.
  induction l as [|x l IH]; [now split|].
  destruct l as [|y l]; [now split|].
  rewrite no_repeat_cons, dedup_adjacent_cons2.
  pose proof (dedup_adjacent_size (y :: l)) as Hle.
  rewrite (size_cons x (y :: l)), size_cons.
  rewrite andb_true_iff, negb_true_iff, <- IH.
  remember (size (dedup_adjacent (y :: l))) as n eqn:En.
  remember (size (y :: l)) as m eqn:Em. clear En Em IH.
  destruct (str_eqb y x); destruct x as [|z x]; cbn [nonempty andb length].
  - split; [intros; split; [reflexivity | lia] | intros [_ ?]; lia].
  - split; [lia | intros [? _]; discriminate].
  - split; [intros; split; [reflexivity | lia] | intros [_ ?]; lia].
  - split; [intros; split; [reflexivity | lia] | intros [_ ?]; lia].
Qed.

Lemma squash_size_eq (l : list str) :
  size (squash l) = size l <-> no_repeat l = true.
Proof.
  unfold squash, size at 1. rewrite concat_filter_nonempty.
  apply dedup_adjacent_size_eq.
Qed.

Lemma collapse_coeng_cons2 (x y : Z) (c : str) :
  collapse_coeng (x :: y :: c) =
  if is_COENG x
  then if is_COENG y then collapse_coeng (y :: c)
       else COENG :: collapse_coeng (y :: c)
  else x :: collapse_coeng (y :: c).
Proof. reflexivity. Qed.

(** The collapse keeps the length exactly when the chunk has no two coengs
    in a row. *)
Lemma collapse_coeng_length_eq (c : str) :
  length (collapse_coeng c) = length c <-> no_pair COENG COENG c = true.
Proof.
  induction c as [|x c IH]; [now split|].
  destruct c as [|y c].
  - cbn. destruct (is_COENG x); now split.
  - pose proof (collapse_coeng_length (y :: c)) as Hle.
    rewrite collapse_coeng_cons2, no_pair_cons.
    remember (collapse_coeng (y :: c)) as d eqn:Ed.
    remember (no_pair COENG COENG (y :: c)) as np eqn:Enp.
    remember (y :: c) as yc eqn:Eyc.
    destruct (is_COENG x) eqn:Hx; [destruct (is_COENG y) eqn:Hy|].
    + apply is_COENG_eq in Hx, Hy. subst x y. rewrite !Z.eqb_refl.
      cbn [andb negb length]. split; [lia | discriminate].
    + replace (y =? COENG)%Z with false by (symmetry; class_lia).
      rewrite andb_false_r. cbn [negb andb length]. rewrite <- IH.
      split; lia.
    + replace (x =? COENG)%Z with false by (symmetry; class_lia).
      cbn [negb andb length]. rewrite <- IH. split; lia.
Qed.

(** A chunk of a class other than the coeng clusters is one code point. *)
Lemma chunk_shape_no_coengs (c : str) :
  chunk_shape c -> re_match_class is_COENG c = false ->
  no_pair COENG COENG c = true.
Proof.
  intros Hs Hc. destruct Hs as [ks x Hks Hall Hx|ks x r Hks Hall Hx Hr|x Hx|g Hg Hall].
  - destruct ks as [|k ks]; [congruence|]. cbn in Hc, Hall.
    rewrite Hc in Hall. discriminate.
  - destruct ks as [|k ks]; [congruence|]. cbn in Hc, Hall.
    rewrite Hc in Hall. discriminate.
  - reflexivity.
  - clear Hg Hc. induction Hall as [|y g -> _ IH]; [reflexivity|].
    rewrite no_pair_cons_other by (intros H; class_unfold; discriminate H).
    exact IH.
Qed.

Lemma class_of_coeng (c : str) :
  class_of c = Some CoengCluster <-> re_match_class is_COENG c = true.
Proof.
  destruct c as [|x c]; [now split|]. unfold class_of. cbn [re_match_class].
  destruct (is_COENG x) eqn:Hx.
  - replace (DEPVOWEL x) with false by (symmetry; class_lia). now split.
  - destruct (DEPVOWEL x), (NONSPACING x), (SPACING x), (REGSHIFTER x),
      (is_ROBAT x); split; congruence.
Qed.

(** The buckets hold as many code points as the chunks exactly when every
    chunk has a class and no chunk has two coengs in a row. *)
Lemma bucket_sizes_eq (l : list str) :
  Forall (fun c => c <> [] /\ chunk_shape c) l ->
  size (filter (has_class RegShifter) l) + size (filter (has_class Robat) l) +
  size (map collapse_coeng (filter (has_class CoengCluster) l)) +
  size (filter (has_class DepVowel) l) + size (filter (has_class NonSpacing) l) +
  size (filter (has_class Spacing) l) = size l <->
  forallb classified l = true /\ forallb (no_pair COENG COENG) l = true.
Proof.
  induction 1 as [|c l [Hne Hs] _ IH]; [now split|].
  pose proof (bucket_sizes l) as Hle.
  cbn [filter forallb]. rewrite !andb_true_iff.
  assert (Hk : forall k, has_class k c =
                 match class_of c with
                 | Some k' => chunk_class_eqb k k'
                 | None => false
                 end) by reflexivity.
  rewrite !Hk. clear Hk.
  pose proof (collapse_coeng_length c) as Hc.
  pose proof (collapse_coeng_length_eq c) as Hceq.
  assert (Hnc : class_of c <> Some CoengCluster ->
                no_pair COENG COENG c = true).
  { intros Hk. apply chunk_shape_no_coengs; [exact Hs|].
    destruct (re_match_class is_COENG c) eqn:E; [|reflexivity].
    exfalso. apply Hk. now apply class_of_coeng. }
  assert (Hlen : 0 < length c) by (destruct c; [congruence | cbn; lia]).
  unfold classified at 1.
  destruct (class_of c) as [k|] eqn:Ek.
  - assert (Hother : k <> CoengCluster -> no_pair COENG COENG c = true)
      by (intros Hk; apply Hnc; congruence).
    destruct k; cbn [chunk_class_eqb map]; rewrite ?size_cons;
      try (rewrite (Hother ltac:(discriminate)); split;
           [intros E; assert (E' : forallb classified l = true /\
                                   forallb (no_pair COENG COENG) l = true)
              by (apply IH; lia); tauto
           |intros [[_ H1] [_ H2]];
            assert (E' := proj2 IH (conj H1 H2)); lia]).
    split.
    + intros E.
      assert (E' : forallb classified l = true /\
                   forallb (no_pair COENG COENG) l = true) by (apply IH; lia).
      assert (Hcc : no_pair COENG COENG c = true) by (apply Hceq; lia).
      tauto.
    + intros [[_ H1] [Hcc H2]]. apply Hceq in Hcc.
      assert (E' := proj2 IH (conj H1 H2)). lia.
  - rewrite ?size_cons. split; [lia|]. intros [[H _] _]. discriminate.
Qed.

(** ** The length of the reordered syllable *)

Lemma joined_chunks_real (c : Z) (tail : str) :
  joined_chunks (c :: tail) = [c] :: joined_buckets tail.
Proof.
  unfold joined_chunks, joined_buckets. cbn [firstn skipn].
  now rewrite ro_loop_spec.
Qed.

Lemma no_repeat_base (c : Z) (tail : str) :
  CONS_OR_INDEPVOWEL c = true ->
  no_repeat ([c] :: joined_buckets tail) = no_repeat (joined_buckets tail).
Proof.
  intros Hc. pose proof (joined_buckets_not_base tail) as H.
  destruct (joined_buckets tail) as [|y l]; [reflexivity|].
  cbn [no_repeat nonempty andb].
  inversion H as [|? ? Hy _]; subst.
  destruct (str_eqb y [c]) eqn:E; [|reflexivity].
  apply str_eqb_eq in E. subst y. cbn in Hy. congruence.
Qed.

Lemma fusion_free_base (c : Z) (s : str) :
  CONS_OR_INDEPVOWEL c = true -> fusion_free (c :: s) = fusion_free s.
Proof.
  intros Hc. unfold fusion_free.
  rewrite !no_pair_cons_other; [reflexivity| | |];
    intros ->; revert Hc; class_unfold; cbn; discriminate.
Qed.

Lemma joined_buckets_size_eq (tail : str) :
  size (joined_buckets tail) = length tail <->
  forallb classified (chunks_of tail) = true /\
  forallb (no_pair COENG COENG) (chunks_of tail) = true.
Proof.
  unfold joined_buckets. cbv zeta. rewrite classify_spec.
  cbn [rs robat coeng dv nonsp sp]. rewrite !size_app, ro_moved_size.
  assert (Hlen : length tail = size (chunks_of tail))
    by (unfold size; now rewrite chunks_of_concat).
  rewrite Hlen, <- bucket_sizes_eq.
  - split; lia.
  - pose proof (chunks_of_shape tail) as H. revert H. apply Forall_impl.
    intros c Hc. split; [now apply chunk_shape_nonempty | exact Hc].
Qed.

(** A syllable keeps its length exactly when none of the steps that remove
    code points applies. *)
Lemma reorderSyll_length_eq (syll : str) :
  length (reorderSyll syll) = length syll <-> lossless syll = true.
Proof.
  unfold lossless. destruct (is_real_syll syll) eqn:E.
  - destruct (is_real_syll_inv syll E) as (c & tail & -> & _ & Hc).
    rewrite (reorderSyll_real c tail E), (reassemble_real c tail Hc).
    rewrite joined_chunks_real, (no_repeat_base c tail Hc).
    rewrite (fusion_free_base c _ Hc). cbn [skipn length].
    rewrite !andb_true_iff.
    rewrite <- fuse_length_eq, <- squash_size_eq, <- joined_buckets_size_eq.
    pose proof (fuse_length (concat (squash (joined_buckets tail)))) as L1.
    pose proof (squash_size (joined_buckets tail)) as L2.
    pose proof (joined_buckets_size tail) as L3.
    unfold size in *. split; [intros H; repeat split; lia | lia].
  - rewrite (reorderSyll_not_real _ E). now split.
Qed.

(** ** The length of the reordered text *)

Lemma concat_map_length_eq (f : str -> str) (l : list str) :
  (forall x, length (f x) <= length x) ->
  length (concat (map f l)) = length (concat l) <->
  Forall (fun x => length (f x) = length x) l.
Proof.
  intros H. induction l as [|x l IH]; [split; [constructor | reflexivity]|].
  pose proof (concat_map_length f l H) as Hle. specialize (H x).
  cbn [map concat]. rewrite !length_app. split.
  - intros E. constructor; [lia|]. apply IH. lia.
  - intros E. inversion E as [|? ? Hx Hl]; subst. apply IH in Hl. lia.
Qed.

Lemma reorder_segments_length_eq (text : str) :
  length (reorder_segments text) = length text <->
  forallb lossless (syllables_of text) = true.
Proof.
  unfold reorder_segments. rewrite <- (syllables_of_concat text) at 2.
  rewrite (concat_map_length_eq reorderSyll _ reorderSyll_length).
  rewrite forallb_forall, Forall_forall.
  split; intros H x Hx; apply reorderSyll_length_eq; auto.
Qed.

(** C5, as the source has it: segmentation loses and adds nothing, and the
    reordering of a syllable never adds a code point.  It removes code
    points in four places and nowhere else: a chunk of no class is dropped,
    a run of coengs in a chunk becomes one coeng, the duplicate loop blanks
    an entry equal to the next one, and a vowel replacement applies.  So the
    output is as long as the regularized text exactly when none of the four
    happens in any syllable, and shorter otherwise. *)
Theorem reorderText_length (text : str) :
  concat (syllables_of (regularizeText text)) = regularizeText text /\
  (forall syll,
     length (reorderSyll syll) <= length syll /\
     (length (reorderSyll syll) = length syll <-> lossless syll = true)) /\
  length (reorderText text) <= length (regularizeText text) /\
  (length (reorderText text) = length (regularizeText text) <->
   forallb lossless (syllables_of (regularizeText text)) = true).
Proof.
  split; [apply syllables_of_concat|]. split; [|split].
  - intros syll. split; [apply reorderSyll_length|].
    apply reorderSyll_length_eq.
  - apply reorder_segments_length.
  - apply reorder_segments_length_eq.
Qed.

(** C5, as the claim states it, fails: without any regularization and
    without any vowel replacement, the duplicate loop and the collapse of
    coengs shorten the text. *)
Lemma length_changes_without_fusion :
  let text := [0x1780; 0x17D2; 0x17D2; 0x1781; 0x17B6; 0x17B6]%Z in
  regularizeText text = text /\
  syllables_of text = [text] /\
  fuse (reassemble text) = reassemble text /\
  reorderText text = [0x1780; 0x17D2; 0x1781; 0x17B6]%Z /\
  length (reorderText text) <> length text.
Proof.
  cbv zeta. repeat split; try reflexivity. vm_compute. lia.
Qed.

(** Each of the four is a cause of its own: a zero-width space, a doubled
    coeng, a doubled vowel and a vowel pair each cost one code point while
    the other three conditions hold. *)
Lemma reorderSyll_length_causes :
  let cond (syll : str) :=
    (forallb classified (chunks_of (skipn 1 syll)),
     forallb (no_pair COENG COENG) (chunks_of (skipn 1 syll)),
     no_repeat (joined_chunks syll),
     fusion_free (reassemble syll)) in
  (cond [0x1780; 0x200B]%Z = (false, true, true, true) /\
   reorderSyll [0x1780; 0x200B]%Z = [0x1780%Z]) /\
  (cond [0x1780; 0x17D2; 0x17D2; 0x1781]%Z = (true, false, true, true) /\
   reorderSyll [0x1780; 0x17D2; 0x17D2; 0x1781]%Z =
     [0x1780; 0x17D2; 0x1781]%Z) /\
  (cond [0x1780; 0x17B6; 0x17B6]%Z = (true, true, false, true) /\
   reorderSyll [0x1780; 0x17B6; 0x17B6]%Z = [0x1780; 0x17B6]%Z) /\
  (cond [0x1780; 0x17C1; 0x17B8]%Z = (true, true, true, false) /\
   reorderSyll [0x1780; 0x17C1; 0x17B8]%Z = [0x1780; 0x17BE]%Z).
Proof. cbv zeta. repeat split. Qed.

(** * A second pass *)

(** ** The entries one pass leaves *)

Lemma joined_buckets_items (tl : str) :
  syll_items tl -> Forall item_entry (squash (joined_buckets tl)).
Proof.
  intros Hit. apply Forall_forall. intros e He.
  apply squash_in_filter in He. apply filter_In in He as [He Hne].
  unfold joined_buckets in He. cbv zeta in He.
  pose proof (item_entry_single REGSHIFTER _ ltac:(intros; class_lia)
                (rs_single tl)) as Hrs.
  pose proof (item_entry_single is_ROBAT _ ltac:(intros; class_lia)
                (robat_single tl)) as Hrb.
  pose proof (item_entry_single DEPVOWEL _ ltac:(intros; class_lia)
                (dv_single tl)) as Hdv.
  pose proof (item_entry_single NONSPACING _ ltac:(intros; class_lia)
                (nonsp_single tl)) as Hns.
  pose proof (item_entry_single SPACING _ ltac:(intros; class_lia)
                (sp_single tl)) as Hsp.
  pose proof (coeng_entries tl Hit) as Hco.
  rewrite Forall_forall in *. rewrite !in_app_iff in He.
  destruct He as [H|[H|[H|[H|[H|H]]]]]; auto.
  apply in_ro_moved in H as [->|H]; [discriminate | auto].
Qed.

Lemma joined_buckets_sorted (tl : str) :
  ranked 0 (squash (joined_buckets tl)) /\
  Forall (fun e => rank e <= 5) (squash (joined_buckets tl)).
Proof.
  split.
  - apply squash_ranked_filter, joined_buckets_order.
  - apply Forall_forall. intros e He. apply squash_in_filter in He.
    pose proof (joined_buckets_ranks tl) as Hr.
    rewrite Forall_forall in Hr. now apply Hr.
Qed.

(** ** A vowel replacement on a list of entries *)

Lemma rank_depvowel (x : Z) : DEPVOWEL x = true -> rank [x] = 3.
Proof.
  intros H. unfold rank, class_of. cbn [re_match_class]. now rewrite H.
Qed.

Lemma str_replace_2_stay (a b : Z) (new : str) (x : Z) (s : str) :
  re_match_class (Z.eqb b) s = false ->
  str_replace [a; b] new (x :: s) = x :: str_replace [a; b] new s.
Proof.
  intros H. destruct s as [|y s]; [now rewrite str_replace_2_one|].
  rewrite str_replace_2_cons. cbn in H. rewrite H.
  now rewrite andb_false_r.
Qed.

Lemma item_entry_no_depvowel (e : str) (a : Z) :
  item_entry e -> DEPVOWEL a = true -> length e <> 1 -> ~ In a e.
Proof.
  intros He Ha Hl Hin.
  destruct He as [c Hc|c r Hc Hr|x Hx]; cbn in Hin, Hl; [| |lia];
    intuition (subst; class_lia).
Qed.

Section ReplaceEntries.

Variables a b o : Z.
Hypothesis a_dv : DEPVOWEL a = true.
Hypothesis b_dv : DEPVOWEL b = true.
Hypothesis o_dv : DEPVOWEL o = true.

Lemma replace_entries_bound (n : nat) :
  forall (l : list str) (lo : nat),
    length l <= n ->
    Forall item_entry l -> ranked lo l -> Forall (fun e => rank e <= 5) l ->
    exists l',
      str_replace [a; b] [o] (concat l) = concat l' /\
      Forall item_entry l' /\ ranked lo l' /\
      Forall (fun e => rank e <= 5) l'.
Proof.
  induction n as [|n IH]; intros l lo Hn He Hr Hle.
  - destruct l; [|cbn in Hn; lia]. exists []. repeat split; auto.
  - destruct l as [|e l]; [exists []; repeat split; auto|].
    inversion He as [|? ? He1 He2]; subst.
    inversion Hle as [|? ? Hle1 Hle2]; subst.
    destruct Hr as [Hlo Hr]. cbn [length] in Hn.
    assert (Hskip : str_replace [a; b] [o] (concat (e :: l)) =
                    e ++ str_replace [a; b] [o] (concat l) ->
                    exists l',
                      str_replace [a; b] [o] (concat (e :: l)) = concat l' /\
                      Forall item_entry l' /\ ranked lo l' /\
                      Forall (fun e => rank e <= 5) l').
    { intros E.
      destruct (IH l (rank e) ltac:(lia) He2 Hr Hle2)
        as (l' & E' & He' & Hr' & Hle').
      exists (e :: l'). rewrite E, E'. repeat split; auto. }
    destruct (Nat.eq_dec (length e) 1) as [Hlen|Hlen].
    + destruct e as [|x [|? ?]]; try discriminate. clear Hlen.
      cbn [concat app] in *.
      destruct (Z.eq_dec x a) as [->|Hx];
        [|apply Hskip; now apply str_replace_2_skip].
      destruct l as [|e2 l2];
        [apply Hskip; cbn [concat]; apply str_replace_2_one|].
      destruct (re_match_class (Z.eqb b) (concat (e2 :: l2))) eqn:Eb;
        [|apply Hskip; now apply str_replace_2_stay].
      inversion He2 as [|? ? He21 He22]; subst.
      inversion Hle2 as [|? ? Hle21 Hle22]; subst.
      destruct Hr as [Hlo2 Hr2].
      assert (E2 : e2 = [b]).
      { destruct He21 as [c Hc|c r Hc Hr'|y Hy]; cbn in Eb.
        - apply Z.eqb_eq in Eb. subst b. class_lia.
        - apply Z.eqb_eq in Eb. subst b. class_lia.
        - apply Z.eqb_eq in Eb. now subst y. }
      subst e2. cbn [concat app]. rewrite str_replace_2_cons.
      rewrite !Z.eqb_refl. cbn [andb app].
      rewrite (rank_depvowel a a_dv) in *. rewrite (rank_depvowel b b_dv) in *.
      cbn [length] in Hn.
      destruct (IH l2 3 ltac:(lia) He22 Hr2 Hle22)
        as (l' & E' & He' & Hr' & Hle').
      exists ([o] :: l'). rewrite E'. cbn [concat app ranked].
      rewrite (rank_depvowel o o_dv). repeat split; auto.
      * constructor; [|exact He']. constructor. class_lia.
      * constructor; [|exact Hle']. rewrite (rank_depvowel o o_dv). lia.
    + apply Hskip. cbn [concat]. apply str_replace_2_app_skip.
      now apply item_entry_no_depvowel.
Qed.

Lemma replace_entries (l : list str) (lo : nat) :
  Forall item_entry l -> ranked lo l -> Forall (fun e => rank e <= 5) l ->
  exists l',
    str_replace [a; b] [o] (concat l) = concat l' /\
    Forall item_entry l' /\ ranked lo l' /\
    Forall (fun e => rank e <= 5) l'.
Proof. apply (replace_entries_bound (length l)). lia. Qed.

End ReplaceEntries.

(** The three replacements leave a list of entries in the order of the
    join. *)
Lemma fuse_entries (l : list str) :
  Forall item_entry l -> ranked 0 l -> Forall (fun e => rank e <= 5) l ->
  exists l',
    fuse (concat l) = concat l' /\
    Forall item_entry l' /\ ranked 0 l' /\
    Forall (fun e => rank e <= 5) l'.
Proof.
  intros He Hr Hle. unfold fuse, fuse_e_aa, fuse_ii_e, fuse_e_ii.
  destruct (replace_entries 0x17C1 0x17B8 0x17BE eq_refl eq_refl eq_refl
              l 0 He Hr Hle) as (l1 & E1 & He1 & Hr1 & Hle1).
  rewrite E1.
  destruct (replace_entries 0x17B8 0x17C1 0x17BE eq_refl eq_refl eq_refl
              l1 0 He1 Hr1 Hle1) as (l2 & E2 & He2 & Hr2 & Hle2).
  rewrite E2.
  destruct (replace_entries 0x17C1 0x17B6 0x17C4 eq_refl eq_refl eq_refl
              l2 0 He2 Hr2 Hle2) as (l3 & E3 & He3 & Hr3 & Hle3).
  rewrite E3. exists l3. auto.
Qed.

(** What one pass makes of a syllable: the base and a list of entries in
    the order of the join, without any of the three pairs. *)
Lemma reorderSyll_entries (c : Z) (tl : str) :
  CONS_OR_INDEPVOWEL c = true -> syll_items tl ->
  exists l,
    reorderSyll (c :: tl) = c :: concat l /\
    Forall item_entry l /\ ranked 0 l /\
    Forall (fun e => rank e <= 5) l /\ fusion_free (concat l) = true.
Proof.
  intros Hc Hit. destruct tl as [|x tl].
  - exists []. repeat split; auto.
  - assert (Hreal : is_real_syll (c :: x :: tl) = true)
      by (apply is_real_syll_cons; [exact Hc | discriminate]).
    rewrite (reorderSyll_real c (x :: tl) Hreal).
    destruct (joined_buckets_sorted (x :: tl)) as [Hr Hle].
    destruct (fuse_entries _ (joined_buckets_items (x :: tl) Hit) Hr Hle)
      as (l & E & He' & Hr' & Hle').
    exists l. rewrite E. repeat split; auto.
    rewrite <- E. apply fuse_clears.
Qed.

(** ** The second pass over such a list *)

Lemma joined_buckets_rejoin (l : list str) :
  Forall item_entry l -> ranked 0 l ->
  joined_buckets (concat l) =
  filter (has_class RegShifter) l ++ filter (has_class Robat) l ++
  ro_moved (filter (has_class CoengCluster) l) ++
  filter (has_class DepVowel) l ++ filter (has_class NonSpacing) l ++
  filter (has_class Spacing) l.
Proof.
  intros He Hr. unfold joined_buckets. cbv zeta.
  rewrite (chunks_of_rechunks l (rechunks_ranked 0 l He Hr)).
  rewrite classify_spec. cbn [rs robat coeng dv nonsp sp].
  rewrite (map_id_Forall _ collapse_coeng); [reflexivity|].
  apply Forall_filter. revert He. apply Forall_impl.
  apply collapse_coeng_entry_id.
Qed.

Lemma ro_moved_snoc (F : list str) (z : str) :
  ro_moved (F ++ [z]) =
  map ro_blank F ++ [z] ++ filter re_match_COENG_RO F.
Proof.
  unfold ro_moved. cbv zeta. rewrite length_app. cbn [length].
  replace (length F + 1 - 1) with (length F) by lia.
  rewrite firstn_app, Nat.sub_diag, firstn_all. cbn [firstn].
  rewrite app_nil_r.
  rewrite skipn_app, Nat.sub_diag, skipn_all. cbn [skipn app].
  reflexivity.
Qed.

Lemma not_COENG_RO_Forall (F : list str) :
  forallb not_COENG_RO F = true ->
  Forall (fun e => re_match_COENG_RO e = false) F.
Proof.
  intros H. apply Forall_forall. intros e He.
  rewrite forallb_forall in H. apply H in He.
  unfold not_COENG_RO in He. now apply negb_true_iff.
Qed.

(** Only the last cluster starts with coeng RO: the RO loop finds nothing
    to move. *)
Lemma ro_moved_fixed (L : list str) :
  forallb not_COENG_RO (removelast L) = true -> ro_moved L = L.
Proof.
  intros H. destruct L as [|x L]; [reflexivity|].
  assert (Hne : x :: L <> []) by discriminate.
  pose proof (app_removelast_last [] Hne) as E.
  destruct (ro_blank_id _ (not_COENG_RO_Forall _ H)) as [E1 E2].
  remember (removelast (x :: L)) as F eqn:EF.
  remember (last (x :: L) []) as z eqn:Ez.
  rewrite E, ro_moved_snoc, E1, E2. now rewrite app_nil_r.
Qed.

Lemma squash_fixed (l : list str) :
  Forall (fun e => e <> []) l -> no_repeat l = true -> squash l = l.
Proof.
  induction 1 as [|x l Hx Hl IH]; [reflexivity|]. intros H.
  destruct l as [|y l]; [now apply squash_one|].
  rewrite no_repeat_cons in H. apply andb_prop in H as [H1 H2].
  rewrite squash_cons_keep; [now rewrite IH | exact Hx |].
  intros ->. rewrite str_eqb_refl in H1. destruct x; [congruence|].
  discriminate.
Qed.

Lemma entries_nonempty (l : list str) :
  Forall item_entry l -> Forall (fun e => e <> []) l.
Proof. apply Forall_impl, item_entry_nonempty. Qed.

Lemma concat_entries_nonempty (l : list str) :
  Forall item_entry l -> l <> [] -> concat l <> [].
Proof.
  intros He Hl. destruct l as [|e l]; [congruence|].
  inversion He as [|? ? He1 _]; subst. apply item_entry_nonempty in He1.
  cbn [concat]. destruct e; [congruence | discriminate].
Qed.

Section SecondPass.

Variables (c : Z) (l : list str).
Hypothesis c_base : CONS_OR_INDEPVOWEL c = true.
Hypothesis l_entries : Forall item_entry l.
Hypothesis l_ranked : ranked 0 l.
Hypothesis l_classes : Forall (fun e => rank e <= 5) l.

Lemma second_pass :
  l <> [] ->
  reorderSyll (c :: concat l) =
  c :: fuse (concat (squash (joined_buckets (concat l)))).
Proof.
  intros Hl. apply reorderSyll_real, is_real_syll_cons; [exact c_base|].
  now apply concat_entries_nonempty.
Qed.

(** A list without repeats, with coeng RO in the last cluster only and
    without the three pairs comes back as it is. *)
Lemma second_pass_tidy :
  fusion_free (concat l) = true -> no_repeat l = true ->
  forallb not_COENG_RO (removelast (filter (has_class CoengCluster) l)) = true ->
  reorderSyll (c :: concat l) = c :: concat l.
Proof.
  intros Hf Hn Hro. destruct (list_eq_dec (list_eq_dec Z.eq_dec) l []) as [->|Hl];
    [reflexivity|].
  rewrite (second_pass Hl).
  rewrite (joined_buckets_rejoin l l_entries l_ranked).
  rewrite (ro_moved_fixed _ Hro), (ranked_join l l_ranked l_classes).
  rewrite (squash_fixed l (entries_nonempty l l_entries) Hn).
  now rewrite fuse_fixed.
Qed.

End SecondPass.

(** ** What a list that comes back looks like *)

Lemma no_repeat_app (p q : list str) :
  no_repeat (p ++ q) = true -> no_repeat p = true /\ no_repeat q = true.
Proof.
  induction p as [|x p IH]; intros H; [now split|].
  cbn [app] in H. destruct p as [|y p].
  - split; [reflexivity|]. destruct q as [|y q]; [reflexivity|].
    cbn [app] in H. rewrite no_repeat_cons in H.
    now apply andb_prop in H as [_ H].
  - cbn [app] in H, IH. rewrite no_repeat_cons in H |- *.
    apply andb_prop in H as [H1 H2]. destruct (IH H2) as [Hp Hq].
    now rewrite H1, Hp.
Qed.

Lemma no_repeat_twice (z : str) (l : list str) :
  z <> [] -> no_repeat (z :: z :: l) = false.
Proof.
  intros Hz. rewrite no_repeat_cons, str_eqb_refl.
  destruct z; [congruence | reflexivity].
Qed.

(** Without repeats the duplicate loop blanks empty strings only. *)
Lemma squash_no_repeat (l : list str) :
  no_repeat l = true -> squash l = filter (@nonempty Z) l.
Proof.
  unfold squash. induction l as [|x l IH]; [reflexivity|]. intros H.
  destruct l as [|y l]; [reflexivity|].
  rewrite no_repeat_cons in H. apply andb_prop in H as [H1 H2].
  rewrite dedup_adjacent_cons2. cbn [filter]. rewrite (IH H2).
  destruct (str_eqb y x); [|reflexivity].
  destruct x; [reflexivity | discriminate].
Qed.

Lemma forallb_false_split (A : Type) (p : A -> bool) (l : list A) :
  forallb p l = false ->
  exists l1 r l2, l = l1 ++ r :: l2 /\ forallb p l1 = true /\ p r = false.
Proof.
  induction l as [|x l IH]; [discriminate|]. cbn [forallb].
  destruct (p x) eqn:Hx.
  - cbn [andb]. intros H. destruct (IH H) as (l1 & r & l2 & -> & H1 & Hr).
    exists (x :: l1), r, l2. cbn [forallb]. now rewrite Hx.
  - intros _. exists [], x, l. auto.
Qed.

Lemma re_match_COENG_RO_nonnil (e : str) :
  re_match_COENG_RO e = true -> e <> [].
Proof. destruct e; [discriminate | discriminate]. Qed.

Lemma filter_nonempty_app_cons (a : list str) (z : str) (b : list str) :
  z <> [] ->
  filter (@nonempty Z) (a ++ z :: b) =
  filter (@nonempty Z) a ++ z :: filter (@nonempty Z) b.
Proof.
  intros Hz. rewrite filter_app. cbn [filter].
  destruct z; [congruence | reflexivity].
Qed.

(** A bucket the RO loop only permutes trivially: if the loop with the
    blanks taken out gives the bucket back and leaves no repeat, no cluster
    before the last starts with coeng RO. *)
Lemma ro_moved_back (C : list str) :
  Forall (fun e => e <> []) C ->
  filter (@nonempty Z) (ro_moved C) = C ->
  no_repeat (ro_moved C) = true ->
  forallb not_COENG_RO (removelast C) = true.
Proof.
  intros Hne Heq Hnr. destruct C as [|x C]; [reflexivity|].
  assert (Hx : x :: C <> []) by discriminate.
  pose proof (app_removelast_last [] Hx) as E.
  remember (removelast (x :: C)) as F eqn:EF.
  remember (last (x :: C) []) as z eqn:Ez.
  rewrite E in Hne, Heq, Hnr. clear E EF Ez x C Hx.
  destruct (forallb not_COENG_RO F) eqn:EFo; [reflexivity|]. exfalso.
  apply forallb_false_split in EFo as (F1 & r & F2 & -> & H1 & Hr).
  unfold not_COENG_RO in Hr. apply negb_false_iff in Hr.
  apply Forall_app in Hne as [HneF Hz].
  inversion Hz as [|? ? Hz' _]; subst.
  apply Forall_app in HneF as [Hne1 Hne2].
  inversion Hne2 as [|? ? Hr' Hne2']; subst.
  destruct (ro_blank_id _ (not_COENG_RO_Forall _ H1)) as [E1 E2].
  assert (EM : map ro_blank (F1 ++ r :: F2) = F1 ++ [] :: map ro_blank F2).
  { rewrite map_app, E1. cbn [map]. unfold ro_blank at 1. now rewrite Hr. }
  assert (ER : filter re_match_COENG_RO (F1 ++ r :: F2) =
               r :: filter re_match_COENG_RO F2).
  { rewrite filter_app, E2. cbn [filter app]. now rewrite Hr. }
  rewrite ro_moved_snoc, EM, ER in Heq, Hnr.
  rewrite <- !app_assoc in Heq.
  rewrite (filter_app (@nonempty Z) F1) in Heq.
  rewrite (filter_nonempty_id Hne1) in Heq.
  apply app_inv_head in Heq. cbn [filter nonempty app] in Heq.
  rewrite (filter_nonempty_app_cons _ _ _ Hz') in Heq.
  destruct (filter (@nonempty Z) (map ro_blank F2)) as [|g G] eqn:EG.
  - cbn [app] in Heq. injection Heq as Hzr _. subst z.
    rewrite <- !app_assoc in Hnr. apply no_repeat_app in Hnr as [_ Hnr].
    apply no_repeat_app in Hnr as [_ Hnr].
    cbn [app] in Hnr. rewrite (no_repeat_twice r _ Hr') in Hnr.
    discriminate.
  - cbn [app] in Heq. injection Heq as Hg _. subst g.
    assert (Hin : In r (filter (@nonempty Z) (map ro_blank F2)))
      by (rewrite EG; now left).
    apply filter_In in Hin as [Hin _].
    apply in_map_iff in Hin as (f & Hf & _). unfold ro_blank in Hf.
    destruct (re_match_COENG_RO f) eqn:Ef.
    + subst r. discriminate.
    + subst f. congruence.
Qed.

Lemma ranked_same (k : nat) (l : list str) :
  Forall (fun e => rank e = k) l -> ranked k l.
Proof.
  intros H. rewrite <- (app_nil_r l).
  apply (ranked_app k k l []); [exact H | lia | exact I].
Qed.

Lemma chunks_of_clusters (X : list str) :
  Forall item_entry X -> Forall (fun e => rank e = 2) X ->
  chunks_of (concat X) = X.
Proof.
  intros He Hr. apply chunks_of_rechunks.
  apply (rechunks_ranked 2); [exact He | now apply ranked_same].
Qed.

Section SecondPassBack.

Variables (c : Z) (l : list str).
Hypothesis c_base : CONS_OR_INDEPVOWEL c = true.
Hypothesis l_entries : Forall item_entry l.
Hypothesis l_ranked : ranked 0 l.
Hypothesis l_classes : Forall (fun e => rank e <= 5) l.

(** A list that comes back as it is has no repeat, and coeng RO in its last
    cluster only. *)
Lemma second_pass_back :
  reorderSyll (c :: concat l) = c :: concat l ->
  no_repeat l = true /\
  forallb not_COENG_RO (removelast (filter (has_class CoengCluster) l)) = true.
Proof.
  intros Hfix.
  destruct (list_eq_dec (list_eq_dec Z.eq_dec) l []) as [El|Hl];
    [rewrite El; now split|].
  rewrite (second_pass c l c_base l_entries Hl) in Hfix.
  rewrite (joined_buckets_rejoin l l_entries l_ranked) in Hfix.
  injection Hfix as H.
  pose proof (ranked_join l l_ranked l_classes) as Hjoin.
  remember (filter (has_class RegShifter) l) as R eqn:ER.
  remember (filter (has_class Robat) l) as B eqn:EB.
  remember (filter (has_class CoengCluster) l) as C eqn:EC.
  remember (filter (has_class DepVowel) l ++ filter (has_class NonSpacing) l ++
            filter (has_class Spacing) l) as T eqn:ET.
  remember (R ++ B ++ ro_moved C ++ T) as J eqn:EJ.
  assert (HsJ : size J = size l).
  { rewrite <- Hjoin, EJ. now rewrite !size_app, ro_moved_size. }
  pose proof (fuse_length (concat (squash J))) as L1.
  pose proof (squash_size J) as L2.
  assert (HL : length (fuse (concat (squash J))) = size l)
    by (rewrite H; reflexivity).
  unfold size in *.
  assert (Hnr : no_repeat J = true) by (apply squash_size_eq; unfold size; lia).
  assert (Hff : fuse (concat (squash J)) = concat (squash J))
    by (apply fuse_fixed, fuse_length_eq; lia).
  rewrite Hff, (squash_no_repeat J Hnr), concat_filter_nonempty in H.
  assert (HC : concat (ro_moved C) = concat C).
  { rewrite <- Hjoin, EJ in H. rewrite !concat_app in H.
    apply app_inv_head in H. apply app_inv_head in H.
    now apply app_inv_tail in H. }
  assert (HeC : Forall item_entry C) by (subst C; now apply Forall_filter).
  assert (HrC : Forall (fun e => rank e = 2) C)
    by (subst C; apply (filter_has_class_rank CoengCluster)).
  assert (Hsub : forall e, In e (filter (@nonempty Z) (ro_moved C)) -> In e C).
  { intros e He. apply filter_In in He as [He Hne].
    apply in_ro_moved in He as [->|He]; [discriminate | exact He]. }
  assert (HX : filter (@nonempty Z) (ro_moved C) = C).
  { transitivity (chunks_of (concat (filter (@nonempty Z) (ro_moved C)))).
    - symmetry. apply chunks_of_clusters; apply Forall_forall; intros e He;
        apply Hsub in He;
        [rewrite Forall_forall in HeC | rewrite Forall_forall in HrC]; auto.
    - rewrite concat_filter_nonempty, HC. now apply chunks_of_clusters. }
  assert (HnrC : no_repeat (ro_moved C) = true).
  { rewrite EJ in Hnr. apply no_repeat_app in Hnr as [_ Hnr].
    apply no_repeat_app in Hnr as [_ Hnr].
    now apply no_repeat_app in Hnr as [Hnr _]. }
  pose proof (ro_moved_back C (entries_nonempty C HeC) HX HnrC) as Hro.
  split; [|exact Hro].
  rewrite (ro_moved_fixed C Hro), Hjoin in EJ.
  now rewrite <- EJ.
Qed.

End SecondPassBack.

(** ** The pieces of a reordered text *)

Lemma syllables_of_shape (text : str) :
  Forall (fun p => syllable_piece p \/ gap_piece p) (syllables_of text).
Proof.
  unfold syllables_of. rewrite re_split_split_gap.
  pose proof (@split_gap_pieces match_SYLLPAT match_SYLLPAT_sound
                syllable_piece (fun x => CONS_OR_INDEPVOWEL x = false)
                match_SYLLPAT_piece match_SYLLPAT_gap text []
                (Forall_nil _)) as H.
  rewrite Forall_forall in *. intros p Hp.
  apply filter_In in Hp as [Hin _]. exact (H p Hin).
Qed.

(** Reordering moves no boundary: the pieces of the reordered text are the
    reordered pieces of the text. *)
Lemma segments_kept (y : str) :
  forall gap, Forall (fun x => CONS_OR_INDEPVOWEL x = false) gap ->
  filter (@nonempty Z) (split_gap match_SYLLPAT gap (reorder_segments y)) =
  map reorderSyll (filter (@nonempty Z) (split_gap match_SYLLPAT gap y)).
Proof.
  induction y as [y IH] using length_ind. intros gap Hgap.
  destruct y as [|c y].
  - rewrite reorder_segments_nil, split_gap_nil.
    now rewrite map_reorderSyll_gap by exact Hgap.
  - destruct (CONS_OR_INDEPVOWEL c) eqn:Hc.
    + pose proof (syll_tail_app y) as Happ.
      destruct (syll_tail_items y) as [Hitems Hstop].
      remember (fst (syll_tail y)) as tl eqn:Etl.
      remember (snd (syll_tail y)) as rest eqn:Erest.
      assert (Hlen : length rest < length (c :: y)).
      { rewrite <- Happ. cbn [length]. rewrite length_app. lia. }
      pose proof (IH rest Hlen [] (Forall_nil _)) as IH1.
      rewrite (reorder_segments_base c y Hc). rewrite <- Etl, <- Erest.
      destruct (reorderSyll_entries c tl Hc Hitems)
        as (l & Hout & He & _ & _ & _).
      pose proof (concat_entries_items l He) as Hoi.
      rewrite Hout. cbn [app].
      assert (Hm : match_SYLLPAT (c :: concat l ++ reorder_segments rest) =
                   Some (c :: concat l, reorder_segments rest)).
      { rewrite (match_SYLLPAT_base _ _ Hc).
        rewrite (syll_tail_items_app (concat l) (reorder_segments rest) Hoi
                   (tail_stop_reorder rest Hstop)).
        reflexivity. }
      rewrite (@split_gap_match _ match_SYLLPAT_sound gap _ _ _ Hm).
      rewrite (@split_gap_match _ match_SYLLPAT_sound gap _ _ _
                 (match_SYLLPAT_base c y Hc)).
      rewrite <- Etl, <- Erest.
      rewrite !filter_cons2, !map_app.
      rewrite !map_reorderSyll_gap by exact Hgap.
      cbn [filter nonempty map].
      now rewrite Hout, IH1.
    + rewrite (reorder_segments_gap c y Hc).
      rewrite (split_gap_skip _ gap c _ (match_SYLLPAT_none c _ Hc)).
      rewrite (split_gap_skip _ gap c _ (match_SYLLPAT_none c _ Hc)).
      apply IH; [cbn; lia|].
      apply Forall_app. split; [exact Hgap | now constructor].
Qed.

Lemma syllables_of_reordered (y : str) :
  syllables_of (reorder_segments y) = map reorderSyll (syllables_of y).
Proof.
  unfold syllables_of. rewrite !re_split_split_gap.
  apply segments_kept. constructor.
Qed.

(** ** One piece *)

Lemma tidy_syll_not_real (q : str) :
  is_real_syll q = false -> tidy_syll q = true.
Proof. intros H. unfold tidy_syll. now rewrite H. Qed.

Lemma tidy_syll_entries (c : Z) (l : list str) :
  CONS_OR_INDEPVOWEL c = true -> Forall item_entry l -> ranked 0 l ->
  l <> [] ->
  tidy_syll (c :: concat l) =
  no_repeat l &&
  forallb not_COENG_RO (removelast (filter (has_class CoengCluster) l)).
Proof.
  intros Hc He Hr Hl. unfold tidy_syll.
  rewrite is_real_syll_cons;
    [|exact Hc | now apply concat_entries_nonempty].
  cbn [skipn]. now rewrite (chunks_of_rechunks l (rechunks_ranked 0 l He Hr)).
Qed.

(** A piece that one pass has made is left alone by the next exactly when
    it is tidy. *)
Lemma piece_fixed_iff (p : str) :
  syllable_piece p \/ gap_piece p ->
  reorderSyll (reorderSyll p) = reorderSyll p <->
  tidy_syll (reorderSyll p) = true.
Proof.
  intros [(c & tl & -> & Hc & Hit)|Hg].
  - destruct (reorderSyll_entries c tl Hc Hit)
      as (l & -> & He & Hr & Hle & Hf).
    destruct (list_eq_dec (list_eq_dec Z.eq_dec) l []) as [->|Hl];
      [now split|].
    rewrite (tidy_syll_entries c l Hc He Hr Hl), andb_true_iff. split.
    + now apply second_pass_back.
    + intros [H1 H2]. now apply second_pass_tidy.
  - rewrite (reorderSyll_gap p Hg). split; [|now rewrite reorderSyll_gap].
    intros _. apply tidy_syll_not_real. rewrite is_real_syll_class.
    rewrite (no_base_head p Hg). apply andb_false_r.
Qed.

(** ** The whole text *)

Lemma app_same_length (A : Type) (a a' b b' : list A) :
  length a = length a' -> a ++ b = a' ++ b' -> a = a' /\ b = b'.
Proof.
  revert a'. induction a as [|x a IH]; intros [|x' a'] Hl H;
    try discriminate; [now split|].
  cbn in Hl, H. injection H as -> H.
  destruct (IH a' ltac:(lia) H) as [-> ->]. now split.
Qed.

Lemma concat_map_fixed (f : str -> str) (l : list str) :
  (forall x, length (f x) <= length x) ->
  concat (map f l) = concat l -> Forall (fun x => f x = x) l.
Proof.
  intros Hf. induction l as [|x l IH]; [constructor|].
  cbn [map concat]. intros H.
  pose proof (concat_map_length f l Hf) as Hle.
  pose proof (f_equal (@length Z) H) as Hlen. rewrite !length_app in Hlen.
  specialize (Hf x).
  assert (Hfx : length (f x) = length x) by lia.
  destruct (app_same_length Z _ _ _ _ Hfx H) as [Hx Hrest].
  constructor; [exact Hx | now apply IH].
Qed.

Lemma reorder_segments_twice (r : str) :
  reorder_segments (reorder_segments r) = reorder_segments r <->
  tidy (reorder_segments r) = true.
Proof.
  unfold tidy. unfold reorder_segments at 1.
  rewrite (syllables_of_reordered r).
  change (reorder_segments r)
    with (concat (map reorderSyll (syllables_of r))).
  pose proof (syllables_of_shape r) as Hs.
  rewrite Forall_forall in Hs. rewrite forallb_forall. split.
  - intros H q Hq. apply concat_map_fixed in H; [|apply reorderSyll_length].
    rewrite Forall_forall in H. specialize (H q Hq).
    apply in_map_iff in Hq as (p & <- & Hp).
    now apply (piece_fixed_iff p (Hs p Hp)).
  - intros H. f_equal. apply map_id_Forall, Forall_forall. intros q Hq.
    specialize (H q Hq). apply in_map_iff in Hq as (p & <- & Hp).
    now apply (piece_fixed_iff p (Hs p Hp)).
Qed.

(** C1, as the code has it: a second pass of [reorderText] changes nothing
    exactly when the first pass has left every syllable tidy: no chunk equal
    to the next one, and no coeng cluster on RO before another coeng
    cluster.  RO clusters, the vowel replacements and the duplicate loop are
    no obstacle as such. *)
Theorem reorderText_idempotent_iff (x : str) :
  reorderText (reorderText x) = reorderText x <->
  tidy (reorderText x) = true.
Proof.
  change (reorderText x) with (reorder_segments (regularizeText x)).
  change (reorderText ?t) with (reorder_segments (regularizeText t)).
  rewrite regularizeText_reordered. apply reorder_segments_twice.
Qed.

Lemma reorderText_idempotent_iff_witness :
  let x := [0x179A; 0x17C1; 0x17D2; 0x179A; 0x17D2; 0x17D2; 0x1781; 0x17C9;
            0x17B6; 0x200B; 0x20; 0x17A3; 0x17C6; 0x17B8; 0x17C1; 0x17D2;
            0x1798; 0x17CC; 0x17B4; 0x17D2; 0x41; 0x1780; 0x17B6;
            0x17B6]%Z in
  tidy (reorderText x) = true /\
  reorderText (reorderText x) = reorderText x.
Proof.
  intros x.
  assert (H : tidy (reorderText x) = true) by reflexivity.
  split; [exact H|]. now apply (reorderText_idempotent_iff x).
Defined.

(** C1, as the claim states it, fails: with two RO clusters of which one
    is the last coeng cluster, every pass swaps them. *)
Lemma reorderText_not_idempotent :
  let x := [0x1780; 0x17D2; 0x179A; 0x17D2; 0x179A; 0x17C9]%Z in
  reorderText x = [0x1780; 0x17D2; 0x179A; 0x17C9; 0x17D2; 0x179A]%Z /\
  reorderText (reorderText x) = x /\
  reorderText (reorderText x) <> reorderText x.
Proof.
  cbv zeta. repeat split. vm_compute. discriminate.
Qed.

(** C1 fails in two more ways.  A vowel replacement can make two equal
    vowels neighbours, which the next pass takes for duplicates. *)
Lemma reorderText_not_idempotent_fusion :
  let x := [0x1780; 0x17BE; 0x17C1; 0x17B8]%Z in
  reorderText x = [0x1780; 0x17BE; 0x17BE]%Z /\
  reorderText (reorderText x) = [0x1780; 0x17BE]%Z /\
  tidy (reorderText x) = false.
Proof. cbv zeta. repeat split. Qed.

(** And the RO loop leaves an empty string between two equal clusters, which
    hides them from the duplicate loop of this pass but not of the next. *)
Lemma reorderText_not_idempotent_repeat :
  let x := [0x1780; 0x17D2; 0x1781; 0x17D2; 0x179A; 0x17D2; 0x1781]%Z in
  reorderText x =
    [0x1780; 0x17D2; 0x1781; 0x17D2; 0x1781; 0x17D2; 0x179A]%Z /\
  reorderText (reorderText x) = [0x1780; 0x17D2; 0x1781; 0x17D2; 0x179A]%Z /\
  tidy (reorderText x) = false.
Proof. cbv zeta. repeat split. Qed.
